(** * Audio-to-beats conversion: a shallow embedding of [audio_to_beats.py]

    The development follows the Python module top-down: configuration and
    its validation, tempo detection, the spectral step quantizer
    ([analyze_with_librosa]), the two note-event adapters, the pattern
    builder ([build_track_data]) and the [convert] driver.

    Conventions.
    - Python [float]s and NumPy scalars are idealised as exact rationals
      ([Q]); the only non-finite values the module can produce from finite
      data (the mean of an empty list, a division by a zero span) are kept
      apart in [npfloat].
    - Python [int]s are [Z]; list indexing follows Python (negative indices
      wrap, out-of-range raises).
    - Exceptions are values of [result]; the file system and the third-party
      libraries (librosa, SciPy, Basic Pitch, Pop2Piano) are the fields of
      the [Externals] class, and every call that touches them is logged in
      an event trace. *)

From Stdlib Require Import QArith Qround Qminmax Lqa ZArith Lia Ascii.
From stdpp Require Import gmap strings list fin_maps pretty.

Local Open Scope Z_scope.

(** ** Python runtime: exceptions and numbers *)

Module Py.

Inductive error :=
| ValueError (msg : string)
| RuntimeError (msg : string)
| FileNotFoundError (path : string)
| ZeroDivisionError
| IndexError
| LibraryError (msg : string).   (* any exception raised inside a library *)

Inductive result (A : Type) :=
| Ok (a : A)
| Raise (e : error).
Arguments Ok {A} a.
Arguments Raise {A} e.

Definition bind {A B} (r : result A) (k : A → result B) : result B :=
  match r with
  | Ok a => k a
  | Raise e => Raise e
  end.

(** [for x in xs: acc = f(acc, x)] where the body may raise. *)
Fixpoint for_each {A S} (f : S → A → result S) (xs : list A) (s : S)
  : result S :=
  match xs with
  | [] => Ok s
  | x :: xs' => bind (f s x) (for_each f xs')
  end.

(** Comparisons as Python evaluates them, on exact values. *)
Definition Qltb (a b : Q) : bool := negb (Qle_bool b a).
Definition Qleb (a b : Q) : bool := Qle_bool a b.
Definition Qeqb (a b : Q) : bool := Qeq_bool a b.

(** [int(x)]: truncation towards zero. *)
Definition int (x : Q) : Z :=
  if Qle_bool 0 x then Qfloor x else Qceiling x.

(** [math.ceil(x)]. *)
Definition ceil (x : Q) : Z := Qceiling x.

(** [round(x)]: nearest integer, ties to the even one. *)
Definition round (x : Q) : Z :=
  let f := Qfloor x in
  let r := (x - inject_Z f)%Q in
  if Qltb r (1 # 2) then f
  else if Qltb (1 # 2) r then f + 1
  else if Z.even f then f else f + 1.

(** [round(x, 1)]: one decimal, ties to even. *)
Definition round1 (x : Q) : Q := (inject_Z (round (x * 10)) / 10)%Q.

(** [l[i]] for a Python [int] index. *)
Definition getitem {A} (l : list A) (i : Z) : result A :=
  let n := Z.of_nat (length l) in
  let j := if i <? 0 then i + n else i in
  if (0 <=? j) && (j <? n) then
    match l !! Z.to_nat j with
    | Some a => Ok a
    | None => Raise IndexError
    end
  else Raise IndexError.

(** [l[i] = x] for a Python [int] index. *)
Definition setitem {A} (l : list A) (i : Z) (x : A) : result (list A) :=
  let n := Z.of_nat (length l) in
  let j := if i <? 0 then i + n else i in
  if (0 <=? j) && (j <? n) then Ok (<[Z.to_nat j := x]> l)
  else Raise IndexError.

(** [l[a:b]]: bounds are wrapped when negative and clipped to the list. *)
Definition slice_bound (n i : Z) : Z :=
  if i <? 0 then Z.max (i + n) 0 else Z.min i n.

Definition slice {A} (l : list A) (a b : Z) : list A :=
  let n := Z.of_nat (length l) in
  let a' := slice_bound n a in
  let b' := slice_bound n b in
  take (Z.to_nat (b' - a')) (drop (Z.to_nat a') l).

(** [[x] * n]: empty when [n <= 0]. *)
Definition repeat_list {A} (x : A) (n : Z) : list A :=
  replicate (Z.to_nat n) x.

(** [range(n)] and [range(a, b)]. *)
Definition range (a b : Z) : list Z :=
  (λ k : nat, a + Z.of_nat k) <$> seq 0 (Z.to_nat (b - a)).

End Py.

Export Py.

#[global] Instance result_ret : MRet result := @Py.Ok.
#[global] Instance result_bind : MBind result := λ A B k r, Py.bind r k.

(** ** NumPy scalars that may be non-finite *)

Module Np.

Inductive npfloat :=
| Fin (q : Q)
| PInf
| NInf
| NaN.

(** [np.mean(xs)] of finite data: [nan] for the empty list. *)
Definition sum (xs : list Q) : Q := foldr Qplus 0%Q xs.

Definition mean (xs : list Q) : npfloat :=
  match xs with
  | [] => NaN
  | _ => Fin (sum xs / inject_Z (Z.of_nat (length xs)))
  end.

(** [x - c], [x * c] and [c + x] for a finite Python number [c]. *)
Definition sub_fin (x : npfloat) (c : Q) : npfloat :=
  match x with Fin q => Fin (q - c) | _ => x end.

Definition add_fin (c : Q) (x : npfloat) : npfloat :=
  match x with Fin q => Fin (c + q) | _ => x end.

Definition mul_fin (x : npfloat) (c : Q) : npfloat :=
  match x with
  | Fin q => Fin (q * c)
  | NaN => NaN
  | PInf => if Qltb 0 c then PInf else if Qltb c 0 then NInf else NaN
  | NInf => if Qltb 0 c then NInf else if Qltb c 0 then PInf else NaN
  end.

(** [x / c]: a NumPy scalar divided by zero is [inf], [-inf] or [nan],
    with a warning and no exception. *)
Definition div_fin (x : npfloat) (c : Q) : npfloat :=
  match x with
  | Fin q =>
      if Qeqb c 0 then
        if Qltb 0 q then PInf else if Qltb q 0 then NInf else NaN
      else Fin (q / c)
  | NaN => NaN
  | PInf => if Qltb c 0 then NInf else PInf
  | NInf => if Qltb c 0 then PInf else NInf
  end.

Definition round1 (x : npfloat) : npfloat :=
  match x with Fin q => Fin (Py.round1 q) | _ => x end.

(** [x < y] where one side is a finite Python number; every comparison
    with [nan] is false. *)
Definition lt_fin_l (c : Q) (x : npfloat) : bool :=
  match x with
  | Fin q => Qltb c q
  | PInf => true
  | NInf | NaN => false
  end.

Definition lt_fin_r (x : npfloat) (c : Q) : bool :=
  match x with
  | Fin q => Qltb q c
  | NInf => true
  | PInf | NaN => false
  end.

(** [max(lo, min(hi, x))] with Python's [min] and [max] on a finite [lo]
    and [hi]: the first argument is kept unless the other one compares
    smaller (resp. larger), so [nan] yields [hi]. *)
Definition clamp (lo hi : Q) (x : npfloat) : Q :=
  let m := if lt_fin_r x hi then x else Fin hi in
  if lt_fin_l lo m then match m with Fin q => q | _ => hi end else lo.

(** [np.max] over a flat list; a zero-size reduction raises. *)
Definition max_list (xs : list Q) : result Q :=
  match xs with
  | [] => Raise (ValueError "zero-size array to reduction operation maximum")
  | x :: xs' => Ok (foldl Qmax x xs')
  end.

End Np.

Export Np.

(** ** Pitch names *)

Module Notes.

(** Full 88 piano keys, C8 down to A0. *)
Definition PIANO_NOTES : list string :=
  ["C8"; "B7"; "A#7"; "A7"; "G#7"; "G7"; "F#7"; "F7"; "E7"; "D#7"; "D7"; "C#7";
   "C7"; "B6"; "A#6"; "A6"; "G#6"; "G6"; "F#6"; "F6"; "E6"; "D#6"; "D6"; "C#6";
   "C6"; "B5"; "A#5"; "A5"; "G#5"; "G5"; "F#5"; "F5"; "E5"; "D#5"; "D5"; "C#5";
   "C5"; "B4"; "A#4"; "A4"; "G#4"; "G4"; "F#4"; "F4"; "E4"; "D#4"; "D4"; "C#4";
   "C4"; "B3"; "A#3"; "A3"; "G#3"; "G3"; "F#3"; "F3"; "E3"; "D#3"; "D3"; "C#3";
   "C3"; "B2"; "A#2"; "A2"; "G#2"; "G2"; "F#2"; "F2"; "E2"; "D#2"; "D2"; "C#2";
   "C2"; "B1"; "A#1"; "A1"; "G#1"; "G1"; "F#1"; "F1"; "E1"; "D#1"; "D1"; "C#1";
   "C1"; "B0"; "A#0"; "A0"].

(** *** [librosa.note_to_midi]

    The library matches
    [^(note)[A-Ga-g] (accidental)[#♯b!♭♮n]* (octave)[+-]?\d+ ...$],
    raises [ParameterError] when the name does not match, and returns
    [12 * (octave + 1) + pitch_map[note] + sum of accidentals], the octave
    defaulting to 0.  Names with a cents suffix or a double accidental are
    outside this model (they are rejected here). *)

Definition pitch_map (c : ascii) : option Z :=
  match c with
  | "C" | "c" => Some 0 | "D" | "d" => Some 2 | "E" | "e" => Some 4
  | "F" | "f" => Some 5 | "G" | "g" => Some 7 | "A" | "a" => Some 9
  | "B" | "b" => Some 11
  | _ => None
  end%char.

(** The Unicode sharp sign, bytes 226 153 175 in UTF-8 (the flat sign is
    226 153 173 and the natural sign 226 153 174). *)
Definition sharp_sign : string := "♯".

Fixpoint accidentals (s : string) (offset : Z) : Z * string :=
  match s with
  | String "#" s' => accidentals s' (offset + 1)
  | String "b" s' | String "!" s' => accidentals s' (offset - 1)
  | String "n" s' => accidentals s' offset
  | String "226" (String "153" (String "175" s')) => accidentals s' (offset + 1)
  | String "226" (String "153" (String "173" s')) => accidentals s' (offset - 1)
  | String "226" (String "153" (String "174" s')) => accidentals s' offset
  | _ => (offset, s)
  end%char.

Definition digit (c : ascii) : option Z :=
  let n := Z.of_nat (nat_of_ascii c) in
  if (48 <=? n) && (n <=? 57) then Some (n - 48) else None.

Fixpoint digits (s : string) (acc : Z) : option Z :=
  match s with
  | EmptyString => Some acc
  | String c s' =>
      match digit c with
      | Some d => digits s' (10 * acc + d)
      | None => None
      end
  end.

Definition octave_of (s : string) : option Z :=
  match s with
  | EmptyString => Some 0
  | String "+" (String c s') => digits (String c s') 0
  | String "-" (String c s') => Z.opp <$> digits (String c s') 0
  | String "+" EmptyString | String "-" EmptyString => None
  | _ => digits s 0
  end%char.

Definition note_to_midi (note : string) : result Z :=
  match note with
  | String c rest =>
      match pitch_map c with
      | Some p =>
          let '(offset, rest') := accidentals rest 0 in
          match octave_of rest' with
          | Some octave => Ok (12 * (octave + 1) + p + offset)
          | None => Raise (LibraryError "ParameterError: improper note format")
          end
      | None => Raise (LibraryError "ParameterError: improper note format")
      end
  | EmptyString => Raise (LibraryError "ParameterError: improper note format")
  end.

(** *** [librosa.midi_to_note] and [librosa.hz_to_note]

    With the library's defaults ([key='C:maj'], [unicode=True]) the twelve
    pitch classes are spelled with the Unicode sharp sign, and the octave
    is [int(midi / 12) - 1]. *)

Definition note_map : list string :=
  ["C"; "C" +:+ sharp_sign; "D"; "D" +:+ sharp_sign; "E"; "F";
   "F" +:+ sharp_sign; "G"; "G" +:+ sharp_sign; "A"; "A" +:+ sharp_sign; "B"].

Definition midi_to_note (midi : Z) : string :=
  default "" (note_map !! Z.to_nat (midi `mod` 12))
    +:+ pretty (midi `quot` 12 - 1).

(** Bin [k] of the 88-bin, 12-bins-per-octave CQT starting at A0 has the
    frequency of MIDI pitch [21 + k]; [hz_to_note] rounds the frequency
    to that pitch and names it. *)
Definition A0_midi : Z := 21.

Definition bin_to_note (bin_idx : nat) : string :=
  midi_to_note (A0_midi + Z.of_nat bin_idx).

End Notes.

Export Notes.

(** ** Configuration *)

Module Config.

Definition DEFAULT_MAX_STEPS : Z := 256.
Definition DEFAULT_THRESHOLD_DB : Q := 40.
Definition DEFAULT_MIN_NOTE_DURATION : Q := 1 # 10.

Record AudioAnalysisConfig := {
  method : string;
  bpm_override : option Q;
  max_steps : Z;
  threshold_db : Q;
  min_note_duration : Q;
  use_harmonic_enhancement : bool;
  hop_length : Z
}.

Definition default_config : AudioAnalysisConfig :=
  {| method := "librosa";
     bpm_override := None;
     max_steps := DEFAULT_MAX_STEPS;
     threshold_db := DEFAULT_THRESHOLD_DB;
     min_note_duration := DEFAULT_MIN_NOTE_DURATION;
     use_harmonic_enhancement := true;
     hop_length := 512 |}.

(** The optional back-ends found at import time. *)
Record Availability := {
  BASIC_PITCH_AVAILABLE : bool;
  POP2PIANO_AVAILABLE : bool
}.

Definition supported_methods : list string :=
  ["librosa"; "basic_pitch"; "pop2piano"].

Definition validate (av : Availability) (cfg : AudioAnalysisConfig)
  : result unit :=
  if negb (bool_decide (method cfg ∈ supported_methods)) then
    Raise (ValueError ("Invalid method: " +:+ method cfg))
  else if String.eqb (method cfg) "basic_pitch"
          && negb (BASIC_PITCH_AVAILABLE av) then
    Raise (RuntimeError "Basic Pitch is not installed")
  else if String.eqb (method cfg) "pop2piano"
          && negb (POP2PIANO_AVAILABLE av) then
    Raise (RuntimeError "Pop2Piano is not installed")
  else if (max_steps cfg <? 16) || (1024 <? max_steps cfg) then
    Raise (ValueError "max_steps must be between 16 and 1024")
  else if Qltb (threshold_db cfg) 10 || Qltb 80 (threshold_db cfg) then
    Raise (ValueError "threshold_db must be between 10 and 80")
  else Ok tt.

End Config.

Export Config.

(** ** The outside world

    Everything the module obtains from the file system or from a third-party
    library is a field of [Externals].  The fields are the calls as the
    module makes them; a library call that raises is a [Raise]. *)

Module World.

(** One tuple of Basic Pitch's [note_events] (the pitch bend is unused). *)
Record note_event := {
  start_time : Q;
  end_time : Q;
  pitch_midi : Z;
  amplitude : Q
}.

(** One note of a decoded Pop2Piano MIDI track. *)
Record midi_note := {
  note_pitch : Z;
  note_start : Q;
  note_end : Q;
  note_velocity : Q
}.

(** A magnitude matrix with 88 rows, stored as the list of its columns
    (time frames); [shape[1]] is the length of the list. *)
Definition matrix := list (list Q).

Class Externals := {
  waveform : Type;
  (** [os.path.exists] *)
  path_exists : string → bool;
  (** [librosa.load(file_path, sr=None)] followed by [get_duration] *)
  librosa_load : string → result (waveform * Z);
  (** [librosa.get_duration(y=y, sr=sr)]: a number of samples over a sample
      rate, never negative *)
  get_duration : waveform → Z → Q;
  get_duration_nonneg : ∀ y sr, (0 <= get_duration y sr)%Q;
  (** [onset_strength], [beat_track], [tempo.item()] and [float(tempo)];
      the tempo librosa estimates is never negative (it may be 0) *)
  beat_track : waveform → Z → result Q;
  beat_track_nonneg : ∀ y sr t, beat_track y sr = Ok t → (0 <= t)%Q;
  (** [np.abs(librosa.cqt(y, sr, fmin=A0, n_bins=88, bins_per_octave=12,
      hop_length))], the optional [nn_filter] and [amplitude_to_db] *)
  cqt_db : waveform → Z → Z → bool → result matrix;
  (** whether [max_db - threshold_db] is an instance of Python's [float]
      (a [np.float64]) or another NumPy scalar type *)
  db_is_pyfloat : bool;
  (** [basic_pitch.inference.predict(file_path, ..., minimum_note_length)] *)
  predict : string → Q → result (list note_event);
  (** [librosa.resample(y, orig_sr=sr, target_sr=16000)] *)
  resample : waveform → Z → waveform;
  (** the two [from_pretrained("sweetcocoa/pop2piano")] calls *)
  pop2piano_pretrained : result unit;
  (** the processor, [generate] and [batch_decode], down to
      [midi_output.instruments[0].notes] of every output *)
  pop2piano : waveform → Z → result (list (list midi_note))
}.

Inductive event :=
| EvExists (path : string)
| EvLoad (path : string)
| EvTempoAnalysis
| EvSpectrum
| EvBasicPitch (path : string)
| EvPop2Piano.

(** Computations that raise and that leave a trace of external calls. *)
Definition io (A : Type) : Type := list event → result A * list event.

Definition io_ret {A} (a : A) : io A := λ tr, (Ok a, tr).
Definition io_bind {A B} (m : io A) (k : A → io B) : io B :=
  λ tr, match m tr with
        | (Ok a, tr') => k a tr'
        | (Raise e, tr') => (Raise e, tr')
        end.
Definition io_raise {A} (e : error) : io A := λ tr, (Raise e, tr).
Definition lift {A} (r : result A) : io A := λ tr, (r, tr).
Definition emit (e : event) : io unit := λ tr, (Ok tt, tr ++ [e]).

#[global] Instance io_mret : MRet io := @io_ret.
#[global] Instance io_mbind : MBind io := λ A B k m, io_bind m k.

(** [try: body except Exception: handler] *)
Definition try_except {A} (body : io A) (handler : error → io A) : io A :=
  λ tr, match body tr with
        | (Ok a, tr') => (Ok a, tr')
        | (Raise e, tr') => handler e tr'
        end.

End World.

Export World.

(** ** The converter: construction, loading, tempo *)

Section Converter.

Context `{Ext : Externals}.
Variable av : Availability.

Record AudioToBeatsConverter := { config : AudioAnalysisConfig }.

(** [AudioToBeatsConverter.__init__] *)
Definition new_converter (cfg : AudioAnalysisConfig)
  : result AudioToBeatsConverter :=
  _ ← validate av cfg; Ok {| config := cfg |}.

Definition load_audio (file_path : string) : io (waveform * Z) :=
  _ ← emit (EvExists file_path);
  if negb (path_exists file_path) then
    io_raise (FileNotFoundError file_path)
  else
    _ ← emit (EvLoad file_path);
    try_except (lift (librosa_load file_path)) io_raise.

(** Truth value of [self.config.bpm_override]: [None] and [0] are false. *)
Definition truthy (o : option Q) : bool :=
  match o with
  | Some q => negb (Qeqb q 0)
  | None => false
  end.

Definition DEFAULT_TEMPO : Q := 120.

Definition detect_tempo (self : AudioToBeatsConverter)
    (y : waveform) (sr : Z) : io Q :=
  if truthy (bpm_override (config self)) then
    (* [return self.config.bpm_override]: present on this branch *)
    mret (default 0%Q (bpm_override (config self)))
  else
    try_except
      (_ ← emit EvTempoAnalysis; lift (beat_track y sr))
      (λ _, mret DEFAULT_TEMPO).

End Converter.

(** ** Data model *)

Module Data.

(** [{"steps": set(), "magnitudes": []}] *)
Record NoteActivation := {
  act_steps : gset Z;
  magnitudes : list Q
}.

Definition empty_activation : NoteActivation :=
  {| act_steps := ∅; magnitudes := [] |}.

(** [if note not in active_notes_data: active_notes_data[note] = {...}] *)
Definition ensure_note (note : string) (d : gmap string NoteActivation)
  : gmap string NoteActivation :=
  match d !! note with
  | Some _ => d
  | None => <[note := empty_activation]> d
  end.

(** [active_notes_data[note]["steps"].add(step)] and
    [active_notes_data[note]["magnitudes"].append(mag)] *)
Definition add_activation (note : string) (step : Z) (mag : Q)
    (d : gmap string NoteActivation) : gmap string NoteActivation :=
  alter (λ a, {| act_steps := {[step]} ∪ act_steps a;
                 magnitudes := magnitudes a ++ [mag] |}) note d.

(** The [threshold_db] entry of an analysis result, with what
    [isinstance(threshold_db, (int, float))] answers for it. *)
Inductive threshold_value :=
| PyFloat (q : Q)      (* int, float, np.float64 *)
| NpScalar (q : Q).    (* any other NumPy scalar *)

Record AnalysisResult := {
  tempo : Q;
  target_steps : Z;
  active_notes_data : gmap string NoteActivation;
  step_duration : Q;
  result_threshold_db : option threshold_value   (* the key may be absent *)
}.

Record Settings := {
  pitch : Z;
  decay : Q;
  attack : Q;
  distortion : Z;
  sustain : Q;
  release : Q;
  cutoff : Z;
  resonance : Z
}.

Record Track := {
  id_ : string;
  name : string;
  type_ : string;
  steps : list bool;
  mute : bool;
  solo : bool;
  volume : Q;
  pan : Z;
  settings : Settings;
  hidden : bool
}.

Record Pattern := {
  bpm : Z;
  stepCount : Z;
  tracks : list Track
}.

Definition set_hidden (h : bool) (t : Track) : Track :=
  {| id_ := id_ t; name := name t; type_ := type_ t; steps := steps t;
     mute := mute t; solo := solo t; volume := volume t; pan := pan t;
     settings := settings t; hidden := h |}.

(** Number of true steps of a track, and of a whole pattern. *)
Definition true_steps (t : Track) : nat :=
  length (filter (λ b, Is_true b) (steps t)).

Definition total_true_steps (p : Pattern) : nat :=
  sum_list (true_steps <$> tracks p).

End Data.

Export Data.

(** ** Step grid *)

Module Grid.

(** [seconds_per_beat = 60.0 / tempo; step_duration = seconds_per_beat / 4.0] *)
Definition step_duration_of (tempo : Q) : result Q :=
  if Qeqb tempo 0 then Raise ZeroDivisionError
  else Ok (60 / tempo / 4)%Q.

(** [total_steps = int(math.ceil(total_duration / step_duration))] and
    [target_steps = min(max_steps, ((total_steps + 15) // 16) * 16)] *)
Definition total_steps_of (total_duration step_duration : Q) : Z :=
  Py.ceil (total_duration / step_duration).

Definition target_steps_of (max_steps : Z) (total_steps : Z) : Z :=
  Z.min max_steps ((total_steps + 15) / 16 * 16).

End Grid.

Export Grid.

(** ** [scipy.signal.find_peaks(x, height=h, distance=1)]

    SciPy first collects the local maxima of [x] (a sample, or the middle
    of a flat run, strictly above both neighbours; never the first or the
    last sample), then keeps those whose height is at least [h].  A minimal
    distance of one sample removes nothing. *)

Module Peaks.

(** [local_maxima_from i prev plateau xs]: [xs] are the samples from index
    [i] on, [prev] is sample [i - 1], and [plateau = Some l] when samples
    [l .. i - 1] are a flat run that started with a rise. *)
Fixpoint local_maxima_from (i : nat) (prev : Q) (plateau : option nat)
    (xs : list Q) : list nat :=
  match xs with
  | [] => []
  | x :: rest =>
      match plateau with
      | Some l =>
          if Qeqb x prev then local_maxima_from (S i) x (Some l) rest
          else if Qltb x prev then
            ((l + (i - 1)) / 2)%nat :: local_maxima_from (S i) x None rest
          else local_maxima_from (S i) x (Some i) rest
      | None =>
          if Qltb prev x then local_maxima_from (S i) x (Some i) rest
          else local_maxima_from (S i) x None rest
      end
  end.

Definition local_maxima (x : list Q) : list nat :=
  match x with
  | [] => []
  | x0 :: rest => local_maxima_from 1 x0 None rest
  end.

Definition height_ok (x : list Q) (h : Q) (p : nat) : bool :=
  match x !! p with
  | Some v => Qleb h v
  | None => false
  end.

Definition find_peaks (x : list Q) (h : Q) : list nat :=
  List.filter (height_ok x h) (local_maxima x).

End Peaks.

Export Peaks.

(** ** Spectral step quantizer *)

Module Quantizer.

(** [C_db[:, j]] *)
Definition column (C_db : matrix) (j : Z) : result (list Q) :=
  Py.getitem C_db j.

(** [np.max(C_db[:, a:b], axis=1)] *)
Definition max_pool (C_db : matrix) (a b : Z) : result (list Q) :=
  match Py.slice C_db a b with
  | [] => Raise (ValueError "zero-size array to reduction operation maximum")
  | f :: fs => Ok (foldl (zip_with Qmax) f fs)
  end.

(** The spectrum of one step, given its frame range. *)
Definition step_spectrum_of (C_db : matrix) (start_frame end_frame : Z)
  : result (list Q) :=
  if start_frame =? end_frame then column C_db start_frame
  else
    let end_frame := Z.min end_frame (Z.of_nat (length C_db)) in
    max_pool C_db start_frame end_frame.

(** The body of [for bin_idx in peaks]. *)
Definition record_peak (step : Z) (step_spectrum : list Q)
    (d : gmap string NoteActivation) (bin_idx : nat)
  : result (gmap string NoteActivation) :=
  let note := bin_to_note bin_idx in
  mag ← Py.getitem step_spectrum (Z.of_nat bin_idx);
  Ok (add_activation note step mag (ensure_note note d)).

(** [for step in range(target_steps)], with its [break]. *)
Fixpoint quantize (C_db : matrix) (threshold_db frames_per_step : Q)
    (steps : list Z) (d : gmap string NoteActivation)
  : result (gmap string NoteActivation) :=
  match steps with
  | [] => Ok d
  | step :: rest =>
      let start_frame := Py.int (inject_Z step * frames_per_step) in
      let end_frame := Py.int ((inject_Z step + 1) * frames_per_step) in
      if Z.of_nat (length C_db) <=? start_frame then Ok d
      else
        step_spectrum ← step_spectrum_of C_db start_frame end_frame;
        let peaks := find_peaks step_spectrum threshold_db in
        d' ← Py.for_each (record_peak step step_spectrum) peaks d;
        quantize C_db threshold_db frames_per_step rest d'
  end.

(** [frames_per_sec = sr / hop_length;
     frames_per_step = step_duration * frames_per_sec] *)
Definition frames_per_step_of (step_duration : Q) (sr hop_length : Z)
  : result Q :=
  if hop_length =? 0 then Raise ZeroDivisionError
  else Ok (step_duration * (inject_Z sr / inject_Z hop_length))%Q.

(** From the dB matrix to the activations: everything
    [analyze_with_librosa] does after [amplitude_to_db]. *)
Definition extract (cfg_threshold_db : Q) (C_db : matrix)
    (step_duration : Q) (sr hop_length target_steps : Z)
  : result (Q * gmap string NoteActivation) :=
  max_db ← Np.max_list (concat C_db);
  let threshold_db := (max_db - cfg_threshold_db)%Q in
  frames_per_step ← frames_per_step_of step_duration sr hop_length;
  d ← quantize C_db threshold_db frames_per_step
        (Py.range 0 target_steps) ∅;
  Ok (threshold_db, d).

End Quantizer.

Export Quantizer.

(** ** Pattern builder *)

Module Builder.

Definition default_settings (semitones : Z) : Settings :=
  {| pitch := semitones; decay := 1 # 2; attack := 1 # 100;
     distortion := 0; sustain := 3 # 10; release := 8 # 10;
     cutoff := 20000; resonance := 1 |}.

(** [for s in detected_data["steps"]: if s < target_steps: pattern[s] = True] *)
Definition fill_step (target_steps : Z) (pattern : list bool) (s : Z)
  : result (list bool) :=
  if s <? target_steps then Py.setitem pattern s true else Ok pattern.

Definition fill_pattern (target_steps : Z) (ss : gset Z) : result (list bool) :=
  Py.for_each (fill_step target_steps) (elements ss)
    (Py.repeat_list false target_steps).

(** Dynamic volume from the magnitudes, before and after the clamp. *)
Definition raw_volume (cfg_threshold_db : Q) (threshold_db : threshold_value)
    (mags : list Q) : npfloat :=
  let avg_mag := Np.mean mags in
  let db_based :=
    match threshold_db with
    | PyFloat t => Qltb t 0
    | NpScalar _ => false
    end in
  if db_based then
    let t := match threshold_db with PyFloat t | NpScalar t => t end in
    let norm_vol := Np.div_fin (Np.sub_fin avg_mag t) cfg_threshold_db in
    Np.round1 (Np.add_fin (-30) (Np.mul_fin norm_vol 30))
  else
    Np.round1 (Np.add_fin (-30) (Np.mul_fin avg_mag 30)).

Definition track_volume (cfg_threshold_db : Q)
    (threshold_db : threshold_value) (mags : list Q) : Q :=
  Np.clamp (-40) 0 (raw_volume cfg_threshold_db threshold_db mags).

Definition DEFAULT_VOLUME : Q := -5.

(** [semitones = int(midi_val - base_c4_midi)], 0 when the name does not
    parse. *)
Definition semitones_of (base_c4_midi : Z) (note : string) : Z :=
  match note_to_midi note with
  | Ok midi_val => midi_val - base_c4_midi
  | Raise _ => 0
  end.

(** One iteration of [for note in PIANO_NOTES]. *)
Definition build_track (cfg_threshold_db : Q) (target_steps : Z)
    (threshold_db : threshold_value) (base_c4_midi : Z)
    (active_notes_data : gmap string NoteActivation) (note : string)
  : result Track :=
  '(pattern, track_vol, is_visible) ←
    match active_notes_data !! note with
    | Some detected_data =>
        pattern ← fill_pattern target_steps (act_steps detected_data);
        Ok (pattern,
            track_volume cfg_threshold_db threshold_db
              (magnitudes detected_data),
            true)
    | None => Ok (Py.repeat_list false target_steps, DEFAULT_VOLUME, false)
    end;
  Ok {| id_ := "piano-" +:+ note; name := note; type_ := "piano";
        steps := pattern; mute := false; solo := false;
        volume := track_vol; pan := 0;
        settings := default_settings (semitones_of base_c4_midi note);
        hidden := negb is_visible |}.

(** [final_tracks.append(track)] for each note, in order. *)
Fixpoint build_tracks (cfg_threshold_db : Q) (target_steps : Z)
    (threshold_db : threshold_value) (base_c4_midi : Z)
    (active_notes_data : gmap string NoteActivation) (notes : list string)
  : result (list Track) :=
  match notes with
  | [] => Ok []
  | note :: rest =>
      t ← build_track cfg_threshold_db target_steps threshold_db
            base_c4_midi active_notes_data note;
      ts ← build_tracks cfg_threshold_db target_steps threshold_db
             base_c4_midi active_notes_data rest;
      Ok (t :: ts)
  end.

(** The fallback loop body: show the track when its pitch is C3 to C5. *)
Definition show_middle (t : Track) : Track :=
  match note_to_midi (name t) with
  | Ok m => if (48 <=? m) && (m <=? 72) then set_hidden false t else t
  | Raise _ => t
  end.

Definition fallback (final_tracks : list Track) : list Track :=
  if forallb hidden final_tracks then show_middle <$> final_tracks
  else final_tracks.

Definition build_track_data (cfg : AudioAnalysisConfig)
    (analysis_result : AnalysisResult) : result Pattern :=
  let threshold_db :=
    default (PyFloat (- Config.threshold_db cfg))
      (result_threshold_db analysis_result) in
  base_c4_midi ← note_to_midi "C4";
  final_tracks ← build_tracks (Config.threshold_db cfg)
                   (target_steps analysis_result) threshold_db base_c4_midi
                   (active_notes_data analysis_result) PIANO_NOTES;
  Ok {| bpm := Py.round (tempo analysis_result);
        stepCount := target_steps analysis_result;
        tracks := fallback final_tracks |}.

End Builder.

Export Builder.

(** ** Analysis methods and the conversion driver *)

Section Analysis.

Context `{Ext : Externals}.

Definition analyze_with_librosa (self : AudioToBeatsConverter)
    (y : waveform) (sr : Z) (tempo : Q) : io AnalysisResult :=
  let cfg := config self in
  step_duration ← lift (step_duration_of tempo);
  let total_duration := get_duration y sr in
  let total_steps := total_steps_of total_duration step_duration in
  let target_steps := target_steps_of (max_steps cfg) total_steps in
  _ ← emit EvSpectrum;
  C_db ← lift (cqt_db y sr (hop_length cfg) (use_harmonic_enhancement cfg));
  '(threshold_db, d) ←
    lift (extract (Config.threshold_db cfg) C_db step_duration sr
            (hop_length cfg) target_steps);
  mret {| tempo := tempo;
          target_steps := target_steps;
          active_notes_data := d;
          step_duration := step_duration;
          result_threshold_db :=
            Some (if db_is_pyfloat then PyFloat threshold_db
                  else NpScalar threshold_db) |}.

(** The note-event loop shared by the two adapters:
    [for step in range(start_step, min(end_step + 1, target_steps))]. *)
Definition add_note (step_duration : Q) (target_steps : Z)
    (note_name : string) (start_t end_t mag : Q)
    (d : gmap string NoteActivation) : gmap string NoteActivation :=
  let start_step := Py.int (start_t / step_duration) in
  let end_step := Py.int (end_t / step_duration) in
  foldl (λ d step, add_activation note_name step mag d)
    (ensure_note note_name d)
    (Py.range start_step (Z.min (end_step + 1) target_steps)).

Definition analyze_with_basic_pitch (self : AudioToBeatsConverter)
    (file_path : string) (tempo : Q) : io AnalysisResult :=
  let cfg := config self in
  _ ← emit (EvBasicPitch file_path);
  note_events ← lift (predict file_path (min_note_duration cfg * 1000));
  step_duration ← lift (step_duration_of tempo);
  '(y, sr) ← load_audio file_path;
  let total_duration := get_duration y sr in
  let total_steps := total_steps_of total_duration step_duration in
  let target_steps := target_steps_of (max_steps cfg) total_steps in
  let d :=
    foldl (λ d ev,
             add_note step_duration target_steps
               (midi_to_note (pitch_midi ev))
               (start_time ev) (end_time ev) (amplitude ev) d)
      ∅ note_events in
  mret {| tempo := tempo;
          target_steps := target_steps;
          active_notes_data := d;
          step_duration := step_duration;
          result_threshold_db := None |}.

Definition analyze_with_pop2piano (self : AudioToBeatsConverter)
    (file_path : string) (tempo : Q) : io AnalysisResult :=
  let cfg := config self in
  _ ← emit EvPop2Piano;
  _ ← lift pop2piano_pretrained;
  '(y, sr) ← load_audio file_path;
  let '(y, sr) :=
    if negb (sr =? 16000) then (resample y sr, 16000) else (y, sr) in
  tokenizer_output ← lift (pop2piano y sr);
  step_duration ← lift (step_duration_of tempo);
  let total_duration := get_duration y sr in
  let total_steps := total_steps_of total_duration step_duration in
  let target_steps := target_steps_of (max_steps cfg) total_steps in
  let d :=
    foldl (λ d midi_output,
             foldl (λ d note,
                      add_note step_duration target_steps
                        (midi_to_note (note_pitch note))
                        (note_start note) (note_end note)
                        (note_velocity note / 127)%Q d)
               d midi_output)
      ∅ tokenizer_output in
  mret {| tempo := tempo;
          target_steps := target_steps;
          active_notes_data := d;
          step_duration := step_duration;
          result_threshold_db := None |}.

Definition convert (self : AudioToBeatsConverter) (file_path : string)
  : io Pattern :=
  '(y, sr) ← load_audio file_path;
  tempo ← detect_tempo self y sr;
  analysis_result ←
    (if String.eqb (method (config self)) "basic_pitch" then
       analyze_with_basic_pitch self file_path tempo
     else if String.eqb (method (config self)) "pop2piano" then
       analyze_with_pop2piano self file_path tempo
     else analyze_with_librosa self y sr tempo);
  lift (build_track_data (config self) analysis_result).

(** [converter = AudioToBeatsConverter(config)] followed by
    [converter.convert(input_file)], as [main] runs them. *)
Definition run (av : Availability) (cfg : AudioAnalysisConfig)
    (file_path : string) : io Pattern :=
  converter ← lift (new_converter av cfg);
  convert converter file_path.

End Analysis.

(** ** The command line: [main] *)

Module Cli.

(** The namespace [parser.parse_args()] returns. *)
Record Args := {
  input_file : string;
  output : string;
  arg_method : string;        (* one of the three [choices] *)
  bpm_arg : option Q;
  arg_max_steps : Z;
  threshold : Q;
  arg_min_note_duration : Q;
  no_harmonic_enhancement : bool;
  verbose : bool
}.

(** How the process ends: [main] returns, or [sys.exit(code)]. *)
Inductive exit :=
| Returns
| SysExit (code : Z).

(** The end of [main] and the pattern it has written, if any. *)
Record Outcome := {
  status : exit;
  written : option (string * Pattern)
}.

Definition failure : Outcome := {| status := SysExit 1; written := None |}.

(** [AudioAnalysisConfig(method=args.method, bpm_override=args.bpm, ...)];
    [hop_length] keeps its default. *)
Definition config_of (args : Args) : AudioAnalysisConfig :=
  {| method := arg_method args;
     bpm_override := bpm_arg args;
     max_steps := arg_max_steps args;
     threshold_db := threshold args;
     min_note_duration := arg_min_note_duration args;
     use_harmonic_enhancement := negb (no_harmonic_enhancement args);
     hop_length := 512 |}.

Section Main.

Context `{Ext : Externals}.
Variable av : Availability.

(** [output_path.parent.mkdir(parents=True, exist_ok=True)],
    [open(output_path, 'w', encoding='utf-8')] and
    [json.dump(result, f, indent=2, cls=NumpyEncoder)] *)
Variable write_json : string → Pattern → result unit.

Definition main (args : Args) (tr : list event) : Outcome * list event :=
  let tr := tr ++ [EvExists (input_file args)] in
  if negb (path_exists (input_file args)) then (failure, tr)
  else
    (* the constructor of [AudioAnalysisConfig] stores its arguments and
       raises nothing *)
    let config := config_of args in
    match run av config (input_file args) tr with
    | (Ok result, tr') =>
        match write_json (output args) result with
        | Ok _ =>
            ({| status := Returns;
                written := Some (output args, result) |}, tr')
        | Raise _ => (failure, tr')
        end
    | (Raise _, tr') => (failure, tr')
    end.

End Main.

End Cli.

(** ** The session recorder of [test.py] *)

Module Recorder.

Definition bytes := list Byte.byte.

Record AudioRecorder := {
  filename : string;
  audio_data : bytes;
  chunk_count : Z
}.

(** [AudioRecorder.__init__] *)
Definition new (filename : string) : AudioRecorder :=
  {| filename := filename; audio_data := []; chunk_count := 0 |}.

(** [add_data]: the new state and the lines printed. *)
Definition add_data (self : AudioRecorder) (data : bytes)
  : AudioRecorder * list string :=
  let self :=
    {| filename := filename self;
       audio_data := audio_data self ++ data;
       chunk_count := chunk_count self + 1 |} in
  (self,
   if chunk_count self `mod` 50 =? 0 then
     ["Received " +:+ pretty (chunk_count self) +:+ " chunks..."]
   else []).

(** *** [receive_audio_loop] *)

(** One message of the session as the loop reads it: the data of its audio
    chunks, [None] when [server_content] or [audio_chunks] is missing or
    empty. *)
Definition message := option (list bytes).

(** A message together with the state of [stop_event] when it arrives. *)
Record arrival := {
  stop_is_set : bool;
  content : message
}.

(** How the stream of [session.receive()] ends. *)
Inductive stream_end :=
| Exhausted
| Cancelled                      (* [asyncio.CancelledError] *)
| Failed (e : string).           (* any other exception *)

(** [for chunk in message.server_content.audio_chunks:
       recorder.add_data(chunk.data)] *)
Definition add_chunks (self : AudioRecorder) (chunks : list bytes)
  : AudioRecorder * list string :=
  foldl (λ '(r, out) data, let '(r', o) := add_data r data in (r', out ++ o))
    (self, []) chunks.

(** The body of the [async for], up to the [break], and what the [except]
    clauses print. *)
Fixpoint receive (stream : list arrival) (fin : stream_end)
    (recorder : AudioRecorder) : AudioRecorder * list string :=
  match stream with
  | [] =>
      (recorder,
       match fin with
       | Failed e => ["Error in receive loop: " +:+ e]
       | _ => []
       end)
  | m :: rest =>
      if stop_is_set m then (recorder, [])
      else
        let '(recorder, out) :=
          match content m with
          | Some chunks => add_chunks recorder chunks
          | None => (recorder, [])
          end in
        let '(recorder, out') := receive rest fin recorder in
        (recorder, out ++ out')
  end.

Definition receive_audio_loop (stream : list arrival) (fin : stream_end)
    (recorder : AudioRecorder) : AudioRecorder * list string :=
  let '(recorder, out) := receive stream fin recorder in
  (recorder,
   ["Starting audio reception loop..."] ++ out
     ++ ["Audio reception loop ended."]).

End Recorder.

(** * Vocabulary of the properties *)

(** ** Configurations *)

(** What [validate] checks, as a proposition. *)
Definition valid_config (av : Availability) (cfg : AudioAnalysisConfig) : Prop :=
  method cfg ∈ supported_methods ∧
  (method cfg = "basic_pitch" → BASIC_PITCH_AVAILABLE av = true) ∧
  (method cfg = "pop2piano" → POP2PIANO_AVAILABLE av = true) ∧
  16 ≤ max_steps cfg ≤ 1024 ∧
  (10 <= threshold_db cfg <= 80)%Q.

Definition with_bpm_override (o : option Q) (cfg : AudioAnalysisConfig)
  : AudioAnalysisConfig :=
  {| method := method cfg; bpm_override := o; max_steps := max_steps cfg;
     threshold_db := threshold_db cfg;
     min_note_duration := min_note_duration cfg;
     use_harmonic_enhancement := use_harmonic_enhancement cfg;
     hop_length := hop_length cfg |}.

Definition with_threshold_db (t : Q) (cfg : AudioAnalysisConfig)
  : AudioAnalysisConfig :=
  {| method := method cfg; bpm_override := bpm_override cfg;
     max_steps := max_steps cfg; threshold_db := t;
     min_note_duration := min_note_duration cfg;
     use_harmonic_enhancement := use_harmonic_enhancement cfg;
     hop_length := hop_length cfg |}.

(** ** Effects *)

(** A computation only appends to the trace of external calls. *)
Definition extends {A} (m : io A) : Prop :=
  ∀ tr, ∃ tr', (m tr).2 = tr ++ tr'.

Section Estimation.

Context `{Ext : Externals}.

(** What the estimation branch of [detect_tempo] does. *)
Definition estimated (y : waveform) (sr : Z) (tr : list event)
  : result Q * list event :=
  match beat_track y sr with
  | Ok t => (Ok t, tr ++ [EvTempoAnalysis])
  | Raise _ => (Ok DEFAULT_TEMPO, tr ++ [EvTempoAnalysis])
  end.

End Estimation.

(** ** Patterns *)

Definition with_active_notes_data (d : gmap string NoteActivation)
    (ar : AnalysisResult) : AnalysisResult :=
  {| tempo := tempo ar; target_steps := target_steps ar;
     active_notes_data := d; step_duration := step_duration ar;
     result_threshold_db := result_threshold_db ar |}.

(** Whether a pitch name lies between C3 (MIDI 48) and C5 (MIDI 72). *)
Definition in_band (note : string) : bool :=
  match note_to_midi note with
  | Ok m => (48 <=? m) && (m <=? 72)
  | Raise _ => false
  end.

(** C5 down to C3: a contiguous run of 25 rows of the 88. *)
Definition band_notes : list string := take 25 (drop 36 PIANO_NOTES).

(** The track the loop builds for a pitch without activation. *)
Definition quiet_track (tgt : Z) (note : string) : Track :=
  {| id_ := "piano-" +:+ note; name := note; type_ := "piano";
     steps := Py.repeat_list false tgt; mute := false; solo := false;
     volume := DEFAULT_VOLUME; pan := 0;
     settings := default_settings (semitones_of 60 note);
     hidden := true |}.

(** The analysis result sits on the grid of the tempo it was given. *)
Definition on_grid (cfg : AudioAnalysisConfig) (t : Q) (ar : AnalysisResult)
  : Prop :=
  tempo ar = t ∧
  ∃ sd dur,
    step_duration_of t = Ok sd ∧ (0 <= dur)%Q ∧
    target_steps ar = target_steps_of (max_steps cfg) (total_steps_of dur sd).

(** ** Activations *)

(** A spectrogram whose frames all hold [k] bins at the same level [v], as
    silence gives. *)
Definition flat (k : nat) (v : Q) (C : matrix) : Prop :=
  Forall (λ f, f = replicate k v) C.

Definition start_frame_of (frames_per_step : Q) (step : Z) : Z :=
  Py.int (inject_Z step * frames_per_step).

(** A property of every recorded step and of every recorded magnitude. *)
Definition recorded (P : Z → Prop) (M : Q → Prop)
    (d : gmap string NoteActivation) : Prop :=
  ∀ note a, d !! note = Some a →
    (∀ s, s ∈ act_steps a → P s) ∧ Forall M (magnitudes a).

(** [d2] has every note of [d1], with at least the steps it has in [d1]. *)
Definition covers (d1 d2 : gmap string NoteActivation) : Prop :=
  ∀ note a1, d1 !! note = Some a1 →
    ∃ a2, d2 !! note = Some a2 ∧ act_steps a1 ⊆ act_steps a2.

(** Same steps, or more steps on a grid without negative indices. *)
Definition step_covers (d1 d2 : gmap string NoteActivation) : Prop :=
  ∀ note a1, d1 !! note = Some a1 →
    ∃ a2, d2 !! note = Some a2 ∧
          (act_steps a1 = act_steps a2 ∨
           (act_steps a1 ⊆ act_steps a2 ∧ ∀ s, s ∈ act_steps a2 → 0 ≤ s)).

Definition count_true (l : list bool) : nat :=
  length (filter (λ b, Is_true b) l).

(** ** The steps of a conversion *)

Section Dispatch.

Context `{Ext : Externals}.

(** The analysis [convert] chooses for the configured method. *)
Definition analysis_of (self : AudioToBeatsConverter) (file_path : string)
    (y : waveform) (sr : Z) (tempo : Q) : io AnalysisResult :=
  if String.eqb (method (config self)) "basic_pitch" then
    analyze_with_basic_pitch self file_path tempo
  else if String.eqb (method (config self)) "pop2piano" then
    analyze_with_pop2piano self file_path tempo
  else analyze_with_librosa self y sr tempo.

(** The external calls of the tempo detection: none under an override in
    force, the estimation otherwise. *)
Definition tempo_calls (self : AudioToBeatsConverter) : list event :=
  if truthy (bpm_override (config self)) then [] else [EvTempoAnalysis].

(** The external calls of the analysis, by method. *)
Definition analysis_calls (self : AudioToBeatsConverter) (file_path : string)
  : list event :=
  if String.eqb (method (config self)) "basic_pitch" then
    [EvBasicPitch file_path; EvExists file_path; EvLoad file_path]
  else if String.eqb (method (config self)) "pop2piano" then
    [EvPop2Piano; EvExists file_path; EvLoad file_path]
  else [EvSpectrum].

End Dispatch.

(** ** Note events *)

(** A note as the two adapters read it off their back-end: pitch name,
    onset and offset in seconds, magnitude. *)
Record timed_note := {
  tn_name : string;
  tn_start : Q;
  tn_end : Q;
  tn_mag : Q
}.

(** [for start_time, end_time, pitch_midi, amplitude, _ in note_events] *)
Definition of_event (ev : note_event) : timed_note :=
  {| tn_name := midi_to_note (pitch_midi ev); tn_start := start_time ev;
     tn_end := end_time ev; tn_mag := amplitude ev |}.

(** [note.pitch], [note.start], [note.end] and [note.velocity / 127.0] *)
Definition of_midi_note (n : midi_note) : timed_note :=
  {| tn_name := midi_to_note (note_pitch n); tn_start := note_start n;
     tn_end := note_end n; tn_mag := (note_velocity n / 127)%Q |}.

(** The steps a note occupies on a grid of [tgt] steps of [sd] seconds:
    [range(start_step, min(end_step + 1, target_steps))]. *)
Definition first_step (sd : Q) (n : timed_note) : Z :=
  Py.int (tn_start n / sd).

Definition stop_step (sd : Q) (tgt : Z) (n : timed_note) : Z :=
  Z.min (Py.int (tn_end n / sd) + 1) tgt.

Definition occupies (sd : Q) (tgt : Z) (n : timed_note) (s : Z) : Prop :=
  first_step sd n ≤ s < stop_step sd tgt n.

(** The loop over the notes, from the data [d]. *)
Definition add_notes (sd : Q) (tgt : Z) (notes : list timed_note)
    (d : gmap string NoteActivation) : gmap string NoteActivation :=
  foldl (λ d n, add_note sd tgt (tn_name n) (tn_start n) (tn_end n)
                  (tn_mag n) d) d notes.

(** The magnitudes the notes named [k] append, in order: one copy per
    occupied step. *)
Definition appended (sd : Q) (tgt : Z) (k : string) (notes : list timed_note)
  : list Q :=
  flat_map (λ n, if decide (tn_name n = k)
                 then replicate
                        (Z.to_nat (stop_step sd tgt n - first_step sd n))
                        (tn_mag n)
                 else []) notes.

(** ** Spelling of the pitch names *)

(** A name whose accidental is the ASCII sharp, as the canonical names
    of the black keys are spelled. *)
Definition ascii_sharp (note : string) : bool :=
  match note with
  | String _ (String "#" _) => true
  | _ => false
  end.

(** The first character is not ["#"]. *)
Definition no_sharp_head (s : string) : Prop :=
  match s with
  | String c _ => c ≠ "#"%char
  | EmptyString => False
  end.

(** Every key of the data names one of the bins [B] allows. *)
Definition from_bins (B : nat → Prop) (d : gmap string NoteActivation) : Prop :=
  ∀ k a, d !! k = Some a → ∃ bin, B bin ∧ k = bin_to_note bin.

(** Every key of the data is a name [midi_to_note] writes. *)
Definition librosa_spelled (d : gmap string NoteActivation) : Prop :=
  ∀ k a, d !! k = Some a → ∃ midi, k = midi_to_note midi.

(** The bins strictly inside an 88-bin spectrum. *)
Definition interior_bin (bin : nat) : Prop := (1 ≤ bin ≤ 86)%nat.

(** ** What the quantizer holds *)

(** The data holds step [s] for the pitch [note]. *)
Definition holds (d : gmap string NoteActivation) (note : string) (s : Z)
  : Prop :=
  ∃ a, d !! note = Some a ∧ s ∈ act_steps a.

(** The end of the frame range the loop computes for a step. *)
Definition end_frame_of (frames_per_step : Q) (step : Z) : Z :=
  Py.int ((inject_Z step + 1) * frames_per_step).

(** One of the bins named [note] is a peak of step [s], at or above the
    cutoff, in the spectrum pooled over the frames of the step. *)
Definition peak_at (C : matrix) (thr fps : Q) (note : string) (s : Z) : Prop :=
  ∃ spec bin,
    step_spectrum_of C (start_frame_of fps s) (end_frame_of fps s) = Ok spec ∧
    bin ∈ find_peaks spec thr ∧ bin_to_note bin = note.

(** The steps the loop processes: those before the first one whose frame
    range starts beyond the frames. *)
Fixpoint processed (C : matrix) (fps : Q) (steps : list Z) : list Z :=
  match steps with
  | [] => []
  | s :: rest =>
      if Z.of_nat (length C) <=? start_frame_of fps s then []
      else s :: processed C fps rest
  end.

(** ** What the builder writes *)

(** A step the fill loop cannot write: it passes the test [s < target_steps]
    and lies below [-len(pattern)]. *)
Definition unwritable (tgt s : Z) : Prop := s < tgt ∧ s < - Z.max 0 tgt.

#[local] Instance unwritable_decision tgt s : Decision (unwritable tgt s).
Proof. unfold unwritable. apply _. Defined.

(** Where the loop writes position [i]: step [i] itself, or the negative
    step that wraps to it. *)
Definition writes (tgt : Z) (i : nat) (s : Z) : Prop :=
  Z.of_nat i < tgt ∧ (s = Z.of_nat i ∨ s = Z.of_nat i - tgt).

(** The canonical pitches that have a record in the data. *)
Definition detected (d : gmap string NoteActivation) : list string :=
  List.filter (λ note, bool_decide (is_Some (d !! note))) PIANO_NOTES.

(** ** The recorder *)

(** The progress lines printed while [n] chunks arrive at a fresh
    recorder: one for every 50 chunks. *)
Definition progress_lines (n : nat) : list string :=
  (λ k : nat, "Received " +:+ pretty (50 * Z.of_nat k) +:+ " chunks...")
    <$> seq 1 (n / 50).

(** The chunks the loop reads before it sees [stop_event] set. *)
Fixpoint heard (stream : list Recorder.arrival) : list Recorder.bytes :=
  match stream with
  | [] => []
  | m :: rest =>
      if Recorder.stop_is_set m then []
      else default [] (Recorder.content m) ++ heard rest
  end.

(** * Properties *)

(** ** Reasoning support *)

Lemma Qltb_lt (a b : Q) : Qltb a b = true ↔ (a < b)%Q.
Proof.
  unfold Qltb. rewrite negb_true_iff. split.
  - intros H. apply Qnot_le_lt. intros Hle.
    apply Qle_bool_iff in Hle. congruence.
  - intros H. destruct (Qle_bool b a) eqn:E; [|done].
    apply Qle_bool_iff in E. lra.
Qed.

Lemma Qltb_ge (a b : Q) : Qltb a b = false ↔ (b <= a)%Q.
Proof.
  unfold Qltb. rewrite negb_false_iff. apply Qle_bool_iff.
Qed.

Lemma Qleb_le (a b : Q) : Qleb a b = true ↔ (a <= b)%Q.
Proof. apply Qle_bool_iff. Qed.

Lemma Qeqb_eq (a b : Q) : Qeqb a b = true ↔ (a == b)%Q.
Proof. apply Qeq_bool_iff. Qed.

Lemma Qeqb_neq (a b : Q) : Qeqb a b = false ↔ ¬ (a == b)%Q.
Proof.
  split.
  - intros H E. apply Qeqb_eq in E. congruence.
  - intros H. destruct (Qeqb a b) eqn:E; [|done]. apply Qeqb_eq in E. done.
Qed.

Lemma result_bind_ok {A B} (r : result A) (k : A → result B) (b : B) :
  r ≫= k = Ok b → ∃ a, r = Ok a ∧ k a = Ok b.
Proof. destruct r as [a|e]; [eauto | discriminate]. Qed.

Lemma io_bind_ok {A B} (m : io A) (k : A → io B) tr (b : B) tr' :
  (m ≫= k) tr = (Ok b, tr') →
  ∃ a tr1, m tr = (Ok a, tr1) ∧ k a tr1 = (Ok b, tr').
Proof.
  unfold mbind, io_mbind, io_bind.
  destruct (m tr) as [[a|e] tr1]; [eauto | discriminate].
Qed.

Lemma io_bind_run {A B} (m : io A) (k : A → io B) tr a tr1 :
  m tr = (Ok a, tr1) → (m ≫= k) tr = k a tr1.
Proof. intros H. unfold mbind, io_mbind, io_bind. by rewrite H. Qed.

Lemma lift_ok {A} (r : result A) tr (a : A) tr' :
  lift r tr = (Ok a, tr') → r = Ok a ∧ tr' = tr.
Proof. unfold lift. intros [= -> ->]. done. Qed.

Lemma emit_run (e : event) tr : emit e tr = (Ok tt, tr ++ [e]).
Proof. done. Qed.

(** Inverting a successful run, one bind at a time. *)
Ltac io_inv H :=
  repeat match type of H with
  | (_ ≫= _) _ = (Ok _, _) =>
      let a := fresh "a" in
      let tr1 := fresh "tr" in
      let H1 := fresh "Hrun" in
      apply io_bind_ok in H as (a & tr1 & H1 & H)
  end.

(** ** Configuration validation *)

(** The range checks of [validate], once the method is settled: each
    failing test contradicts [valid_config], and when all pass the remaining
    goal is the left-to-right direction without its range part. *)
Ltac range_checks cfg :=
  let H1 := fresh "Hlo" in
  let H2 := fresh "Hhi" in
  let H3 := fresh "Hthr_lo" in
  let H4 := fresh "Hthr_hi" in
  destruct (max_steps cfg <? 16) eqn:H1; simpl; [split; [done | lia]|];
  destruct (1024 <? max_steps cfg) eqn:H2; simpl; [split; [done | lia]|];
  destruct (Qltb (threshold_db cfg) 10) eqn:H3; simpl;
    [apply Qltb_lt in H3; split; [done | intros (_ & _ & _ & _ & ?); lra]|];
  destruct (Qltb 80 (threshold_db cfg)) eqn:H4; simpl;
    [apply Qltb_lt in H4; split; [done | intros (_ & _ & _ & _ & ?); lra]|];
  apply Qltb_ge in H3, H4; split; [intros _ | done];
  repeat split; try done; try lia.

Lemma validate_ok_iff av cfg : validate av cfg = Ok tt ↔ valid_config av cfg.
Proof.
  unfold validate, valid_config.
  destruct (bool_decide (method cfg ∈ supported_methods)) eqn:Hm; simpl.
  2: { apply bool_decide_eq_false in Hm. split; [done | tauto]. }
  apply bool_decide_eq_true in Hm.
  destruct (String.eqb (method cfg) "basic_pitch") eqn:Hb;
    [apply String.eqb_eq in Hb | apply String.eqb_neq in Hb]; simpl.
  - destruct (BASIC_PITCH_AVAILABLE av) eqn:Hav; simpl.
    2: { split; [done | intros (_ & H & _); by specialize (H Hb)]. }
    rewrite Hb. simpl. range_checks cfg. by rewrite <- Hb.
  - destruct (String.eqb (method cfg) "pop2piano") eqn:Hp;
      [apply String.eqb_eq in Hp | apply String.eqb_neq in Hp]; simpl.
    + destruct (POP2PIANO_AVAILABLE av) eqn:Hav; simpl.
      2: { split; [done | intros (_ & _ & H & _); by specialize (H Hp)]. }
      range_checks cfg.
    + range_checks cfg.
Qed.

(** ** Traces only grow *)

Lemma extends_ret {A} (a : A) : extends (mret a : io A).
Proof. intros tr. exists []. by rewrite app_nil_r. Qed.

Lemma extends_raise {A} e : extends (io_raise e : io A).
Proof. intros tr. exists []. by rewrite app_nil_r. Qed.

Lemma extends_lift {A} (r : result A) : extends (lift r).
Proof. intros tr. exists []. by rewrite app_nil_r. Qed.

Lemma extends_emit e : extends (emit e).
Proof. intros tr. by exists [e]. Qed.

Lemma extends_bind {A B} (m : io A) (k : A → io B) :
  extends m → (∀ a, extends (k a)) → extends (m ≫= k).
Proof.
  intros Hm Hk tr. unfold mbind, io_mbind, io_bind.
  destruct (Hm tr) as [tr1 H1].
  destruct (m tr) as [[a|e] tr2]; simpl in H1; subst tr2.
  - destruct (Hk a (tr ++ tr1)) as [tr2 H2].
    exists (tr1 ++ tr2). by rewrite H2, app_assoc.
  - by exists tr1.
Qed.

Lemma extends_try {A} (body : io A) handler :
  extends body → (∀ e, extends (handler e)) → extends (try_except body handler).
Proof.
  intros Hm Hk tr. unfold try_except.
  destruct (Hm tr) as [tr1 H1].
  destruct (body tr) as [[a|e] tr2]; simpl in H1; subst tr2.
  - by exists tr1.
  - destruct (Hk e (tr ++ tr1)) as [tr2 H2].
    exists (tr1 ++ tr2). by rewrite H2, app_assoc.
Qed.

Ltac trace_grows :=
  repeat first
    [ apply extends_bind; [|intros ?]
    | apply extends_try; [|intros ?]
    | apply extends_ret | apply extends_raise
    | apply extends_lift | apply extends_emit
    | match goal with
      | |- extends (if ?b then _ else _) => destruct b
      | |- extends (match ?x with (_, _) => _ end) => destruct x
      | |- extends (let '(_, _) := ?x in _) => destruct x
      end ].

Section TraceLemmas.

Context `{Ext : Externals}.

Lemma extends_load_audio file_path : extends (load_audio file_path).
Proof. unfold load_audio. trace_grows. Qed.

Lemma extends_detect_tempo self y sr : extends (detect_tempo self y sr).
Proof. unfold detect_tempo. trace_grows. Qed.

Lemma extends_analyze_with_librosa self y sr tempo :
  extends (analyze_with_librosa self y sr tempo).
Proof. unfold analyze_with_librosa. trace_grows. Qed.

Lemma extends_analyze_with_basic_pitch self file_path tempo :
  extends (analyze_with_basic_pitch self file_path tempo).
Proof. unfold analyze_with_basic_pitch. trace_grows. Qed.

Lemma extends_analyze_with_pop2piano self file_path tempo :
  extends (analyze_with_pop2piano self file_path tempo).
Proof. unfold analyze_with_pop2piano. trace_grows. Qed.

Lemma extends_after_load self file_path (a : waveform * Z) :
  extends
    (let '(y, sr) := a in
     tempo ← detect_tempo self y sr;
     analysis_result ←
       (if String.eqb (method (config self)) "basic_pitch" then
          analyze_with_basic_pitch self file_path tempo
        else if String.eqb (method (config self)) "pop2piano" then
          analyze_with_pop2piano self file_path tempo
        else analyze_with_librosa self y sr tempo);
     lift (build_track_data (config self) analysis_result)).
Proof.
  destruct a as [y sr].
  apply extends_bind; [apply extends_detect_tempo | intros tempo].
  apply extends_bind; [| intros ?; apply extends_lift].
  destruct (String.eqb _ _); [apply extends_analyze_with_basic_pitch|].
  destruct (String.eqb _ _); [apply extends_analyze_with_pop2piano|].
  apply extends_analyze_with_librosa.
Qed.

Lemma extends_convert self file_path : extends (convert self file_path).
Proof.
  unfold convert. apply extends_bind; [apply extends_load_audio|].
  apply extends_after_load.
Qed.

End TraceLemmas.

Section ValidationFirst.

Context `{Ext : Externals}.

Lemma load_audio_run file_path tr :
  load_audio file_path tr =
    if path_exists file_path then
      (librosa_load file_path, tr ++ [EvExists file_path; EvLoad file_path])
    else (Raise (FileNotFoundError file_path), tr ++ [EvExists file_path]).
Proof.
  unfold load_audio, mbind, io_mbind, io_bind, emit, try_except, lift,
    io_raise.
  destruct (path_exists file_path); simpl; [|done].
  rewrite <- app_assoc. by destruct (librosa_load file_path).
Qed.

(** C7. [validate] accepts a configuration exactly when the method is one
    of the three supported ones, its back-end is available, [max_steps]
    lies in [16, 1024] and [threshold_db] in [10, 80]; a rejected
    configuration makes the constructor raise, and [run] then ends with
    that error and with an untouched trace (no file was probed, opened or
    decoded); an accepted one yields a converter, and [run] goes on to
    [load_audio], whose first action is the existence test of the input
    file, followed by the decoding when the file exists. *)
Theorem validation_precedes_loading av cfg file_path tr :
  (validate av cfg = Ok tt ↔ valid_config av cfg) ∧
  (∀ e, validate av cfg = Raise e →
        new_converter av cfg = Raise e ∧
        run av cfg file_path tr = (Raise e, tr)) ∧
  (valid_config av cfg →
     new_converter av cfg = Ok {| config := cfg |} ∧
     ∃ r tr',
       run av cfg file_path tr = (r, tr ++ EvExists file_path :: tr') ∧
       (path_exists file_path = true →
          ∃ tr'', tr' = EvLoad file_path :: tr'') ∧
       (path_exists file_path = false →
          r = Raise (FileNotFoundError file_path) ∧ tr' = [])).
Proof.
  split; [apply validate_ok_iff|]. split.
  - intros e He. unfold run, new_converter. rewrite He. done.
  - intros Hv. apply validate_ok_iff in Hv.
    unfold run, new_converter. rewrite Hv. simpl. split; [done|].
    unfold mbind at 1, io_mbind, io_bind, lift. unfold convert.
    unfold mbind at 1, io_mbind, io_bind. rewrite load_audio_run.
    destruct (path_exists file_path) eqn:Hex.
    + destruct (librosa_load file_path) as [a|e].
      * pose proof (extends_after_load {| config := cfg |} file_path a
                      (tr ++ [EvExists file_path; EvLoad file_path]))
          as [tr2 H2].
        eexists _, (EvLoad file_path :: tr2).
        split; [|split; [eauto | done]].
        apply injective_projections; [reflexivity|].
        simpl. etrans; [exact H2|]. by rewrite <- app_assoc.
      * eexists _, [EvLoad file_path]. split; [done|].
        split; [eauto | done].
    + eexists _, []. split; [done|]. split; [done | eauto].
Qed.

End ValidationFirst.

(** ** Tempo detection *)

Section Tempo.

Context `{Ext : Externals}.

Lemma detect_tempo_override self y sr tr q :
  bpm_override (config self) = Some q → ¬ (q == 0)%Q →
  detect_tempo self y sr tr = (Ok q, tr).
Proof.
  intros Hq Hnz. unfold detect_tempo, truthy. rewrite Hq.
  apply Qeqb_neq in Hnz. rewrite Hnz. done.
Qed.

Lemma detect_tempo_estimate self y sr tr :
  truthy (bpm_override (config self)) = false →
  detect_tempo self y sr tr = estimated y sr tr.
Proof.
  intros Hf. unfold detect_tempo. rewrite Hf.
  unfold estimated, try_except, mbind, io_mbind, io_bind, emit, lift.
  by destruct (beat_track y sr).
Qed.

Lemma detect_tempo_total self y sr tr :
  ∃ t tr', detect_tempo self y sr tr = (Ok t, tr').
Proof.
  destruct (truthy (bpm_override (config self))) eqn:Ht.
  - unfold detect_tempo. rewrite Ht. by eexists _, _.
  - rewrite detect_tempo_estimate by done. unfold estimated.
    destruct (beat_track y sr); by eexists _, _.
Qed.

(** The tempo handed to the analysis is positive whenever the override
    is absent or positive and the analysis can start at all. *)
Lemma detect_tempo_nonneg self y sr tr t tr' :
  (∀ q, bpm_override (config self) = Some q → (0 <= q)%Q) →
  detect_tempo self y sr tr = (Ok t, tr') → (0 <= t)%Q.
Proof.
  intros Hpos. destruct (truthy (bpm_override (config self))) eqn:Ht.
  - unfold detect_tempo. rewrite Ht.
    destruct (bpm_override (config self)) as [q|] eqn:Hq; [|done].
    intros [= <- <-]. simpl. by apply Hpos.
  - rewrite detect_tempo_estimate by done. unfold estimated.
    destruct (beat_track y sr) as [t0|e] eqn:Hb; intros [= <- <-].
    + by eapply beat_track_nonneg.
    + done.
Qed.

(** C10. An override equal to 0 is falsy: [detect_tempo] then does what
    it does without an override, that is it runs the estimation and
    returns its result, or 120 when the estimation raises; an override
    different from 0 is returned as it is, with no estimation. *)
Theorem zero_override_is_ignored self y sr tr q :
  bpm_override (config self) = Some q →
  ((q == 0)%Q →
     detect_tempo self y sr tr
       = detect_tempo {| config := with_bpm_override None (config self) |}
           y sr tr
     ∧ detect_tempo self y sr tr = estimated y sr tr) ∧
  (¬ (q == 0)%Q → detect_tempo self y sr tr = (Ok q, tr)).
Proof.
  intros Hq. split.
  - intros Hz.
    rewrite !detect_tempo_estimate; [done | done |].
    unfold truthy. rewrite Hq. apply Qeqb_eq in Hz. by rewrite Hz.
  - intros Hnz. by apply detect_tempo_override.
Qed.

(** The [except] branch of tempo detection.  [detect_tempo] never raises;
    without an override, an estimation that raises (whatever the exception)
    makes it return exactly 120, and [convert] carries on with the analysis
    at 120 BPM. *)
Theorem tempo_failure_defaults_to_120 self :
  (∀ y sr tr, ∃ t tr', detect_tempo self y sr tr = (Ok t, tr')) ∧
  (bpm_override (config self) = None →
   ∀ y sr e, beat_track y sr = Raise e →
     (∀ tr, detect_tempo self y sr tr = (Ok 120%Q, tr ++ [EvTempoAnalysis])) ∧
     (∀ file_path tr tr1,
        load_audio file_path tr = (Ok (y, sr), tr1) →
        convert self file_path tr =
          (analysis_result ←
             (if String.eqb (method (config self)) "basic_pitch" then
                analyze_with_basic_pitch self file_path 120%Q
              else if String.eqb (method (config self)) "pop2piano" then
                analyze_with_pop2piano self file_path 120%Q
              else analyze_with_librosa self y sr 120%Q);
           lift (build_track_data (config self) analysis_result))
            (tr1 ++ [EvTempoAnalysis]))).
Proof.
  split; [intros; apply detect_tempo_total|].
  intros Hnone y sr e Hfail.
  assert (∀ tr, detect_tempo self y sr tr
                = (Ok 120%Q, tr ++ [EvTempoAnalysis])) as Hdt.
  { intros tr. rewrite detect_tempo_estimate by (by rewrite Hnone).
    unfold estimated. by rewrite Hfail. }
  split; [done|]. intros file_path tr tr1 Hload.
  unfold convert. rewrite (io_bind_run _ _ _ _ _ Hload).
  by rewrite (io_bind_run _ _ _ _ _ (Hdt tr1)).
Qed.

End Tempo.

(** ** Pattern builder: shape of the result *)

Lemma clamp_bounds (lo hi : Q) (x : npfloat) :
  (lo <= hi)%Q → (lo <= Np.clamp lo hi x <= hi)%Q.
Proof.
  intros Hle. unfold Np.clamp.
  destruct x as [q| | |]; simpl.
  - destruct (Qltb q hi) eqn:E1; simpl.
    + apply Qltb_lt in E1.
      destruct (Qltb lo q) eqn:E2;
        [apply Qltb_lt in E2 | apply Qltb_ge in E2]; lra.
    + destruct (Qltb lo hi) eqn:E2;
        [apply Qltb_lt in E2 | apply Qltb_ge in E2]; lra.
  - destruct (Qltb lo hi) eqn:E2;
      [apply Qltb_lt in E2 | apply Qltb_ge in E2]; lra.
  - lra.
  - destruct (Qltb lo hi) eqn:E2;
      [apply Qltb_lt in E2 | apply Qltb_ge in E2]; lra.
Qed.

Lemma track_volume_bounds c thr mags :
  (-40 <= track_volume c thr mags <= 0)%Q.
Proof. unfold track_volume. apply clamp_bounds. lra. Qed.

Lemma setitem_length {A} (l : list A) i x l' :
  Py.setitem l i x = Ok l' → length l' = length l.
Proof.
  unfold Py.setitem. case_match; [|done]. intros [= <-].
  apply length_insert.
Qed.

Lemma fill_steps_length tgt ss pat pat' :
  Py.for_each (fill_step tgt) ss pat = Ok pat' → length pat' = length pat.
Proof.
  revert pat. induction ss as [|s ss IH]; intros pat; simpl.
  - by intros [= <-].
  - unfold fill_step at 1. destruct (s <? tgt).
    + destruct (Py.setitem pat s true) as [pat1|] eqn:E; [|done]. simpl.
      intros H. apply IH in H. apply setitem_length in E. congruence.
    + simpl. apply IH.
Qed.

Lemma fill_pattern_length tgt ss pat :
  fill_pattern tgt ss = Ok pat → length pat = Z.to_nat tgt.
Proof.
  unfold fill_pattern. intros H. apply fill_steps_length in H.
  rewrite H. apply length_replicate.
Qed.

(** What one iteration of the loop over [PIANO_NOTES] yields. *)
Lemma build_track_inv c tgt thr base d note t :
  build_track c tgt thr base d note = Ok t →
  id_ t = "piano-" +:+ note ∧ name t = note ∧ type_ t = "piano" ∧
  mute t = false ∧ solo t = false ∧ pan t = 0 ∧
  settings t = default_settings (semitones_of base note) ∧
  length (steps t) = Z.to_nat tgt ∧
  match d !! note with
  | Some a =>
      fill_pattern tgt (act_steps a) = Ok (steps t) ∧
      volume t = track_volume c thr (magnitudes a) ∧ hidden t = false
  | None =>
      steps t = Py.repeat_list false tgt ∧ volume t = DEFAULT_VOLUME ∧
      hidden t = true
  end.
Proof.
  unfold build_track. destruct (d !! note) as [a|].
  - destruct (fill_pattern tgt (act_steps a)) as [pat|] eqn:E; [|done].
    simpl. intros [= <-]. simpl. repeat split; try done.
    by apply fill_pattern_length in E.
  - simpl. intros [= <-]. simpl. repeat split; try done.
    apply length_replicate.
Qed.

Lemma build_tracks_Forall2 c tgt thr base d notes ts :
  build_tracks c tgt thr base d notes = Ok ts ↔
  Forall2 (λ note t, build_track c tgt thr base d note = Ok t) notes ts.
Proof.
  revert ts. induction notes as [|note notes IH]; intros ts; simpl.
  - split; [intros [= <-]; constructor | by intros ->%Forall2_nil_inv_l].
  - split.
    + destruct (build_track c tgt thr base d note) as [t|] eqn:Et; [|done].
      simpl.
      destruct (build_tracks c tgt thr base d notes) as [ts'|] eqn:E; [|done].
      simpl. intros [= <-]. constructor; [done|]. by apply IH.
    + intros (t & ts' & Ht & Hts & ->)%Forall2_cons_inv_l.
      rewrite Ht. simpl. apply IH in Hts. rewrite Hts. done.
Qed.

Lemma show_middle_fields t :
  id_ (show_middle t) = id_ t ∧ name (show_middle t) = name t ∧
  type_ (show_middle t) = type_ t ∧ steps (show_middle t) = steps t ∧
  mute (show_middle t) = mute t ∧ solo (show_middle t) = solo t ∧
  volume (show_middle t) = volume t ∧ pan (show_middle t) = pan t ∧
  settings (show_middle t) = settings t.
Proof.
  unfold show_middle. destruct (note_to_midi (name t)) as [m|]; [|done].
  by destruct ((48 <=? m) && (m <=? 72)).
Qed.

(** The fallback never touches anything but [hidden]. *)
Lemma fallback_fields ts :
  Forall2 (λ t t',
             id_ t' = id_ t ∧ name t' = name t ∧ type_ t' = type_ t ∧
             steps t' = steps t ∧ mute t' = mute t ∧ solo t' = solo t ∧
             volume t' = volume t ∧ pan t' = pan t ∧
             settings t' = settings t)
    ts (fallback ts).
Proof.
  unfold fallback. destruct (forallb hidden ts).
  - apply Forall2_fmap_r, Forall_Forall2_diag, Forall_forall.
    intros t _. apply show_middle_fields.
  - apply Forall_Forall2_diag, Forall_forall. done.
Qed.

Lemma note_to_midi_C4 : note_to_midi "C4" = Ok 60.
Proof. reflexivity. Qed.

Lemma build_track_data_inv cfg ar p :
  build_track_data cfg ar = Ok p →
  bpm p = Py.round (tempo ar) ∧ stepCount p = target_steps ar ∧
  ∃ ts,
    Forall2 (λ note t,
               build_track (threshold_db cfg) (target_steps ar)
                 (default (PyFloat (- threshold_db cfg))
                    (result_threshold_db ar))
                 60 (active_notes_data ar) note = Ok t)
      PIANO_NOTES ts ∧
    tracks p = fallback ts.
Proof.
  unfold build_track_data. rewrite note_to_midi_C4.
  cbn [mbind result_bind Py.bind].
  match goal with
  | |- context [build_tracks ?c ?g ?th ?b ?d ?n] =>
      destruct (build_tracks c g th b d n) as [ts|] eqn:E; [|done]
  end.
  intros [= <-]. cbn [bpm stepCount tracks]. repeat split; try done.
  exists ts. split; [|done]. by apply build_tracks_Forall2.
Qed.

(** C3. Every track of every pattern the builder returns has its volume in
    [-40, 0]: tracks without activation keep -5, and the others go through
    the clamp, on the dB-relative path as on the amplitude-relative one and
    for magnitudes of any size (an empty magnitude list, whose mean is
    [nan], included). *)
Theorem volume_always_clamped cfg ar p :
  build_track_data cfg ar = Ok p →
  Forall (λ t, (-40 <= volume t <= 0)%Q) (tracks p).
Proof.
  intros (_ & _ & ts & Hts & ->)%build_track_data_inv.
  assert (Forall (λ t, (-40 <= volume t <= 0)%Q) ts) as Hvol.
  { apply Forall_forall. intros t Ht.
    apply list_elem_of_lookup in Ht as [i Hi].
    destruct (Forall2_lookup_r _ _ _ _ _ Hts Hi) as (note & _ & Hb).
    apply build_track_inv in Hb as (_ & _ & _ & _ & _ & _ & _ & _ & Hd).
    destruct (active_notes_data ar !! note) as [a|].
    - destruct Hd as (_ & -> & _). apply track_volume_bounds.
    - destruct Hd as (_ & -> & _). unfold DEFAULT_VOLUME. lra. }
  pose proof (fallback_fields ts) as Hfb.
  apply Forall_forall. intros t' Ht'.
  apply list_elem_of_lookup in Ht' as [i Hi].
  destruct (Forall2_lookup_r _ _ _ _ _ Hfb Hi) as (t & Hti & Hf).
  destruct Hf as (_ & _ & _ & _ & _ & _ & -> & _).
  eapply Forall_lookup_1 in Hvol; [exact Hvol | exact Hti].
Qed.

(** ** The visibility fallback *)

Lemma band_notes_spelled :
  band_notes =
    ["C5"; "B4"; "A#4"; "A4"; "G#4"; "G4"; "F#4"; "F4"; "E4"; "D#4"; "D4";
     "C#4"; "C4"; "B3"; "A#3"; "A3"; "G#3"; "G3"; "F#3"; "F3"; "E3"; "D#3";
     "D3"; "C#3"; "C3"].
Proof. reflexivity. Qed.

Lemma in_band_piano :
  List.filter in_band PIANO_NOTES = band_notes ∧
  note_to_midi "C5" = Ok (60 + 12) ∧ note_to_midi "C3" = Ok (60 - 12).
Proof. by vm_compute. Qed.

Lemma show_middle_hidden t :
  hidden (show_middle t) = hidden t && negb (in_band (name t)).
Proof.
  unfold show_middle, in_band.
  destruct (note_to_midi (name t)) as [m|]; [|by rewrite andb_true_r].
  destruct ((48 <=? m) && (m <=? 72)); simpl;
    [by rewrite andb_false_r | by rewrite andb_true_r].
Qed.

Lemma build_track_quiet c tgt thr d note :
  d !! note = None → build_track c tgt thr 60 d note = Ok (quiet_track tgt note).
Proof. intros H. unfold build_track. by rewrite H. Qed.

Lemma build_track_hidden c tgt thr base d note t :
  build_track c tgt thr base d note = Ok t →
  hidden t = bool_decide (d !! note = None).
Proof.
  intros (_ & _ & _ & _ & _ & _ & _ & _ & H)%build_track_inv.
  destruct (d !! note); [by destruct H as (_ & _ & ->)|].
  by destruct H as (_ & _ & ->).
Qed.

Lemma built_all_hidden c tgt thr base d notes ts :
  Forall2 (λ note t, build_track c tgt thr base d note = Ok t) notes ts →
  forallb hidden ts = true ↔ ∀ note, note ∈ notes → d !! note = None.
Proof.
  induction 1 as [|note t notes ts Ht _ IH]; simpl.
  - split; [intros _ ? ?%elem_of_nil; done | done].
  - rewrite andb_true_iff, IH, (build_track_hidden _ _ _ _ _ _ _ Ht).
    rewrite bool_decide_eq_true. split.
    + intros [H1 H2] n [->|Hn]%elem_of_cons; auto.
    + intros H. split; [apply H; left | intros n Hn; apply H; by right].
Qed.

Lemma true_steps_quiet tgt note : true_steps (quiet_track tgt note) = 0%nat.
Proof.
  unfold true_steps, quiet_track, Py.repeat_list. simpl.
  induction (Z.to_nat tgt) as [|n IH]; [done|]. simpl.
  rewrite filter_cons_False; [done | by intros []].
Qed.

(** A pattern built from data without any canonical pitch name. *)
Lemma build_silent cfg ar :
  (∀ note, note ∈ PIANO_NOTES → active_notes_data ar !! note = None) →
  build_track_data cfg ar =
    Ok {| bpm := Py.round (tempo ar); stepCount := target_steps ar;
          tracks :=
            (λ note, set_hidden (negb (in_band note))
                       (quiet_track (target_steps ar) note))
              <$> PIANO_NOTES |}.
Proof.
  intros Hnone. unfold build_track_data. rewrite note_to_midi_C4.
  cbn [mbind result_bind Py.bind].
  set (thr := default _ _). set (d := active_notes_data ar) in *.
  set (tgt := target_steps ar).
  assert (∀ notes, (∀ n, n ∈ notes → d !! n = None) →
            build_tracks (threshold_db cfg) tgt thr 60 d notes
            = Ok (quiet_track tgt <$> notes)) as Hbuild.
  { induction notes as [|n notes IH]; intros Hn; simpl; [done|].
    rewrite build_track_quiet by (apply Hn; left). simpl.
    rewrite IH by (intros; apply Hn; by right). done. }
  rewrite Hbuild by done.
  (* the 88 names are concrete: both sides evaluate to the same tracks *)
  reflexivity.
Qed.

(** ** Matching activation records against the canonical names *)

Lemma build_tracks_other_key c tgt thr base d k r notes :
  k ∉ notes →
  build_tracks c tgt thr base (<[k := r]> d) notes
  = build_tracks c tgt thr base d notes.
Proof.
  induction notes as [|n notes IH]; intros Hk; simpl; [done|].
  apply not_elem_of_cons in Hk as [Hne Hk].
  rewrite IH by done. unfold build_track.
  by rewrite lookup_insert_ne.
Qed.

(** C9 (as amended). The builder looks activations up by exact equality with
    the 88 canonical names.  A record stored under any other key (as
    ["C♯4"], spelled with the Unicode sharp) contributes nothing: the
    result is the one obtained without the record.  A canonical pitch with
    no record under its exact name gets an all-false step sequence and the
    default volume -5; it is hidden, except that when no canonical name has
    a record at all the fallback shows it if it lies between C3 and C5. *)
Theorem unmatched_names_contribute_nothing cfg ar :
  (∀ k r, k ∉ PIANO_NOTES →
     build_track_data cfg
       (with_active_notes_data (<[k := r]> (active_notes_data ar)) ar)
     = build_track_data cfg ar) ∧
  (∀ p, build_track_data cfg ar = Ok p →
     Forall2 (λ note t,
                name t = note ∧
                (active_notes_data ar !! note = None →
                   steps t = Py.repeat_list false (target_steps ar) ∧
                   true_steps t = 0%nat ∧
                   volume t = (-5)%Q ∧
                   (hidden t = false ↔
                      in_band note = true ∧
                      ∀ n, n ∈ PIANO_NOTES →
                           active_notes_data ar !! n = None)))
       PIANO_NOTES (tracks p)).
Proof.
  split.
  - intros k r Hk. unfold build_track_data, with_active_notes_data.
    cbn [tempo target_steps active_notes_data result_threshold_db].
    rewrite note_to_midi_C4. cbn [mbind result_bind Py.bind].
    by rewrite build_tracks_other_key.
  - intros p (_ & _ & ts & Hts & ->)%build_track_data_inv.
    pose proof (built_all_hidden _ _ _ _ _ _ _ Hts) as Hall.
    pose proof (fallback_fields ts) as Hfb.
    apply Forall2_same_length_lookup. split.
    { rewrite (Forall2_length _ _ _ Hts). by apply Forall2_length in Hfb. }
    intros i note t' Hnote Ht'.
    destruct (Forall2_lookup_l _ _ _ _ _ Hts Hnote) as (t & Ht & Hb).
    pose proof (build_track_hidden _ _ _ _ _ _ _ Hb) as Hh.
    apply build_track_inv in Hb
      as (_ & Hname & _ & _ & _ & _ & _ & _ & Hd).
    assert (name t' = name t ∧ steps t' = steps t ∧ volume t' = volume t
            ∧ hidden t' = if forallb hidden ts
                          then hidden t && negb (in_band (name t))
                          else hidden t) as (En & Es & Ev & Eh).
    { unfold fallback in Ht' |- *. destruct (forallb hidden ts).
      - rewrite list_lookup_fmap, Ht in Ht'. injection Ht' as <-.
        pose proof (show_middle_fields t) as (?&?&?&?&?&?&?&?&?).
        by rewrite show_middle_hidden.
      - rewrite Ht in Ht'. by injection Ht' as <-. }
    split; [congruence|]. intros Hnone. rewrite Hnone in Hd, Hh.
    destruct Hd as (Hs & Hv & _). rewrite bool_decide_eq_true_2 in Hh by done.
    rewrite Es, Ev, Eh, Hs, Hv, Hh, Hname.
    split; [done|]. split.
    { unfold true_steps. rewrite Es, Hs.
      apply (true_steps_quiet (target_steps ar) note). }
    split; [done|].
    destruct (forallb hidden ts) eqn:Ef.
    + simpl. rewrite negb_false_iff. split.
      * intros Hb. split; [done|]. by apply Hall.
      * by intros [Hb _].
    + split; [done|]. intros [_ Habs]. apply Hall in Habs. congruence.
Qed.

(** ** The step grid of a conversion *)

Lemma target_steps_of_le m ts : target_steps_of m ts ≤ m.
Proof. unfold target_steps_of. lia. Qed.

Lemma target_steps_of_cases m ts :
  (target_steps_of m ts) `mod` 16 = 0 ∨ target_steps_of m ts = m.
Proof.
  unfold target_steps_of.
  destruct (Z.min_spec m ((ts + 15) `div` 16 * 16)) as [[_ ->]|[_ ->]].
  - by right.
  - left. apply Z.mod_mul. done.
Qed.

Lemma target_steps_of_nonneg m ts : 0 ≤ m → 0 ≤ ts → 0 ≤ target_steps_of m ts.
Proof.
  intros Hm Hts. unfold target_steps_of.
  assert (0 ≤ (ts + 15) `div` 16) by (apply Z.div_pos; lia). lia.
Qed.

Lemma step_duration_of_pos tempo sd :
  (0 <= tempo)%Q → step_duration_of tempo = Ok sd → (0 < sd)%Q.
Proof.
  unfold step_duration_of. intros Hle.
  destruct (Qeqb tempo 0) eqn:E; [done|]. apply Qeqb_neq in E.
  intros [= <-].
  assert (0 < tempo)%Q as Hpos.
  { apply Qle_lteq in Hle as [?|Heq]; [done|]. by destruct E. }
  apply Qlt_shift_div_l; [lra|]. apply Qlt_shift_div_l; [done|]. lra.
Qed.

Lemma total_steps_of_nonneg dur sd :
  (0 <= dur)%Q → (0 < sd)%Q → 0 ≤ total_steps_of dur sd.
Proof.
  intros Hd Hs. unfold total_steps_of, Py.ceil.
  change 0 with (Qceiling (inject_Z 0)) at 1. apply Qceiling_resp_le.
  apply Qle_shift_div_l; [done|]. change (inject_Z 0) with 0%Q. lra.
Qed.

Section Conversion.

Context `{Ext : Externals}.

Lemma librosa_on_grid self y sr t tr ar tr' :
  analyze_with_librosa self y sr t tr = (Ok ar, tr') →
  on_grid (config self) t ar.
Proof.
  unfold analyze_with_librosa. intros H. io_inv H.
  apply lift_ok in Hrun as [Hsd _]. destruct a2 as [thr d].
  injection H as <- _. split; [done|].
  exists a, (get_duration y sr).
  split; [done|]. split; [apply get_duration_nonneg | done].
Qed.

Lemma basic_pitch_on_grid self file_path t tr ar tr' :
  analyze_with_basic_pitch self file_path t tr = (Ok ar, tr') →
  on_grid (config self) t ar.
Proof.
  unfold analyze_with_basic_pitch. intros H. io_inv H.
  apply lift_ok in Hrun1 as [Hsd _]. destruct a2 as [y sr].
  injection H as <- _. split; [done|].
  exists a1, (get_duration y sr).
  split; [done|]. split; [apply get_duration_nonneg | done].
Qed.

Lemma pop2piano_on_grid self file_path t tr ar tr' :
  analyze_with_pop2piano self file_path t tr = (Ok ar, tr') →
  on_grid (config self) t ar.
Proof.
  unfold analyze_with_pop2piano. intros H. io_inv H.
  destruct a1 as [y sr].
  destruct (negb (sr =? 16000)); io_inv H;
    apply lift_ok in Hrun3 as [Hsd _];
    injection H as <- _; (split; [done|]);
    eexists _, _; (split; [done|]);
    (split; [apply get_duration_nonneg | done]).
Qed.

Lemma librosa_inv self y sr t tr ar tr' :
  analyze_with_librosa self y sr t tr = (Ok ar, tr') →
  ∃ sd C thr d,
    step_duration_of t = Ok sd ∧
    cqt_db y sr (hop_length (config self))
      (use_harmonic_enhancement (config self)) = Ok C ∧
    extract (threshold_db (config self)) C sd sr (hop_length (config self))
      (target_steps_of (max_steps (config self))
         (total_steps_of (get_duration y sr) sd)) = Ok (thr, d) ∧
    target_steps ar
      = target_steps_of (max_steps (config self))
          (total_steps_of (get_duration y sr) sd) ∧
    active_notes_data ar = d.
Proof.
  unfold analyze_with_librosa. intros H. io_inv H.
  apply lift_ok in Hrun as [Hsd _]. apply lift_ok in Hrun1 as [HC _].
  apply lift_ok in Hrun2 as [Hex _]. destruct a2 as [thr d].
  injection H as <- _. by exists a, a1, thr, d.
Qed.

Lemma convert_inv self file_path tr p tr' :
  convert self file_path tr = (Ok p, tr') →
  ∃ y sr tr1 t tr2 ar,
    load_audio file_path tr = (Ok (y, sr), tr1) ∧
    detect_tempo self y sr tr1 = (Ok t, tr2) ∧
    on_grid (config self) t ar ∧
    build_track_data (config self) ar = Ok p.
Proof.
  unfold convert. intros H. io_inv H. destruct a as [y sr]. io_inv H.
  apply lift_ok in H as [Hb _].
  exists y, sr, tr0, a, tr1, a0. repeat split; try done.
  - destruct (String.eqb _ "basic_pitch");
      [by eapply basic_pitch_on_grid|].
    destruct (String.eqb _ "pop2piano");
      [by eapply pop2piano_on_grid | by eapply librosa_on_grid].
  - destruct (String.eqb _ "basic_pitch");
      [by eapply basic_pitch_on_grid|].
    destruct (String.eqb _ "pop2piano");
      [by eapply pop2piano_on_grid | by eapply librosa_on_grid].
Qed.

(** C5. A BPM override greater than 0 is what [detect_tempo] returns, as
    it is and without a single external call (the trace is unchanged, so
    the audio is not analysed); every pattern [convert] then returns, for
    whatever file and whatever the libraries answer, has [bpm] equal to
    the override rounded to the nearest integer (ties to even). *)
Theorem override_fixes_bpm self q :
  bpm_override (config self) = Some q → (0 < q)%Q →
  (∀ y sr tr, detect_tempo self y sr tr = (Ok q, tr)) ∧
  (∀ file_path tr p tr',
     convert self file_path tr = (Ok p, tr') → bpm p = Py.round q).
Proof.
  intros Hq Hpos.
  assert (∀ y sr tr, detect_tempo self y sr tr = (Ok q, tr)) as Hdt.
  { intros. apply detect_tempo_override; [done|]. intros Hz. lra. }
  split; [done|]. intros file_path tr p tr' Hc.
  apply convert_inv in Hc
    as (y & sr & tr1 & t & tr2 & ar & _ & Ht & [Htempo _] & Hb).
  rewrite Hdt in Ht. injection Ht as <- <-.
  apply build_track_data_inv in Hb as (-> & _). by rewrite Htempo.
Qed.

End Conversion.

(** ** A tempo estimate of 0 *)

Lemma io_bind_raise {A B} (m : io A) (k : A → io B) tr e tr1 :
  m tr = (Raise e, tr1) → (m ≫= k) tr = (Raise e, tr1).
Proof. intros H. unfold mbind, io_mbind, io_bind. by rewrite H. Qed.

Lemma step_duration_of_zero t :
  (t == 0)%Q → step_duration_of t = Raise ZeroDivisionError.
Proof.
  intros H. unfold step_duration_of. by rewrite (proj2 (Qeqb_eq t 0) H).
Qed.

Section ZeroEstimate.

Context `{Ext : Externals}.

(** C6. Where the code departs from the claim: an estimation that does not
    raise and answers the tempo 0, as beat tracking does on a silent signal
    (it finds no onset).  With no override, [detect_tempo] returns that 0
    and not 120, since only an exception takes its [except] branch; the
    conversion is then aborted: no method returns a pattern, the spectral
    method raises [ZeroDivisionError] at [60.0 / tempo] before the
    spectrogram is computed, and Basic Pitch raises it after the model has
    run. *)
Theorem zero_estimate_aborts_conversion self file_path tr y sr t0 :
  bpm_override (config self) = None →
  path_exists file_path = true → librosa_load file_path = Ok (y, sr) →
  beat_track y sr = Ok t0 → (t0 == 0)%Q →
  (∀ tr0, detect_tempo self y sr tr0 = (Ok t0, tr0 ++ [EvTempoAnalysis])) ∧
  ¬ (t0 == 120)%Q ∧
  (∀ p tr', convert self file_path tr ≠ (Ok p, tr')) ∧
  (method (config self) ≠ "basic_pitch" →
   method (config self) ≠ "pop2piano" →
   convert self file_path tr
   = (Raise ZeroDivisionError,
      tr ++ [EvExists file_path; EvLoad file_path; EvTempoAnalysis])) ∧
  (method (config self) = "basic_pitch" →
   ∀ events,
     predict file_path (min_note_duration (config self) * 1000) = Ok events →
     convert self file_path tr
     = (Raise ZeroDivisionError,
        tr ++ [EvExists file_path; EvLoad file_path; EvTempoAnalysis;
               EvBasicPitch file_path])).
Proof.
  intros Hov Hex Hload Hbt Hz.
  assert (∀ tr0, detect_tempo self y sr tr0
                 = (Ok t0, tr0 ++ [EvTempoAnalysis])) as Hdt.
  { intros tr0. rewrite detect_tempo_estimate by (by rewrite Hov).
    unfold estimated. by rewrite Hbt. }
  pose proof (step_duration_of_zero t0 Hz) as Hsd.
  split; [exact Hdt|]. split; [intros H120; rewrite Hz in H120; done|].
  split; [|split].
  - intros p tr' Hc.
    apply convert_inv in Hc
      as (y1 & sr1 & tr1 & t & tr2 & ar & Hl & Ht & [_ (sd & _ & Hs & _)] & _).
    rewrite load_audio_run, Hex, Hload in Hl. injection Hl as <- <- <-.
    rewrite Hdt in Ht. injection Ht as <- _. by rewrite Hsd in Hs.
  - intros Hn1%String.eqb_neq Hn2%String.eqb_neq. unfold convert.
    erewrite io_bind_run; [|by rewrite load_audio_run, Hex, Hload].
    cbv beta iota. erewrite io_bind_run; [|by apply Hdt].
    rewrite Hn1, Hn2. apply io_bind_raise.
    unfold analyze_with_librosa. apply io_bind_raise.
    unfold lift. rewrite Hsd. by rewrite <- app_assoc.
  - intros Hm events Hp. unfold convert.
    erewrite io_bind_run; [|by rewrite load_audio_run, Hex, Hload].
    cbv beta iota. erewrite io_bind_run; [|by apply Hdt].
    rewrite Hm. cbn [String.eqb Ascii.eqb Bool.eqb]. apply io_bind_raise.
    unfold analyze_with_basic_pitch.
    erewrite io_bind_run; [|apply emit_run].
    erewrite io_bind_run; [|by unfold lift; rewrite Hp].
    apply io_bind_raise. unfold lift. rewrite Hsd.
    by rewrite <- !app_assoc.
Qed.

End ZeroEstimate.

(** ** Shape of the output pattern *)

Lemma build_track_data_shape cfg ar p :
  build_track_data cfg ar = Ok p →
  length (tracks p) = 88%nat ∧
  Forall (λ t, length (steps t) = Z.to_nat (stepCount p)) (tracks p) ∧
  name <$> tracks p = PIANO_NOTES.
Proof.
  intros (_ & Hsc & ts & Hts & ->)%build_track_data_inv.
  pose proof (fallback_fields ts) as Hfb.
  assert (length (fallback ts) = 88%nat) as Hlen.
  { rewrite <- (Forall2_length _ _ _ Hfb), <- (Forall2_length _ _ _ Hts).
    done. }
  split; [done|]. split.
  - apply Forall_forall. intros t' Ht'.
    apply list_elem_of_lookup in Ht' as [i Hi].
    destruct (Forall2_lookup_r _ _ _ _ _ Hfb Hi) as (t & Hti & Hf).
    destruct Hf as (_ & _ & _ & -> & _).
    destruct (Forall2_lookup_r _ _ _ _ _ Hts Hti) as (note & _ & Hb).
    apply build_track_inv in Hb as (_ & _ & _ & _ & _ & _ & _ & Hl & _).
    by rewrite Hsc.
  - apply list_eq_same_length with 88%nat; [done | by rewrite length_fmap |].
    intros i n1 n2 _ H1 H2. rewrite list_lookup_fmap in H1.
    destruct (fallback ts !! i) as [t'|] eqn:Hi; [|done].
    injection H1 as <-.
    destruct (Forall2_lookup_r _ _ _ _ _ Hfb Hi) as (t & Hti & Hf).
    destruct Hf as (_ & -> & _).
    destruct (Forall2_lookup_r _ _ _ _ _ Hts Hti) as (note & Hn & Hb).
    apply build_track_inv in Hb as (_ & -> & _). congruence.
Qed.

Section Shape.

Context `{Ext : Externals}.

(** C1 (as amended). For a configuration that passes validation, with a
    BPM override that is positive or absent, every pattern that [run]
    returns has exactly 88 tracks, in the canonical order; each step
    sequence has [stepCount] entries; [stepCount] lies between 0 and
    [max_steps], and it is a multiple of 16 or equal to [max_steps]
    (hence a multiple of 16 whenever [max_steps] is one). *)
Theorem pattern_shape av cfg file_path tr p tr' :
  valid_config av cfg →
  (∀ q, bpm_override cfg = Some q → (0 < q)%Q) →
  run av cfg file_path tr = (Ok p, tr') →
  length (tracks p) = 88%nat ∧
  name <$> tracks p = PIANO_NOTES ∧
  Forall (λ t, Z.of_nat (length (steps t)) = stepCount p) (tracks p) ∧
  0 ≤ stepCount p ≤ max_steps cfg ∧
  ((stepCount p) `mod` 16 = 0 ∨ stepCount p = max_steps cfg) ∧
  ((max_steps cfg) `mod` 16 = 0 → (stepCount p) `mod` 16 = 0).
Proof.
  intros Hv Hpos Hrun.
  pose proof Hv as (_ & _ & _ & Hms & _).
  apply validate_ok_iff in Hv.
  unfold run, new_converter in Hrun. rewrite Hv in Hrun.
  change (convert {| config := cfg |} file_path tr = (Ok p, tr')) in Hrun.
  apply convert_inv in Hrun
    as (y & sr & tr1 & t & tr2 & ar & _ & Ht & [Htempo Hgrid] & Hb).
  simpl in *.
  apply detect_tempo_nonneg in Ht;
    [|simpl; intros q Hq; apply Hpos in Hq; lra].
  destruct Hgrid as (sd & dur & Hsd & Hdur & Htgt).
  pose proof (step_duration_of_pos _ _ Ht Hsd) as Hsdpos.
  pose proof (total_steps_of_nonneg _ _ Hdur Hsdpos) as Hts.
  pose proof (build_track_data_shape _ _ _ Hb) as (Hlen & Hsteps & Hnames).
  apply build_track_data_inv in Hb as (_ & Hsc & _).
  rewrite Hsc, Htgt.
  assert (0 ≤ target_steps_of (max_steps cfg) (total_steps_of dur sd))
    as Hnn by (apply target_steps_of_nonneg; lia).
  split; [done|]. split; [done|]. split.
  { eapply Forall_impl; [exact Hsteps|]. intros t0 Hl. simpl in Hl.
    rewrite Hl, Hsc, Htgt. lia. }
  split; [split; [done | apply target_steps_of_le]|].
  pose proof (target_steps_of_cases (max_steps cfg) (total_steps_of dur sd))
    as Hc.
  split; [done|]. intros Hm. destruct Hc as [? | ->]; done.
Qed.

End Shape.

(** ** The step quantizer: what gets recorded *)

Lemma getitem_nat {A} (l : list A) (i : nat) (x : A) :
  Py.getitem l (Z.of_nat i) = Ok x → l !! i = Some x.
Proof.
  unfold Py.getitem.
  destruct (Z.of_nat i <? 0) eqn:E; [apply Z.ltb_lt in E; lia|].
  case_match; [|done]. rewrite Nat2Z.id.
  by destruct (l !! i); intros [= <-].
Qed.

Lemma lookup_record note step mag (d : gmap string NoteActivation) k :
  add_activation note step mag (ensure_note note d) !! k =
    if decide (note = k) then
      Some {| act_steps :=
                {[step]} ∪ act_steps (default empty_activation (d !! note));
              magnitudes :=
                magnitudes (default empty_activation (d !! note)) ++ [mag] |}
    else d !! k.
Proof.
  unfold add_activation, ensure_note. rewrite lookup_alter.
  destruct (decide (note = k)) as [->|Hne].
  - destruct (d !! k) eqn:E; simpl; [by rewrite E|].
    by rewrite lookup_insert_eq.
  - destruct (d !! note) eqn:E; [done|]. by rewrite lookup_insert_ne.
Qed.

Lemma find_peaks_height x h p : p ∈ find_peaks x h → height_ok x h p = true.
Proof.
  unfold find_peaks. rewrite list_elem_of_In, filter_In. by intros [_ ?].
Qed.

Lemma recorded_empty P M : recorded P M ∅.
Proof. intros note a H. by rewrite lookup_empty in H. Qed.

Lemma record_peak_recorded P M step spec d bin d' :
  record_peak step spec d bin = Ok d' →
  P step → (∀ mag, spec !! bin = Some mag → M mag) →
  recorded P M d → recorded P M d'.
Proof.
  unfold record_peak. intros H Hstep Hmag Hd.
  apply result_bind_ok in H as (mag & Hg & [= <-]).
  apply getitem_nat in Hg. intros k a. rewrite lookup_record.
  destruct (decide (bin_to_note bin = k)) as [<-|Hne]; [|apply Hd].
  intros [= <-]. simpl.
  destruct (d !! bin_to_note bin) as [a0|] eqn:E; simpl.
  - destruct (Hd _ _ E) as [Hs Hm]. split.
    + intros s [Hin|Hin]%elem_of_union; [|by apply Hs].
      apply elem_of_singleton in Hin. by subst s.
    + apply Forall_app. split; [done|]. constructor; [by apply Hmag | done].
  - split.
    + intros s [Hin|Hin]%elem_of_union; [|by apply elem_of_empty in Hin].
      apply elem_of_singleton in Hin. by subst s.
    + constructor; [by apply Hmag | done].
Qed.

Lemma record_peaks_recorded P M step spec peaks d d' :
  Py.for_each (record_peak step spec) peaks d = Ok d' →
  P step → Forall (λ bin, ∀ mag, spec !! bin = Some mag → M mag) peaks →
  recorded P M d → recorded P M d'.
Proof.
  revert d. induction peaks as [|bin peaks IH]; intros d; simpl.
  - by intros [= <-].
  - intros H Hstep Hpk Hd.
    destruct (record_peak step spec d bin) as [d1|] eqn:E; [|done].
    apply Forall_cons in Hpk as [Hb Hpk].
    eapply IH; [exact H | done | done |].
    by eapply record_peak_recorded.
Qed.

Lemma quantize_recorded (P : Z → Prop) C thr fps steps d d' :
  quantize C thr fps steps d = Ok d' →
  (∀ s, s ∈ steps → start_frame_of fps s < Z.of_nat (length C) → P s) →
  recorded P (λ mag, (thr <= mag)%Q) d →
  recorded P (λ mag, (thr <= mag)%Q) d'.
Proof.
  revert d. induction steps as [|step rest IH]; intros d; simpl.
  - by intros [= <-].
  - intros H HP Hd.
    destruct (Z.of_nat (length C) <=? Py.int (inject_Z step * fps)) eqn:Hbrk.
    { by injection H as <-. }
    apply Z.leb_gt in Hbrk.
    apply result_bind_ok in H as (spec & Hspec & H).
    apply result_bind_ok in H as (d1 & Hrec & H).
    eapply IH; [exact H | intros s Hs; apply HP; by right |].
    eapply record_peaks_recorded; [exact Hrec | | | exact Hd].
    + apply HP; [by left | done].
    + apply Forall_forall. intros bin Hbin mag Hmag.
      apply find_peaks_height in Hbin. unfold height_ok in Hbin.
      rewrite Hmag in Hbin. by apply Qleb_le.
Qed.

(** The loop never looks past a step whose range starts beyond the frames. *)
Lemma quantize_break C thr fps before step after d :
  Z.of_nat (length C) ≤ start_frame_of fps step →
  quantize C thr fps (before ++ step :: after) d
  = quantize C thr fps before d.
Proof.
  intros Hout. revert d. induction before as [|s before IH]; intros d; simpl.
  - apply Z.leb_le in Hout. unfold start_frame_of in Hout. by rewrite Hout.
  - destruct (Z.of_nat (length C) <=? Py.int (inject_Z s * fps)); [done|].
    destruct (step_spectrum_of _ _ _) as [spec|]; [|done]. simpl.
    destruct (Py.for_each _ _ _) as [d1|]; [|done]. simpl. apply IH.
Qed.

Lemma elem_of_range a b s : s ∈ Py.range a b ↔ a ≤ s < b.
Proof.
  unfold Py.range. rewrite list_elem_of_fmap. split.
  - intros (k & -> & Hk). apply elem_of_seq in Hk. lia.
  - intros H. exists (Z.to_nat (s - a)). split; [lia|].
    apply elem_of_seq. lia.
Qed.

Lemma range_split a b s :
  a ≤ s < b → Py.range a b = Py.range a s ++ s :: Py.range (s + 1) b.
Proof.
  intros H. unfold Py.range.
  replace (Z.to_nat (b - a))
    with (Z.to_nat (s - a) + S (Z.to_nat (b - (s + 1))))%nat by lia.
  rewrite seq_app, fmap_app. f_equal. cbn [seq]. rewrite fmap_cons. f_equal.
  - lia.
  - apply list_eq. intros i. rewrite !list_lookup_fmap.
    destruct (decide (i < Z.to_nat (b - (s + 1)))%nat).
    + rewrite !lookup_seq_lt by lia. simpl. f_equal. lia.
    + rewrite !lookup_seq_ge by lia. done.
Qed.

Lemma int_nonneg x : (0 <= x)%Q → 0 ≤ Py.int x.
Proof.
  intros H. unfold Py.int. apply Qle_bool_iff in H as Hb. rewrite Hb.
  change 0 with (Qfloor (inject_Z 0)). by apply Qfloor_resp_le.
Qed.

Lemma int_succ x y : (0 <= x)%Q → (x + 1 <= y)%Q → Py.int x + 1 ≤ Py.int y.
Proof.
  intros Hx Hxy. unfold Py.int.
  assert (0 <= y)%Q as Hy by lra.
  apply Qle_bool_iff in Hx as Hbx. apply Qle_bool_iff in Hy as Hby.
  rewrite Hbx, Hby.
  rewrite <- (Qfloor_Z (Qfloor x + 1)). apply Qfloor_resp_le.
  rewrite inject_Z_plus. pose proof (Qfloor_le x) as Hf.
  change (inject_Z 1) with 1%Q. lra.
Qed.

(** A step that spans at least one frame starts at least one frame after
    the step before it. *)
Lemma start_frame_advances fps s :
  (1 <= fps)%Q → 0 ≤ s →
  start_frame_of fps s + 1 ≤ start_frame_of fps (s + 1).
Proof.
  intros Hfps Hs. unfold start_frame_of.
  assert (0 <= inject_Z s)%Q as Hsq.
  { change 0%Q with (inject_Z 0). rewrite <- Zle_Qle. lia. }
  apply int_succ.
  - apply Qmult_le_0_compat; lra.
  - rewrite inject_Z_plus. change (inject_Z 1) with 1%Q. nra.
Qed.

(** With such steps, the step that starts on the last frame is the last
    one the loop records. *)
Lemma quantize_last_frame C thr fps tgt d s0 :
  (1 <= fps)%Q → 0 ≤ s0 < tgt →
  Z.of_nat (length C) - 1 ≤ start_frame_of fps s0 →
  quantize C thr fps (Py.range 0 tgt) ∅ = Ok d →
  ∀ note a s, d !! note = Some a → s ∈ act_steps a → s ≤ s0.
Proof.
  intros Hfps Hs0 Hlast Hq note a s Ha Hs.
  assert (∃ b, b ≤ s0 + 1 ∧ quantize C thr fps (Py.range 0 b) ∅ = Ok d)
    as (b & Hb & Hqb).
  { destruct (decide (s0 + 1 < tgt)) as [Hin|Hout].
    - exists (s0 + 1). split; [done|].
      pose proof (start_frame_advances fps s0 Hfps ltac:(lia)) as Hadv.
      rewrite (range_split 0 tgt (s0 + 1)) in Hq by lia.
      rewrite quantize_break in Hq by lia. done.
    - exists tgt. split; [lia | done]. }
  pose proof (quantize_recorded (λ s, s < b) _ _ _ _ _ _ Hqb) as Hrec.
  destruct (Hrec) with (note := note) (a := a) as [Hlt _];
    [| apply recorded_empty | done | specialize (Hlt s Hs); lia].
  intros s' Hs'%elem_of_range _. lia.
Qed.

(** C8 (as amended). In the result of the spectral quantizer, the cutoff is
    the global maximum minus the configured margin; every recorded
    magnitude is at or above the cutoff; every recorded step is a step of
    the grid whose starting frame is below the number of frames (and not
    negative when the frame rate is not); and as soon as some step starts
    at or beyond the end of the available frames (its starting frame is at
    least the number of frames), the loop is over: its result is the one
    of the steps before, and every recorded step is an earlier one.  For a
    step that starts on the last available frame itself this holds when a
    step spans at least one frame: then no later step is recorded.  (Steps
    narrower than a frame share the last frame, and each of them is
    processed.) *)
Theorem quantizer_records_within_signal cthr C sd sr hop tgt thr d :
  extract cthr C sd sr hop tgt = Ok (thr, d) →
  ∃ max_db fps,
    Np.max_list (concat C) = Ok max_db ∧ thr = (max_db - cthr)%Q ∧
    frames_per_step_of sd sr hop = Ok fps ∧
    (∀ note a, d !! note = Some a →
       Forall (λ mag, (thr <= mag)%Q) (magnitudes a) ∧
       ∀ s, s ∈ act_steps a →
            0 ≤ s < tgt ∧
            start_frame_of fps s < Z.of_nat (length C) ∧
            ((0 <= fps)%Q → 0 ≤ start_frame_of fps s)) ∧
    (∀ s0, 0 ≤ s0 < tgt → Z.of_nat (length C) ≤ start_frame_of fps s0 →
       quantize C thr fps (Py.range 0 tgt) ∅
       = quantize C thr fps (Py.range 0 s0) ∅ ∧
       ∀ note a s, d !! note = Some a → s ∈ act_steps a → s < s0) ∧
    ((1 <= fps)%Q →
     ∀ s0, 0 ≤ s0 < tgt → Z.of_nat (length C) - 1 ≤ start_frame_of fps s0 →
       ∀ note a s, d !! note = Some a → s ∈ act_steps a → s ≤ s0).
Proof.
  unfold extract. intros H.
  apply result_bind_ok in H as (max_db & Hmax & H).
  apply result_bind_ok in H as (fps & Hfps & H).
  apply result_bind_ok in H as (d0 & Hq & [= <- <-]).
  exists max_db, fps. split; [done|]. split; [done|]. split; [done|].
  split; [|split].
  - intros note a Ha.
    pose proof (quantize_recorded
                  (λ s, 0 ≤ s < tgt ∧
                        start_frame_of fps s < Z.of_nat (length C) ∧
                        ((0 <= fps)%Q → 0 ≤ start_frame_of fps s))
                  _ _ _ _ _ _ Hq) as Hrec.
    destruct (Hrec) with (note := note) (a := a) as [Hs Hm];
      [| apply recorded_empty | done | done].
    intros s Hs%elem_of_range Hlt. split; [done|]. split; [done|].
    intros Hf. apply int_nonneg.
    apply Qmult_le_0_compat; [|done].
    change 0%Q with (inject_Z 0). rewrite <- Zle_Qle. lia.
  - intros s0 Hs0 Hout.
    rewrite (range_split 0 tgt s0) in Hq |- * by done.
    rewrite quantize_break in Hq |- * by done. split; [done|].
    intros note a s Ha Hs.
    pose proof (quantize_recorded (λ s, s < s0) _ _ _ _ _ _ Hq) as Hrec.
    destruct (Hrec) with (note := note) (a := a) as [Hlt _];
      [| apply recorded_empty | done | by apply Hlt].
    intros s' Hs'%elem_of_range _. lia.
  - intros Hwide s0 Hs0 Hlast. by eapply quantize_last_frame.
Qed.

(** ** Monotonicity in the detection threshold *)

Lemma height_ok_mono x h1 h2 p :
  (h2 <= h1)%Q → height_ok x h1 p = true → height_ok x h2 p = true.
Proof.
  unfold height_ok. intros Hle. destruct (x !! p) as [v|]; [|done].
  rewrite !Qleb_le. lra.
Qed.

Lemma covers_refl d : covers d d.
Proof. intros note a Ha. by exists a. Qed.

Lemma covers_record_both note step m1 m2 d1 d2 :
  covers d1 d2 →
  covers (add_activation note step m1 (ensure_note note d1))
         (add_activation note step m2 (ensure_note note d2)).
Proof.
  intros Hc k a1. rewrite !lookup_record.
  destruct (decide (note = k)) as [<-|Hne]; [|apply Hc].
  intros [= <-]. eexists. split; [done|]. simpl.
  destruct (d1 !! note) as [a|] eqn:E; simpl;
    [|apply union_mono_l, empty_subseteq].
  destruct (Hc _ _ E) as (a2 & -> & Hsub). simpl. by apply union_mono_l.
Qed.

Lemma covers_record_right note step m d1 d2 :
  covers d1 d2 →
  covers d1 (add_activation note step m (ensure_note note d2)).
Proof.
  intros Hc k a1 Ha1. rewrite lookup_record.
  destruct (Hc _ _ Ha1) as (a2 & Ha2 & Hsub).
  destruct (decide (note = k)) as [<-|Hne]; [|by exists a2].
  eexists. split; [done|]. simpl. rewrite Ha2. simpl.
  etrans; [exact Hsub | apply union_subseteq_r].
Qed.

Lemma record_peak_inv step spec d bin d' :
  record_peak step spec d bin = Ok d' →
  ∃ mag, spec !! bin = Some mag ∧
         d' = add_activation (bin_to_note bin) step mag
                (ensure_note (bin_to_note bin) d).
Proof.
  unfold record_peak. intros (mag & Hg & [= <-])%result_bind_ok.
  exists mag. split; [by apply getitem_nat | done].
Qed.

Lemma record_peaks_covers step spec h1 h2 maxima d1 d2 r1 r2 :
  (h2 <= h1)%Q →
  Py.for_each (record_peak step spec)
    (List.filter (height_ok spec h1) maxima) d1 = Ok r1 →
  Py.for_each (record_peak step spec)
    (List.filter (height_ok spec h2) maxima) d2 = Ok r2 →
  covers d1 d2 → covers r1 r2.
Proof.
  intros Hle. revert d1 d2.
  induction maxima as [|m maxima IH]; intros d1 d2; simpl.
  - intros [= <-] [= <-]. done.
  - destruct (height_ok spec h1 m) eqn:E1.
    + rewrite (height_ok_mono _ _ _ _ Hle E1). simpl.
      destruct (record_peak step spec d1 m) as [d1'|] eqn:R1; [|done].
      destruct (record_peak step spec d2 m) as [d2'|] eqn:R2; [|done].
      simpl. intros H1 H2 Hc. eapply IH; [exact H1 | exact H2 |].
      apply record_peak_inv in R1 as (m1 & _ & ->).
      apply record_peak_inv in R2 as (m2 & _ & ->).
      by apply covers_record_both.
    + destruct (height_ok spec h2 m); [|apply IH].
      simpl.
      destruct (record_peak step spec d2 m) as [d2'|] eqn:R2; [|done].
      simpl. intros H1 H2 Hc. eapply IH; [exact H1 | exact H2 |].
      apply record_peak_inv in R2 as (m2 & _ & ->).
      by apply covers_record_right.
Qed.

Lemma quantize_covers C h1 h2 fps steps d1 d2 r1 r2 :
  (h2 <= h1)%Q →
  quantize C h1 fps steps d1 = Ok r1 →
  quantize C h2 fps steps d2 = Ok r2 →
  covers d1 d2 → covers r1 r2.
Proof.
  intros Hle. revert d1 d2.
  induction steps as [|step rest IH]; intros d1 d2; simpl.
  - intros [= <-] [= <-]. done.
  - destruct (Z.of_nat (length C) <=? Py.int (inject_Z step * fps)).
    { intros [= <-] [= <-]. done. }
    destruct (step_spectrum_of _ _ _) as [spec|]; [|done]. simpl.
    unfold find_peaks.
    destruct (Py.for_each _ (List.filter (height_ok spec h1) _) d1)
      as [d1'|] eqn:R1; [|done].
    destruct (Py.for_each _ (List.filter (height_ok spec h2) _) d2)
      as [d2'|] eqn:R2; [|done].
    simpl. intros H1 H2 Hc. eapply IH; [exact H1 | exact H2 |].
    by eapply record_peaks_covers.
Qed.

(** The step sequence written by [fill_pattern], for non-negative steps. *)
Lemma fill_steps_spec tgt l pat0 pat :
  Forall (λ s, 0 ≤ s) l → length pat0 = Z.to_nat tgt →
  Py.for_each (fill_step tgt) l pat0 = Ok pat →
  ∀ i, pat !! i = Some true ↔
       pat0 !! i = Some true ∨ (Z.of_nat i ∈ l ∧ Z.of_nat i < tgt).
Proof.
  intros Hnn. revert pat0.
  induction Hnn as [|s l Hs _ IH]; intros pat0 Hlen; simpl.
  - intros [= <-] i. split; [by left|].
    intros [?|[?%elem_of_nil _]]; done.
  - unfold fill_step at 1. destruct (s <? tgt) eqn:Hlt.
    + apply Z.ltb_lt in Hlt. unfold Py.setitem.
      destruct (s <? 0) eqn:Hneg; [apply Z.ltb_lt in Hneg; lia|].
      rewrite Hlen.
      destruct ((0 <=? s) && (s <? Z.of_nat (Z.to_nat tgt))) eqn:Hin.
      2: { apply andb_false_iff in Hin as [?%Z.leb_gt|?%Z.ltb_ge]; lia. }
      simpl. intros H i.
      rewrite (IH _ (eq_trans (length_insert _ _ _) Hlen) H i).
      rewrite list_lookup_insert, elem_of_cons.
      destruct (decide (Z.to_nat s = i ∧ (Z.to_nat s < length pat0)%nat))
        as [[<- _]|Hne].
      * split; [intros _; right; split; [left|]; lia | by left].
      * split; [intros [?|[? ?]]; [by left | right; by split; [right|]]|].
        intros [?|[[Heq|?] ?]]; [by left | | right; by split].
        destruct Hne. split; lia.
    + apply Z.ltb_ge in Hlt. simpl. intros H i.
      rewrite (IH _ Hlen H i), elem_of_cons.
      split; [intros [?|[? ?]]; [by left | right; by split; [right|]]|].
      intros [?|[[Heq|?] ?]]; [by left | lia | right; by split].
Qed.

Lemma fill_pattern_spec tgt ss pat :
  (∀ s, s ∈ ss → 0 ≤ s) → fill_pattern tgt ss = Ok pat →
  ∀ i, pat !! i = Some true ↔ Z.of_nat i ∈ ss ∧ Z.of_nat i < tgt.
Proof.
  intros Hnn H i. unfold fill_pattern in H.
  eapply fill_steps_spec in H.
  - rewrite H, elem_of_elements. split; [|by right].
    intros [Hrep|?]; [|done].
    apply lookup_replicate in Hrep as [? _]. done.
  - apply Forall_forall. intros s Hs. apply Hnn. by apply elem_of_elements.
  - apply length_replicate.
Qed.

Lemma count_true_mono (l1 l2 : list bool) :
  length l1 = length l2 →
  (∀ i, l1 !! i = Some true → l2 !! i = Some true) →
  (count_true l1 ≤ count_true l2)%nat.
Proof.
  unfold count_true. revert l2.
  induction l1 as [|b1 l1 IH]; intros [|b2 l2]; simpl; try done.
  intros [= Hlen] Hp.
  specialize (IH l2 Hlen (λ i, Hp (S i))).
  destruct b1.
  - specialize (Hp 0%nat eq_refl). injection Hp as ->.
    rewrite !filter_cons_True by done. simpl. lia.
  - rewrite (filter_cons_False _ false) by (by intros []).
    destruct b2; [rewrite filter_cons_True by done; simpl; lia|].
    rewrite filter_cons_False by (by intros []). done.
Qed.

Lemma count_true_replicate n : count_true (replicate n false) = 0%nat.
Proof.
  unfold count_true. induction n as [|n IH]; [done|]. simpl.
  rewrite filter_cons_False; [done | by intros []].
Qed.

Lemma build_track_mono c1 c2 thr1 thr2 tgt d1 d2 note t1 t2 :
  step_covers d1 d2 →
  build_track c1 tgt thr1 60 d1 note = Ok t1 →
  build_track c2 tgt thr2 60 d2 note = Ok t2 →
  (true_steps t1 ≤ true_steps t2)%nat.
Proof.
  intros Hc H1 H2.
  apply build_track_inv in H1 as (_ & _ & _ & _ & _ & _ & _ & Hl1 & Hd1).
  apply build_track_inv in H2 as (_ & _ & _ & _ & _ & _ & _ & Hl2 & Hd2).
  change (count_true (steps t1) ≤ count_true (steps t2))%nat.
  destruct (d1 !! note) as [a1|] eqn:E1.
  - destruct (Hc _ _ E1) as (a2 & E2 & Hrel). rewrite E2 in Hd2.
    destruct Hd1 as (Hf1 & _), Hd2 as (Hf2 & _).
    destruct Hrel as [Heq|[Hsub Hnn]].
    + rewrite Heq, Hf2 in Hf1. by injection Hf1 as ->.
    + apply count_true_mono; [congruence|]. intros i.
      rewrite (fill_pattern_spec _ _ _ (λ s Hs, Hnn s (Hsub s Hs)) Hf1 i).
      rewrite (fill_pattern_spec _ _ _ Hnn Hf2 i).
      intros [? ?]. split; [by apply Hsub | done].
  - destruct Hd1 as (-> & _). unfold Py.repeat_list.
    rewrite count_true_replicate. lia.
Qed.

Lemma sum_true_steps_mono ts1 ts2 :
  Forall2 (λ t1 t2, (true_steps t1 ≤ true_steps t2)%nat) ts1 ts2 →
  (sum_list (true_steps <$> ts1) ≤ sum_list (true_steps <$> ts2))%nat.
Proof.
  induction 1 as [|t1 t2 ts1 ts2 Ht _ IH]; [done|].
  rewrite !fmap_cons. cbn [sum_list_with id]. lia.
Qed.

Lemma total_true_steps_fallback ts :
  sum_list (true_steps <$> fallback ts) = sum_list (true_steps <$> ts).
Proof.
  pose proof (fallback_fields ts) as Hfb.
  induction Hfb as [|t t' ts ts' Ht _ IH]; [done|].
  rewrite !fmap_cons. cbn [sum_list_with id]. rewrite IH. f_equal.
  unfold true_steps. by destruct Ht as (_ & _ & _ & -> & _).
Qed.

Lemma build_track_data_mono cfg1 cfg2 ar1 ar2 p1 p2 :
  target_steps ar1 = target_steps ar2 →
  step_covers (active_notes_data ar1) (active_notes_data ar2) →
  build_track_data cfg1 ar1 = Ok p1 →
  build_track_data cfg2 ar2 = Ok p2 →
  (total_true_steps p1 ≤ total_true_steps p2)%nat.
Proof.
  intros Htgt Hc.
  intros (_ & _ & ts1 & H1 & E1)%build_track_data_inv.
  intros (_ & _ & ts2 & H2 & E2)%build_track_data_inv.
  unfold total_true_steps. rewrite E1, E2, !total_true_steps_fallback.
  apply sum_true_steps_mono. rewrite Htgt in H1. clear E1 E2.
  revert ts2 H2. induction H1 as [|note t1 notes ts1 Hb1 _ IH];
    intros ts2 H2.
  - apply Forall2_nil_inv_l in H2 as ->. constructor.
  - apply Forall2_cons_inv_l in H2 as (t2 & ts2' & Hb2 & H2 & ->).
    constructor; [|by apply IH]. by eapply build_track_mono.
Qed.

Lemma extract_step_covers c1 c2 C sd sr hop tgt thr1 d1 thr2 d2 :
  (c1 <= c2)%Q →
  extract c1 C sd sr hop tgt = Ok (thr1, d1) →
  extract c2 C sd sr hop tgt = Ok (thr2, d2) →
  step_covers d1 d2.
Proof.
  unfold extract. intros Hle H1 H2.
  apply result_bind_ok in H1 as (max_db & Hmax & H1).
  rewrite Hmax in H2. cbn [mbind result_bind Py.bind] in H2.
  apply result_bind_ok in H1 as (fps & Hfps & H1).
  rewrite Hfps in H2. cbn [mbind result_bind Py.bind] in H2.
  apply result_bind_ok in H1 as (r1 & Hq1 & [= <- <-]).
  apply result_bind_ok in H2 as (r2 & Hq2 & [= <- <-]).
  assert (covers r1 r2) as Hc.
  { eapply quantize_covers; [| exact Hq1 | exact Hq2 | apply covers_refl].
    lra. }
  pose proof (quantize_recorded (λ s, 0 ≤ s) _ _ _ _ _ _ Hq2) as Hrec.
  intros note a1 Ha1. destruct (Hc _ _ Ha1) as (a2 & Ha2 & Hsub).
  exists a2. split; [done|]. right. split; [done|].
  destruct (Hrec) with (note := note) (a := a2) as [Hnn _];
    [| apply recorded_empty | done | done].
  intros s Hs%elem_of_range _. lia.
Qed.

Section Threshold.

Context `{Ext : Externals}.

Lemma detect_tempo_same self1 self2 y sr :
  bpm_override (config self1) = bpm_override (config self2) →
  detect_tempo self1 y sr = detect_tempo self2 y sr.
Proof. intros H. unfold detect_tempo. by rewrite H. Qed.

(** C2 (as amended). For the same file, the same libraries and a
    configuration that differs in [threshold_db] only, a larger
    [threshold_db] never gives fewer true steps over the 88 tracks: the
    cutoff is the global maximum minus [threshold_db], so a larger margin
    accepts every peak the smaller one accepts.  (With the two note-event
    adapters the steps do not depend on [threshold_db] at all.) *)
Theorem larger_margin_keeps_every_step av cfg t2 file_path tr p1 tr1 p2 tr2 :
  (threshold_db cfg <= t2)%Q →
  run av cfg file_path tr = (Ok p1, tr1) →
  run av (with_threshold_db t2 cfg) file_path tr = (Ok p2, tr2) →
  (total_true_steps p1 ≤ total_true_steps p2)%nat.
Proof.
  intros Hle H1 H2. unfold run in H1, H2.
  apply io_bind_ok in H1 as (c1 & tr1' & Hc1 & H1).
  apply io_bind_ok in H2 as (c2 & tr2' & Hc2 & H2).
  apply lift_ok in Hc1 as [Hc1 ->]. apply lift_ok in Hc2 as [Hc2 ->].
  unfold new_converter in Hc1, Hc2.
  apply result_bind_ok in Hc1 as (_ & _ & [= <-]).
  apply result_bind_ok in Hc2 as (_ & _ & [= <-]).
  unfold convert in H1, H2.
  apply io_bind_ok in H1 as ([y sr] & trl & Hload & H1).
  rewrite (io_bind_run _ _ _ _ _ Hload) in H2.
  apply io_bind_ok in H1 as (t & trt & Ht & H1).
  rewrite (detect_tempo_same _ {| config := with_threshold_db t2 cfg |})
    in Ht by done.
  rewrite (io_bind_run _ _ _ _ _ Ht) in H2.
  apply io_bind_ok in H1 as (ar1 & tra1 & Ha1 & H1).
  apply io_bind_ok in H2 as (ar2 & tra2 & Ha2 & H2).
  apply lift_ok in H1 as [Hb1 _]. apply lift_ok in H2 as [Hb2 _].
  cbn [config with_threshold_db method] in Ha1, Ha2, Hb1, Hb2.
  destruct (String.eqb (method cfg) "basic_pitch").
  { change (analyze_with_basic_pitch {| config := cfg |} file_path t trt
            = (Ok ar2, tra2)) in Ha2.
    rewrite Ha1 in Ha2. injection Ha2 as <- _.
    eapply build_track_data_mono; [done | | exact Hb1 | exact Hb2].
    intros note a Ha. exists a. split; [done | by left]. }
  destruct (String.eqb (method cfg) "pop2piano").
  { change (analyze_with_pop2piano {| config := cfg |} file_path t trt
            = (Ok ar2, tra2)) in Ha2.
    rewrite Ha1 in Ha2. injection Ha2 as <- _.
    eapply build_track_data_mono; [done | | exact Hb1 | exact Hb2].
    intros note a Ha. exists a. split; [done | by left]. }
  apply librosa_inv in Ha1
    as (sd1 & C1 & thr1 & d1 & Hsd1 & HC1 & Hex1 & Htgt1 & Hd1).
  apply librosa_inv in Ha2
    as (sd2 & C2 & thr2 & d2 & Hsd2 & HC2 & Hex2 & Htgt2 & Hd2).
  cbn [config with_threshold_db hop_length use_harmonic_enhancement
         max_steps threshold_db] in *.
  rewrite Hsd1 in Hsd2. injection Hsd2 as <-.
  rewrite HC1 in HC2. injection HC2 as <-.
  eapply build_track_data_mono; [| | exact Hb1 | exact Hb2].
  - congruence.
  - rewrite Hd1, Hd2. by eapply extract_step_covers.
Qed.

End Threshold.

(** ** Silence *)

Lemma Qltb_irrefl v : Qltb v v = false.
Proof. apply Qltb_ge. lra. Qed.

Lemma local_maxima_from_flat i v k :
  local_maxima_from i v None (replicate k v) = [].
Proof.
  revert i. induction k as [|k IH]; intros i; simpl; [done|].
  by rewrite Qltb_irrefl.
Qed.

(** A flat spectrum has no peak. *)
Lemma local_maxima_flat k v : local_maxima (replicate k v) = [].
Proof. destruct k; [done|]. simpl. apply local_maxima_from_flat. Qed.

Lemma Qmax_same v : Qmax v v = v.
Proof. unfold Qmax, GenericMinMax.gmax. by destruct (v ?= v)%Q. Qed.

Lemma zip_max_flat k v :
  zip_with Qmax (replicate k v) (replicate k v) = replicate k v.
Proof. induction k as [|k IH]; simpl; [done|]. by rewrite Qmax_same, IH. Qed.

Lemma max_pool_flat k v f fs :
  f = replicate k v → Forall (λ f, f = replicate k v) fs →
  foldl (zip_with Qmax) f fs = replicate k v.
Proof.
  intros -> H. induction H as [|g fs -> _ IH]; simpl; [done|].
  by rewrite zip_max_flat.
Qed.

Lemma Forall_slice {A} (P : A → Prop) (l : list A) a b :
  Forall P l → Forall P (Py.slice l a b).
Proof. intros H. unfold Py.slice. by apply Forall_take, Forall_drop. Qed.

Lemma getitem_elem {A} (l : list A) i (x : A) :
  Py.getitem l i = Ok x → x ∈ l.
Proof.
  unfold Py.getitem. case_match; [|done].
  match goal with
  | |- context [l !! ?j] => destruct (l !! j) as [y|] eqn:E; [|done]
  end.
  intros [= <-]. by eapply list_elem_of_lookup_2.
Qed.

Lemma step_spectrum_flat k v C a b spec :
  flat k v C → step_spectrum_of C a b = Ok spec → spec = replicate k v.
Proof.
  intros HC. unfold step_spectrum_of, column, max_pool.
  destruct (a =? b).
  - intros Hg%getitem_elem. unfold flat in HC.
    rewrite Forall_forall in HC. by apply HC.
  - pose proof (Forall_slice _ _ a (Z.min b (Z.of_nat (length C))) HC) as Hs.
    destruct (Py.slice C a _) as [|f fs]; [done|]. intros [= <-].
    apply Forall_cons in Hs as [Hf Hfs]. by apply max_pool_flat.
Qed.

(** On a flat spectrogram the loop records nothing. *)
Lemma quantize_flat k v C thr fps steps d d' :
  flat k v C → quantize C thr fps steps d = Ok d' → d' = d.
Proof.
  intros HC. revert d. induction steps as [|s rest IH]; intros d; simpl.
  - by intros [= <-].
  - destruct (_ <=? _); [by intros [= <-]|].
    destruct (step_spectrum_of _ _ _) as [spec|] eqn:E; [|done]. simpl.
    apply (step_spectrum_flat k v) in E; [|done]. subst spec.
    unfold find_peaks. rewrite local_maxima_flat. simpl. apply IH.
Qed.

(** The tracks of a pattern built without any canonical pitch. *)
Lemma silent_tracks tgt :
  let ts := (λ note, set_hidden (negb (in_band note)) (quiet_track tgt note))
              <$> PIANO_NOTES in
  length ts = 88%nat ∧
  Forall (λ t, steps t = Py.repeat_list false tgt ∧ true_steps t = 0%nat) ts ∧
  sum_list (true_steps <$> ts) = 0%nat ∧
  name <$> List.filter (λ t, negb (hidden t)) ts = band_notes.
Proof.
  intros ts. split; [by unfold ts; rewrite length_fmap|].
  assert (∀ notes,
            Forall (λ t, steps t = Py.repeat_list false tgt
                         ∧ true_steps t = 0%nat)
              ((λ note, set_hidden (negb (in_band note))
                          (quiet_track tgt note)) <$> notes))
    as Hq.
  { intros notes. apply Forall_fmap, Forall_forall. intros n _. simpl.
    split; [done|]. apply (true_steps_quiet tgt n). }
  split; [apply Hq|]. split.
  - specialize (Hq PIANO_NOTES). fold ts in Hq. revert Hq. generalize ts.
    induction 1 as [|t l [_ Ht] _ IH]; [done|].
    rewrite fmap_cons. cbn [sum_list_with]. by rewrite Ht, IH.
  - unfold ts. destruct in_band_piano as [<- _].
    generalize PIANO_NOTES. intros notes.
    induction notes as [|n notes IH]; [done|].
    rewrite fmap_cons. cbn [List.filter hidden set_hidden].
    rewrite negb_involutive.
    destruct (in_band n); [rewrite fmap_cons; cbn [name set_hidden]|];
      by rewrite IH.
Qed.

Lemma silent_pattern cfg ar p :
  (∀ note, note ∈ PIANO_NOTES → active_notes_data ar !! note = None) →
  build_track_data cfg ar = Ok p →
  length (tracks p) = 88%nat ∧
  Forall (λ t, steps t = Py.repeat_list false (target_steps ar)
               ∧ true_steps t = 0%nat) (tracks p) ∧
  total_true_steps p = 0%nat ∧
  name <$> List.filter (λ t, negb (hidden t)) (tracks p) = band_notes.
Proof.
  intros Hnone Hb. rewrite build_silent in Hb by done.
  assert (tracks p
          = (λ note, set_hidden (negb (in_band note))
                       (quiet_track (target_steps ar) note)) <$> PIANO_NOTES)
    as Hp by (by injection Hb as <-).
  unfold total_true_steps. rewrite Hp. apply silent_tracks.
Qed.

Section Silence.

Context `{Ext : Externals}.

(** C4. When every track the loop built is hidden, the fallback changes
    nothing but [hidden], and a track ends up visible exactly when its
    pitch lies between C3 (MIDI 48) and C5 (MIDI 72), one octave on each
    side of C4.  In particular, for data without any canonical pitch the
    builder succeeds, all 88 tracks are there, no track has a true step and
    the visible ones are exactly the 25 contiguous rows C5 down to C3; and
    this is what the spectral method returns for silent input, whose
    spectrogram is flat. *)
Theorem fallback_shows_middle_band :
  (∀ ts, forallb hidden ts = true →
     Forall2 (λ t t',
                id_ t' = id_ t ∧ name t' = name t ∧ type_ t' = type_ t ∧
                steps t' = steps t ∧ mute t' = mute t ∧ solo t' = solo t ∧
                volume t' = volume t ∧ pan t' = pan t ∧
                settings t' = settings t ∧
                hidden t' = negb (in_band (name t)))
       ts (fallback ts)) ∧
  (∀ cfg ar,
     (∀ note, note ∈ PIANO_NOTES → active_notes_data ar !! note = None) →
     ∃ p, build_track_data cfg ar = Ok p ∧
          length (tracks p) = 88%nat ∧
          Forall (λ t, steps t = Py.repeat_list false (target_steps ar)
                       ∧ true_steps t = 0%nat) (tracks p) ∧
          total_true_steps p = 0%nat ∧
          name <$> List.filter (λ t, negb (hidden t)) (tracks p) = band_notes) ∧
  (∀ av cfg file_path tr p tr',
     method cfg = "librosa" →
     (∀ y sr C,
        cqt_db y sr (hop_length cfg) (use_harmonic_enhancement cfg) = Ok C →
        ∃ k v, flat k v C) →
     run av cfg file_path tr = (Ok p, tr') →
     length (tracks p) = 88%nat ∧
     total_true_steps p = 0%nat ∧
     name <$> List.filter (λ t, negb (hidden t)) (tracks p) = band_notes).
Proof.
  split; [|split].
  - intros ts Hall. unfold fallback. rewrite Hall.
    apply Forall2_fmap_r, Forall_Forall2_diag, Forall_forall.
    intros t Ht.
    pose proof (show_middle_fields t) as (?&?&?&?&?&?&?&?&?).
    repeat split; try done.
    rewrite show_middle_hidden.
    rewrite forallb_forall in Hall. rewrite Hall; [done|].
    by apply list_elem_of_In.
  - intros cfg ar Hnone. eexists. split; [by apply build_silent|].
    apply (silent_pattern cfg ar); [done | by apply build_silent].
  - intros av cfg file_path tr p tr' Hm Hflat Hrun. unfold run in Hrun.
    apply io_bind_ok in Hrun as (c & tr0 & Hc & Hrun).
    apply lift_ok in Hc as [Hc ->]. unfold new_converter in Hc.
    apply result_bind_ok in Hc as (_ & _ & [= <-]).
    unfold convert in Hrun.
    apply io_bind_ok in Hrun as ([y sr] & trl & _ & Hrun).
    apply io_bind_ok in Hrun as (t & trt & _ & Hrun).
    apply io_bind_ok in Hrun as (ar & tra & Ha & Hrun).
    apply lift_ok in Hrun as [Hb _].
    cbn [config] in Ha, Hb. rewrite Hm in Ha.
    cbn [String.eqb Ascii.eqb Bool.eqb] in Ha.
    apply librosa_inv in Ha as (sd & C & thr & d & _ & HC & Hex & _ & Hd).
    cbn [config] in HC, Hex.
    destruct (Hflat _ _ _ HC) as (k & v & HCflat).
    unfold extract in Hex.
    apply result_bind_ok in Hex as (max_db & _ & Hex).
    apply result_bind_ok in Hex as (fps & _ & Hex).
    apply result_bind_ok in Hex as (d0 & Hq & [= _ <-]).
    apply (quantize_flat k v) in Hq; [|done]. subst d0.
    destruct (silent_pattern cfg ar p) as (Hlen & _ & Htot & Hvis);
      [| done | done].
    intros note _. rewrite Hd. apply lookup_empty.
Qed.

End Silence.

(** ** The spectral path returns a pattern *)

Lemma getitem_ok {A} (l : list A) (i : Z) :
  0 ≤ i < Z.of_nat (length l) → ∃ x, Py.getitem l i = Ok x.
Proof.
  intros H. unfold Py.getitem.
  destruct (i <? 0) eqn:E; [apply Z.ltb_lt in E; lia|].
  destruct ((0 <=? i) && (i <? Z.of_nat (length l))) eqn:E2.
  2: { apply andb_false_iff in E2 as [?%Z.leb_gt|?%Z.ltb_ge]; lia. }
  destruct (lookup_lt_is_Some_2 l (Z.to_nat i)) as [x Hx]; [lia|].
  rewrite Hx. by exists x.
Qed.

Lemma getitem_of_lookup {A} (l : list A) (i : nat) (x : A) :
  l !! i = Some x → Py.getitem l (Z.of_nat i) = Ok x.
Proof.
  intros H. unfold Py.getitem.
  pose proof (lookup_lt_Some _ _ _ H) as Hlt.
  destruct (Z.of_nat i <? 0) eqn:E; [apply Z.ltb_lt in E; lia|].
  destruct ((0 <=? Z.of_nat i) && (Z.of_nat i <? Z.of_nat (length l))) eqn:E2.
  2: { apply andb_false_iff in E2 as [?%Z.leb_gt|?%Z.ltb_ge]; lia. }
  by rewrite Nat2Z.id, H.
Qed.

Lemma slice_nonempty {A} (l : list A) (a b : Z) :
  0 ≤ a < b → b ≤ Z.of_nat (length l) → Py.slice l a b ≠ [].
Proof.
  intros Ha Hb. unfold Py.slice, Py.slice_bound.
  destruct (a <? 0) eqn:E1; [apply Z.ltb_lt in E1; lia|].
  destruct (b <? 0) eqn:E2; [apply Z.ltb_lt in E2; lia|].
  rewrite !Z.min_l by lia.
  intros Hnil. apply (f_equal length) in Hnil.
  rewrite length_take, length_drop in Hnil. simpl in Hnil. lia.
Qed.

Lemma step_spectrum_of_ok C a b :
  0 ≤ a < Z.of_nat (length C) → a ≤ b →
  ∃ spec, step_spectrum_of C a b = Ok spec.
Proof.
  intros Ha Hab. unfold step_spectrum_of, column, max_pool.
  destruct (a =? b) eqn:E; [by apply getitem_ok|].
  apply Z.eqb_neq in E.
  pose proof (slice_nonempty C a (Z.min b (Z.of_nat (length C)))) as Hne.
  destruct (Py.slice C a _) as [|f fs]; [destruct Hne; [lia | lia | done]|].
  by eexists.
Qed.

(** Peaks are indices of the spectrum, so recording them cannot raise. *)
Lemma record_peaks_ok step spec thr d :
  ∃ d', Py.for_each (record_peak step spec) (find_peaks spec thr) d = Ok d'.
Proof.
  assert (∀ peaks, Forall (λ p, height_ok spec thr p = true) peaks →
            ∀ d, ∃ d', Py.for_each (record_peak step spec) peaks d = Ok d')
    as Hgen.
  { induction 1 as [|p peaks Hp _ IH]; intros d0; simpl; [by eexists|].
    unfold height_ok in Hp. unfold record_peak at 1.
    destruct (spec !! p) as [v|] eqn:E; [|done].
    rewrite (getitem_of_lookup _ _ _ E). simpl. apply IH. }
  apply Hgen. apply Forall_forall. intros p. apply find_peaks_height.
Qed.

Lemma int_mono x y : (0 <= x)%Q → (x <= y)%Q → Py.int x ≤ Py.int y.
Proof.
  intros Hx Hxy. unfold Py.int.
  assert (0 <= y)%Q as Hy by lra.
  apply Qle_bool_iff in Hx, Hy. rewrite Hx, Hy. by apply Qfloor_resp_le.
Qed.

Lemma quantize_ok C thr fps steps d :
  (0 <= fps)%Q → Forall (λ s, 0 ≤ s) steps →
  ∃ d', quantize C thr fps steps d = Ok d'.
Proof.
  intros Hfps Hsteps. revert d.
  induction Hsteps as [|s rest Hs _ IH]; intros d; simpl; [by eexists|].
  destruct (_ <=? _) eqn:Hbrk; [by eexists|]. apply Z.leb_gt in Hbrk.
  assert (0 <= inject_Z s)%Q as Hsq.
  { change 0%Q with (inject_Z 0). rewrite <- Zle_Qle. lia. }
  destruct (step_spectrum_of_ok C (Py.int (inject_Z s * fps))
              (Py.int ((inject_Z s + 1) * fps))) as [spec ->].
  - split; [|done]. apply int_nonneg. by apply Qmult_le_0_compat.
  - apply int_mono; [by apply Qmult_le_0_compat|]. nra.
  - simpl. destruct (record_peaks_ok s spec thr d) as [d1 ->]. simpl.
    apply IH.
Qed.

Lemma fill_steps_ok tgt l pat0 :
  Forall (λ s, 0 ≤ s) l → length pat0 = Z.to_nat tgt →
  ∃ pat, Py.for_each (fill_step tgt) l pat0 = Ok pat.
Proof.
  intros Hnn. revert pat0.
  induction Hnn as [|s l Hs _ IH]; intros pat0 Hlen; simpl; [by eexists|].
  unfold fill_step at 1. destruct (s <? tgt) eqn:Hlt; [|by apply IH].
  apply Z.ltb_lt in Hlt. unfold Py.setitem.
  destruct (s <? 0) eqn:Hneg; [apply Z.ltb_lt in Hneg; lia|].
  rewrite Hlen.
  destruct ((0 <=? s) && (s <? Z.of_nat (Z.to_nat tgt))) eqn:Hin.
  2: { apply andb_false_iff in Hin as [?%Z.leb_gt|?%Z.ltb_ge]; lia. }
  simpl. apply IH. by rewrite length_insert.
Qed.

Lemma fill_pattern_ok tgt ss :
  (∀ s, s ∈ ss → 0 ≤ s) → ∃ pat, fill_pattern tgt ss = Ok pat.
Proof.
  intros Hnn. unfold fill_pattern. apply fill_steps_ok.
  - apply Forall_forall. intros s Hs. apply Hnn. by apply elem_of_elements.
  - apply length_replicate.
Qed.

Lemma build_tracks_ok c tgt thr base d notes :
  (∀ note a, d !! note = Some a → ∀ s, s ∈ act_steps a → 0 ≤ s) →
  ∃ ts, build_tracks c tgt thr base d notes = Ok ts.
Proof.
  intros Hnn. induction notes as [|note notes [ts IH]]; simpl; [by eexists|].
  unfold build_track. destruct (d !! note) as [a|] eqn:E.
  - destruct (fill_pattern_ok tgt (act_steps a) (Hnn _ _ E)) as [pat ->].
    simpl. rewrite IH. by eexists.
  - simpl. rewrite IH. by eexists.
Qed.

(** The builder raises on no data whose steps are non-negative. *)
Lemma build_track_data_ok cfg ar :
  (∀ note a, active_notes_data ar !! note = Some a →
     ∀ s, s ∈ act_steps a → 0 ≤ s) →
  ∃ p, build_track_data cfg ar = Ok p.
Proof.
  intros Hnn. unfold build_track_data. rewrite note_to_midi_C4.
  cbn [mbind result_bind Py.bind].
  match goal with
  | |- context [build_tracks ?c ?g ?th ?b ?d ?n] =>
      destruct (build_tracks_ok c g th b d n Hnn) as [ts ->]
  end.
  by eexists.
Qed.

Lemma extract_ok cthr C sd sr hop tgt :
  concat C ≠ [] → (0 < sd)%Q → 0 < sr → 0 < hop →
  ∃ thr d, extract cthr C sd sr hop tgt = Ok (thr, d) ∧
           ∀ note a, d !! note = Some a → ∀ s, s ∈ act_steps a → 0 ≤ s.
Proof.
  intros HC Hsd Hsr Hhop. unfold extract, Np.max_list, frames_per_step_of.
  destruct (concat C) as [|x xs]; [done|]. cbn [mbind result_bind Py.bind].
  destruct (hop =? 0) eqn:E; [apply Z.eqb_eq in E; lia|].
  cbn [mbind result_bind Py.bind].
  set (fps := (sd * (inject_Z sr / inject_Z hop))%Q).
  assert (0 <= fps)%Q as Hfps.
  { unfold fps. apply Qmult_le_0_compat; [lra|].
    apply Qle_shift_div_l.
    - change 0%Q with (inject_Z 0). rewrite <- Zlt_Qlt. lia.
    - rewrite Qmult_0_l. change 0%Q with (inject_Z 0).
      rewrite <- Zle_Qle. lia. }
  destruct (quantize_ok C (foldl Qmax x xs - cthr) fps (Py.range 0 tgt) ∅ Hfps)
    as [d Hd].
  { apply Forall_forall. intros s Hs%elem_of_range. lia. }
  rewrite Hd. cbn [mbind result_bind Py.bind]. eexists _, d. split; [done|].
  intros note a Ha.
  pose proof (quantize_recorded (λ s, 0 ≤ s) _ _ _ _ _ _ Hd) as Hrec.
  destruct (Hrec) with (note := note) (a := a) as [Hnn _];
    [| apply recorded_empty | done | done].
  intros s Hs%elem_of_range _. lia.
Qed.

Section Progress.

Context `{Ext : Externals}.


End Progress.

(** * Further properties *)

(** ** The grid spans the audio *)

Lemma roundup16_bounds n : n ≤ (n + 15) `div` 16 * 16 ≤ n + 15.
Proof.
  pose proof (Z.div_mod (n + 15) 16 ltac:(lia)) as Hdm.
  pose proof (Z.mod_pos_bound (n + 15) 16 ltac:(lia)) as Hb. lia.
Qed.


(** ** Rounding of the tempo *)

Lemma round_near x :
  (x - (1 # 2) <= inject_Z (Py.round x) <= x + (1 # 2))%Q.
Proof.
  unfold Py.round.
  pose proof (Qfloor_le x) as Hlo. pose proof (Qlt_floor x) as Hhi.
  rewrite inject_Z_plus in Hhi. change (inject_Z 1) with 1%Q in Hhi.
  destruct (Qltb _ (1 # 2)) eqn:E1.
  { apply Qltb_lt in E1. split; lra. }
  apply Qltb_ge in E1.
  destruct (Qltb (1 # 2) _) eqn:E2.
  { apply Qltb_lt in E2. rewrite inject_Z_plus.
    change (inject_Z 1) with 1%Q. split; lra. }
  apply Qltb_ge in E2.
  destruct (Z.even (Qfloor x)).
  - split; lra.
  - rewrite inject_Z_plus. change (inject_Z 1) with 1%Q. split; lra.
Qed.

Lemma round_comp x y : (x == y)%Q → Py.round x = Py.round y.
Proof.
  intros E. unfold Py.round, Qltb. rewrite (Qfloor_comp _ _ E).
  assert (x - inject_Z (Qfloor y) == y - inject_Z (Qfloor y))%Q as E'
    by (rewrite E; reflexivity).
  by rewrite !E'.
Qed.

Lemma round_integer n : Py.round (inject_Z n) = n.
Proof.
  unfold Py.round. rewrite Qfloor_Z.
  destruct (Qltb _ (1 # 2)) eqn:E1; [done|].
  apply Qltb_ge in E1. lra.
Qed.

Lemma round_half_even n :
  Py.round (inject_Z n + (1 # 2)) = if Z.even n then n else n + 1.
Proof.
  unfold Py.round.
  assert (Qfloor (inject_Z n + (1 # 2)) = n) as ->.
  { apply Z.le_antisymm.
    - apply Z.lt_succ_r. rewrite Zlt_Qlt.
      eapply Qle_lt_trans; [apply Qfloor_le|].
      unfold Z.succ. rewrite inject_Z_plus. change (inject_Z 1) with 1%Q. lra.
    - rewrite <- (Qfloor_Z n) at 1. apply Qfloor_resp_le. lra. }
  destruct (Qltb _ (1 # 2)) eqn:E1; [apply Qltb_lt in E1; lra|].
  destruct (Qltb (1 # 2) _) eqn:E2; [apply Qltb_lt in E2; lra|]. done.
Qed.


(** ** Filling the step sequence: any step, negative ones included *)

Lemma fill_step_run tgt pat s :
  length pat = Z.to_nat tgt →
  (unwritable tgt s → fill_step tgt pat s = Raise IndexError) ∧
  (¬ unwritable tgt s →
   ∃ pat', fill_step tgt pat s = Ok pat' ∧ length pat' = length pat ∧
           ∀ i, pat' !! i = Some true ↔ pat !! i = Some true ∨ writes tgt i s).
Proof.
  intros Hlen. unfold unwritable, writes, fill_step, Py.setitem.
  rewrite Hlen. split.
  - intros [Hlt Hlow]. rewrite (proj2 (Z.ltb_lt _ _) Hlt).
    destruct (s <? 0) eqn:Hneg;
      [apply Z.ltb_lt in Hneg | apply Z.ltb_ge in Hneg; lia].
    destruct ((0 <=? _) && _) eqn:Hin; [|done].
    apply andb_true_iff in Hin as [?%Z.leb_le ?%Z.ltb_lt]. lia.
  - intros Hw. destruct (s <? tgt) eqn:Hlt.
    + apply Z.ltb_lt in Hlt.
      set (j := if s <? 0 then s + Z.of_nat (Z.to_nat tgt) else s).
      assert (0 ≤ j < Z.of_nat (Z.to_nat tgt) ∧
              (j = s ∧ 0 ≤ s ∨ j = s + tgt ∧ s < 0 ∧ 0 < tgt)) as [Hj Hcase].
      { unfold j. destruct (s <? 0) eqn:Hneg;
          [apply Z.ltb_lt in Hneg | apply Z.ltb_ge in Hneg]; lia. }
      destruct ((0 <=? j) && _) eqn:Hin.
      2: { apply andb_false_iff in Hin as [?%Z.leb_gt|?%Z.ltb_ge]; lia. }
      eexists. split; [done|]. split; [by rewrite length_insert|].
      intros i. rewrite list_lookup_insert, Hlen.
      destruct (decide (Z.to_nat j = i ∧ (Z.to_nat j < Z.to_nat tgt)%nat))
        as [[<- _]|Hne].
      * split; [intros _; right; lia | done].
      * split; [by left|]. intros [?|[? ?]]; [done|].
        destruct Hne. split; lia.
    + apply Z.ltb_ge in Hlt. eexists. split; [done|]. split; [done|].
      intros i. split; [by left|]. intros [?|[? ?]]; [done | lia].
Qed.

Lemma fill_steps_run tgt l pat0 :
  length pat0 = Z.to_nat tgt →
  (Exists (unwritable tgt) l →
   Py.for_each (fill_step tgt) l pat0 = Raise IndexError) ∧
  (Forall (λ s, ¬ unwritable tgt s) l →
   ∃ pat, Py.for_each (fill_step tgt) l pat0 = Ok pat ∧
          ∀ i, pat !! i = Some true ↔
               pat0 !! i = Some true ∨ ∃ s, s ∈ l ∧ writes tgt i s).
Proof.
  revert pat0. induction l as [|s l IH]; intros pat0 Hlen; simpl.
  - split; [by intros ?%Exists_nil|]. intros _. eexists. split; [done|].
    intros i. split; [by left|]. intros [?|(s & ?%elem_of_nil & _)]; done.
  - destruct (fill_step_run tgt pat0 s Hlen) as [Hbad Hgood].
    destruct (decide (unwritable tgt s)) as [Hu|Hu].
    { rewrite (Hbad Hu). split; [done|].
      intros [? _]%Forall_cons. done. }
    destruct (Hgood Hu) as (pat1 & -> & Hlen1 & Hpat1). simpl.
    destruct (IH pat1 (eq_trans Hlen1 Hlen)) as [IHbad IHgood]. split.
    + intros [?|?]%Exists_cons; [done | by apply IHbad].
    + intros [_ Hl]%Forall_cons. destruct (IHgood Hl) as (pat & -> & Hpat).
      eexists. split; [done|]. intros i. rewrite Hpat, Hpat1. split.
      * intros [[?|?]|(s' & ? & ?)]; [by left | ..].
        -- right. exists s. split; [left|]; done.
        -- right. exists s'. split; [by right | done].
      * intros [?|(s' & [->|?]%elem_of_cons & ?)];
          [by left; left | by left; right |].
        right. by exists s'.
Qed.

Lemma fill_pattern_run tgt ss :
  ((∃ s, s ∈ ss ∧ unwritable tgt s) → fill_pattern tgt ss = Raise IndexError) ∧
  ((∀ s, s ∈ ss → ¬ unwritable tgt s) →
   ∃ pat, fill_pattern tgt ss = Ok pat ∧
          ∀ i, pat !! i = Some true ↔ ∃ s, s ∈ ss ∧ writes tgt i s).
Proof.
  unfold fill_pattern.
  destruct (fill_steps_run tgt (elements ss) (Py.repeat_list false tgt))
    as [Hbad Hgood]; [apply length_replicate|].
  split.
  - intros (s & Hs & Hu). apply Hbad, Exists_exists. exists s.
    split; [by apply elem_of_elements | done].
  - intros Hall. destruct Hgood as (pat & -> & Hpat).
    { apply Forall_forall. intros s Hs%elem_of_elements. by apply Hall. }
    eexists. split; [done|]. intros i. rewrite Hpat. split.
    + intros [Hrep|(s & Hs%elem_of_elements & ?)]; [|by exists s].
      apply lookup_replicate in Hrep as [? _]. done.
    + intros (s & Hs & ?). right. exists s.
      split; [by apply elem_of_elements | done].
Qed.

Lemma build_track_run c tgt thr base d note :
  (∃ t, build_track c tgt thr base d note = Ok t) ∧
    (∀ a s, d !! note = Some a → s ∈ act_steps a → ¬ unwritable tgt s)
  ∨ build_track c tgt thr base d note = Raise IndexError ∧
    (∃ a s, d !! note = Some a ∧ s ∈ act_steps a ∧ unwritable tgt s).
Proof.
  unfold build_track. destruct (d !! note) as [a|] eqn:Ha.
  - destruct (fill_pattern_run tgt (act_steps a)) as [Hbad Hgood].
    destruct (decide (set_Exists (unwritable tgt) (act_steps a)))
      as [(s & Hs & Hu)|Hno].
    + right. rewrite Hbad by by exists s. split; [done|]. by exists a, s.
    + left. destruct Hgood as (pat & -> & _).
      { intros s Hs Hu. apply Hno. by exists s. }
      split; [by eexists|]. intros a' s [= <-] Hs Hu. apply Hno. by exists s.
  - left. split; [by eexists | done].
Qed.

Lemma build_tracks_run c tgt thr base d notes :
  (∃ ts, build_tracks c tgt thr base d notes = Ok ts) ∧
    (∀ note a s, note ∈ notes → d !! note = Some a → s ∈ act_steps a →
                 ¬ unwritable tgt s)
  ∨ build_tracks c tgt thr base d notes = Raise IndexError ∧
    (∃ note a s, note ∈ notes ∧ d !! note = Some a ∧ s ∈ act_steps a ∧
                 unwritable tgt s).
Proof.
  induction notes as [|note notes IH]; simpl.
  - left. split; [by eexists|]. by intros ? ? ? ?%elem_of_nil.
  - destruct (build_track_run c tgt thr base d note)
      as [[[t ->] Hok]|[-> (a & s & Ha & Hs & Hu)]]; simpl.
    2: { right. split; [done|]. exists note, a, s. by split; [left|]. }
    destruct IH as [[[ts ->] Hoks]|[-> (n & a & s & Hn & Ha & Hs & Hu)]];
      simpl.
    + left. split; [by eexists|].
      intros n a s [->|Hn]%elem_of_cons; [apply Hok | by apply Hoks].
    + right. split; [done|]. exists n, a, s. by split; [right|].
Qed.



(** ** The rows of a pattern *)

Lemma piano_notes_midi :
  note_to_midi <$> PIANO_NOTES = (λ i : nat, Ok (108 - Z.of_nat i)) <$> seq 0 88.
Proof. by vm_compute. Qed.

Lemma piano_notes_nodup : NoDup PIANO_NOTES.
Proof. apply (bool_decide_unpack _). by vm_compute. Qed.

Lemma piano_note_midi i note :
  PIANO_NOTES !! i = Some note → note_to_midi note = Ok (108 - Z.of_nat i).
Proof.
  intros Hi.
  assert ((note_to_midi <$> PIANO_NOTES) !! i = Some (note_to_midi note)) as H
    by (by rewrite list_lookup_fmap, Hi).
  rewrite piano_notes_midi, list_lookup_fmap in H.
  destruct (seq 0 88 !! i) as [k|] eqn:Hk; [|done].
  apply lookup_seq in Hk as [-> _]. by injection H as <-.
Qed.


(** ** The visible tracks *)

Lemma detected_unfold d :
  detected d
  = List.filter (λ note, bool_decide (is_Some (d !! note))) PIANO_NOTES.
Proof. reflexivity. Qed.

Lemma visible_names (h : string → bool) notes ts :
  Forall2 (λ note t, name t = note ∧ hidden t = h note) notes ts →
  name <$> List.filter (λ t, negb (hidden t)) ts
  = List.filter (λ note, negb (h note)) notes.
Proof.
  induction 1 as [|note t notes ts [Hn Hh] _ IH]; [done|].
  cbn [List.filter]. rewrite Hh.
  destruct (h note); cbn [negb]; [|rewrite fmap_cons, Hn]; by rewrite IH.
Qed.

Lemma filter_nil_none {A} (f : A → bool) (l : list A) :
  List.filter f l = [] ↔ ∀ x, x ∈ l → f x = false.
Proof.
  induction l as [|a l IH]; simpl.
  - split; [by intros _ ? ?%elem_of_nil | done].
  - destruct (f a) eqn:E.
    + split; [done|]. intros H. rewrite H in E; [done | left].
    + rewrite IH. split.
      * intros H x [->|?]%elem_of_cons; [done | by apply H].
      * intros H x ?. apply H. by right.
Qed.

Lemma visible_all_hidden cfg ar p :
  detected (active_notes_data ar) = [] →
  build_track_data cfg ar = Ok p →
  name <$> List.filter (λ t, negb (hidden t)) (tracks p) = band_notes.
Proof.
  intros Hdet Hb.
  assert (∀ note, note ∈ PIANO_NOTES → active_notes_data ar !! note = None)
    as Hnone.
  { intros note Hn. rewrite detected_unfold in Hdet.
    pose proof (proj1 (filter_nil_none _ _) Hdet note Hn) as Hf.
    apply bool_decide_eq_false in Hf. by apply eq_None_not_Some. }
  exact (proj2 (proj2 (proj2 (silent_pattern cfg ar p Hnone Hb)))).
Qed.

Lemma visible_some_detected cfg ar p n0 l0 :
  detected (active_notes_data ar) = n0 :: l0 →
  build_track_data cfg ar = Ok p →
  name <$> List.filter (λ t, negb (hidden t)) (tracks p)
  = detected (active_notes_data ar).
Proof.
  intros Hdet (_ & _ & ts & Hts & ->)%build_track_data_inv.
  assert (forallb hidden ts = false) as Hsome.
  { apply not_true_iff_false. intros Hall.
    rewrite (built_all_hidden _ _ _ _ _ _ _ Hts) in Hall.
    assert (n0 ∈ detected (active_notes_data ar)) as Hin
      by (rewrite Hdet; left).
    rewrite detected_unfold in Hin. apply list_elem_of_In, filter_In in Hin.
    destruct Hin as [Hin%list_elem_of_In Hsome%bool_decide_eq_true].
    rewrite (Hall _ Hin) in Hsome. by destruct Hsome. }
  unfold fallback. rewrite Hsome.
  rewrite (visible_names
             (λ note, bool_decide (active_notes_data ar !! note = None))
             PIANO_NOTES ts).
  - rewrite detected_unfold. apply filter_ext. intros note.
    destruct (active_notes_data ar !! note) eqn:E.
    + rewrite bool_decide_eq_false_2 by done.
      by rewrite bool_decide_eq_true_2.
    + rewrite bool_decide_eq_true_2 by done.
      rewrite bool_decide_eq_false_2; [done | by intros []].
  - eapply Forall2_impl; [exact Hts|]. intros note t Ht.
    cbn beta in Ht |- *. split.
    + apply build_track_inv in Ht as (_ & Hname & _). exact Hname.
    + by eapply build_track_hidden.
Qed.

Lemma band_notes_nonempty : band_notes ≠ [].
Proof. by rewrite band_notes_spelled. Qed.


(** ** The steps of a conversion *)

Section ConversionSteps.

Context `{Ext : Externals}.

Lemma convert_steps self file_path tr p tr' :
  convert self file_path tr = (Ok p, tr') →
  ∃ y sr t tr2 ar,
    path_exists file_path = true ∧ librosa_load file_path = Ok (y, sr) ∧
    detect_tempo self y sr (tr ++ [EvExists file_path; EvLoad file_path])
      = (Ok t, tr2) ∧
    analysis_of self file_path y sr t tr2 = (Ok ar, tr') ∧
    build_track_data (config self) ar = Ok p.
Proof.
  unfold convert. intros H. io_inv H. destruct a as [y sr].
  rewrite load_audio_run in Hrun.
  destruct (path_exists file_path) eqn:Hex; [|done].
  injection Hrun as Hload <-. io_inv H.
  apply lift_ok in H as [Hb ->].
  by exists y, sr, a, tr0, a0.
Qed.

Lemma run_steps av cfg file_path tr p tr' :
  run av cfg file_path tr = (Ok p, tr') →
  valid_config av cfg ∧
  convert {| config := cfg |} file_path tr = (Ok p, tr').
Proof.
  unfold run. intros H. io_inv H. apply lift_ok in Hrun as [Hc ->].
  unfold new_converter in Hc.
  apply result_bind_ok in Hc as ([] & Hv & [= <-]).
  split; [by apply validate_ok_iff | done].
Qed.

End ConversionSteps.

(** ** Note events *)

Lemma add_steps_lookup note mag l (d : gmap string NoteActivation) a0 k :
  d !! note = Some a0 →
  foldl (λ d step, add_activation note step mag d) d l !! k =
    if decide (note = k) then
      Some {| act_steps := list_to_set l ∪ act_steps a0;
              magnitudes := magnitudes a0 ++ replicate (length l) mag |}
    else d !! k.
Proof.
  revert d a0. induction l as [|s l IH]; intros d a0 Ha; simpl.
  - destruct (decide (note = k)) as [<-|]; [|done].
    rewrite Ha. f_equal. destruct a0 as [ss ms]. simpl.
    rewrite app_nil_r. f_equal. by rewrite union_empty_l_L.
  - erewrite IH.
    2: { unfold add_activation. rewrite lookup_alter, decide_True by done.
         by rewrite Ha. }
    destruct (decide (note = k)) as [<-|Hne].
    + simpl. f_equal. rewrite <- app_assoc. simpl. f_equal.
      by rewrite (comm_L (∪) {[s]} (list_to_set l)), <- (assoc_L (∪)).
    + unfold add_activation. rewrite lookup_alter, decide_False by done. done.
Qed.

Lemma add_note_lookup sd tgt note st en mag (d : gmap string NoteActivation) k :
  add_note sd tgt note st en mag d !! k =
    if decide (note = k) then
      let old := default empty_activation (d !! note) in
      let l := Py.range (Py.int (st / sd)) (Z.min (Py.int (en / sd) + 1) tgt) in
      Some {| act_steps := list_to_set l ∪ act_steps old;
              magnitudes := magnitudes old ++ replicate (length l) mag |}
    else d !! k.
Proof.
  unfold add_note.
  rewrite (add_steps_lookup note mag _ (ensure_note note d)
             (default empty_activation (d !! note))).
  - destruct (decide (note = k)) as [|Hne]; [done|].
    unfold ensure_note. destruct (d !! note); [done|].
    by rewrite lookup_insert_ne.
  - unfold ensure_note. destruct (d !! note) eqn:E; [done|].
    by rewrite lookup_insert_eq.
Qed.

Lemma length_range a b : length (Py.range a b) = Z.to_nat (b - a).
Proof. unfold Py.range. by rewrite length_fmap, length_seq. Qed.

(** What a list of notes leaves in the data, pitch by pitch. *)
Lemma add_notes_lookup sd tgt notes (d0 : gmap string NoteActivation) k :
  let d := add_notes sd tgt notes d0 in
  (is_Some (d !! k) ↔
   is_Some (d0 !! k) ∨ ∃ n, n ∈ notes ∧ tn_name n = k) ∧
  ∀ a, d !! k = Some a →
    (∀ s, s ∈ act_steps a ↔
          s ∈ act_steps (default empty_activation (d0 !! k)) ∨
          ∃ n, n ∈ notes ∧ tn_name n = k ∧ occupies sd tgt n s) ∧
    magnitudes a
    = magnitudes (default empty_activation (d0 !! k))
        ++ appended sd tgt k notes.
Proof.
  revert d0. induction notes as [|n notes IH]; intros d0; simpl.
  - split.
    + split; [by left|]. intros [?|(n & ?%elem_of_nil & _)]; done.
    + intros a Ha. rewrite Ha. simpl. split; [|by rewrite app_nil_r].
      intros s. split; [by left|].
      intros [?|(n & ?%elem_of_nil & _)]; done.
  - destruct (IH (add_note sd tgt (tn_name n) (tn_start n) (tn_end n)
                    (tn_mag n) d0)) as [IHdom IHval].
    pose proof (add_note_lookup sd tgt (tn_name n) (tn_start n) (tn_end n)
                  (tn_mag n) d0 k) as Hk.
    cbv zeta in Hk. split.
    + fold (add_notes sd tgt notes) in IHdom |- *.
      rewrite IHdom, Hk. destruct (decide (tn_name n = k)) as [Heq|Hne].
      * split; [|by intros _; left; eexists].
        intros _. right. exists n. split; [left|]; done.
      * split.
        -- intros [?|(n' & ? & ?)]; [by left|].
           right. exists n'. split; [by right | done].
        -- intros [?|(n' & [->|?]%elem_of_cons & ?)];
             [by left | done | right; by exists n'].
    + intros a Ha. fold (add_notes sd tgt notes) in Ha.
      destruct (IHval a Ha) as [Hsteps Hmags]. rewrite Hk in Hsteps, Hmags.
      destruct (decide (tn_name n = k)) as [Heq|Hne]; simpl in *.
      * split.
        -- intros s. rewrite Hsteps, elem_of_union, elem_of_list_to_set,
             elem_of_range, Heq. split.
           ++ intros [[?|?]|(n' & ? & ? & ?)]; [| by left |].
              ** right. exists n. split; [left|]; done.
              ** right. exists n'. split; [by right | done].
           ++ intros [?|(n' & [->|?]%elem_of_cons & ? & ?)];
                [by left; right | by left; left |].
              right. by exists n'.
        -- rewrite Hmags, Heq, <- app_assoc. f_equal. f_equal.
           by rewrite length_range.
      * split; [|done]. intros s. rewrite Hsteps. split.
        -- intros [?|(n' & ? & ? & ?)]; [by left|].
           right. exists n'. split; [by right | done].
        -- intros [?|(n' & [->|?]%elem_of_cons & ? & ?)];
             [by left | done | right; by exists n'].
Qed.

Lemma foldl_concat {A B} (f : A → B → A) (a : A) (ls : list (list B)) :
  foldl (λ a l, foldl f a l) a ls = foldl f a (concat ls).
Proof.
  revert a. induction ls as [|l ls IH]; intros a; simpl; [done|].
  by rewrite foldl_app, IH.
Qed.

Section Adapters.

Context `{Ext : Externals}.

Lemma basic_pitch_inv self file_path t tr ar tr' :
  analyze_with_basic_pitch self file_path t tr = (Ok ar, tr') →
  ∃ events sd y sr,
    predict file_path (min_note_duration (config self) * 1000) = Ok events ∧
    step_duration_of t = Ok sd ∧
    path_exists file_path = true ∧ librosa_load file_path = Ok (y, sr) ∧
    tempo ar = t ∧ step_duration ar = sd ∧ result_threshold_db ar = None ∧
    target_steps ar
      = target_steps_of (max_steps (config self))
          (total_steps_of (get_duration y sr) sd) ∧
    active_notes_data ar
      = add_notes sd (target_steps ar) (of_event <$> events) ∅ ∧
    tr' = tr ++ [EvBasicPitch file_path; EvExists file_path;
                 EvLoad file_path].
Proof.
  unfold analyze_with_basic_pitch. intros H. io_inv H.
  rewrite emit_run in Hrun. injection Hrun as _ <-.
  apply lift_ok in Hrun0 as [Hp ->]. apply lift_ok in Hrun1 as [Hsd ->].
  destruct a2 as [y sr]. rewrite load_audio_run in Hrun2.
  destruct (path_exists file_path) eqn:Hex; [|done].
  injection Hrun2 as Hload <-. injection H as <- <-.
  exists a0, a1, y, sr. cbn [tempo step_duration result_threshold_db
                              target_steps active_notes_data].
  repeat split; try done.
  - unfold add_notes. by rewrite foldl_fmap.
  - by rewrite <- app_assoc.
Qed.

Lemma pop2piano_inv self file_path t tr ar tr' :
  analyze_with_pop2piano self file_path t tr = (Ok ar, tr') →
  ∃ outputs sd y0 sr0 y sr,
    pop2piano_pretrained = Ok tt ∧
    path_exists file_path = true ∧ librosa_load file_path = Ok (y0, sr0) ∧
    (y, sr) = (if negb (sr0 =? 16000) then (resample y0 sr0, 16000)
               else (y0, sr0)) ∧
    pop2piano y sr = Ok outputs ∧
    step_duration_of t = Ok sd ∧
    tempo ar = t ∧ step_duration ar = sd ∧ result_threshold_db ar = None ∧
    target_steps ar
      = target_steps_of (max_steps (config self))
          (total_steps_of (get_duration y sr) sd) ∧
    active_notes_data ar
      = add_notes sd (target_steps ar) (of_midi_note <$> concat outputs) ∅ ∧
    tr' = tr ++ [EvPop2Piano; EvExists file_path; EvLoad file_path].
Proof.
  unfold analyze_with_pop2piano. intros H. io_inv H.
  rewrite emit_run in Hrun. injection Hrun as _ <-.
  apply lift_ok in Hrun0 as [Hp ->]. destruct a0.
  destruct a1 as [y0 sr0]. rewrite load_audio_run in Hrun1.
  destruct (path_exists file_path) eqn:Hex; [|done].
  injection Hrun1 as Hload <-.
  destruct (if negb (sr0 =? 16000) then (resample y0 sr0, 16000)
            else (y0, sr0)) as [y sr] eqn:Hrs.
  io_inv H. apply lift_ok in Hrun as [Hout ->].
  apply lift_ok in Hrun0 as [Hsd ->]. injection H as <- <-.
  exists a0, a1, y0, sr0, y, sr.
  cbn [tempo step_duration result_threshold_db target_steps
         active_notes_data].
  repeat split; try done.
  - unfold add_notes. by rewrite foldl_concat, foldl_fmap.
  - by rewrite <- app_assoc.
Qed.

End Adapters.

Lemma add_notes_from_empty sd tgt notes k :
  let d := add_notes sd tgt notes ∅ in
  (is_Some (d !! k) ↔ ∃ n, n ∈ notes ∧ tn_name n = k) ∧
  ∀ a, d !! k = Some a →
    (∀ s, s ∈ act_steps a ↔
          ∃ n, n ∈ notes ∧ tn_name n = k ∧ occupies sd tgt n s) ∧
    magnitudes a = appended sd tgt k notes.
Proof.
  destruct (add_notes_lookup sd tgt notes ∅ k) as [Hdom Hval]. split.
  - rewrite Hdom, lookup_empty. split; [|by right].
    intros [[? ?]|?]; done.
  - intros a Ha. destruct (Hval a Ha) as [Hs Hm].
    rewrite lookup_empty in Hs, Hm. simpl in Hs, Hm. split; [|done].
    intros s. rewrite Hs. split; [|by right].
    intros [?%elem_of_empty|?]; done.
Qed.

Section AdapterProperties.

Context `{Ext : Externals}.



End AdapterProperties.

(** ** Spelling of the pitch names *)

Lemma pretty_N_go_head x s : no_sharp_head s → no_sharp_head (pretty_N_go x s).
Proof.
  revert s. induction (N.lt_wf_0 x) as [x _ IH]; intros s Hs.
  assert (x = 0 ∨ 0 < x)%N as [->|Hpos] by lia.
  - by rewrite pretty_N_go_0.
  - rewrite pretty_N_go_step by done. apply IH; [by apply N.div_lt|].
    simpl. unfold pretty_N_char. by repeat case_match.
Qed.

Lemma pretty_N_head (x : N) : no_sharp_head (pretty x).
Proof.
  unfold pretty, pretty_N. case_decide; [done|].
  rewrite pretty_N_go_step by lia. apply pretty_N_go_head.
  simpl. unfold pretty_N_char. by repeat case_match.
Qed.

Lemma pretty_Z_head (z : Z) : no_sharp_head (pretty z).
Proof.
  destruct z as [|p|p]; [done | apply pretty_N_head | done].
Qed.

Lemma ascii_sharp_letter (c : ascii) (s : string) :
  no_sharp_head s → ascii_sharp (String c s) = false.
Proof. destruct s as [|c' s]; [done|]. simpl. intros H. by repeat case_match. Qed.

(** Whatever the pitch, [midi_to_note] never writes an ASCII sharp. *)
Lemma midi_to_note_spelling midi : ascii_sharp (midi_to_note midi) = false.
Proof.
  unfold midi_to_note.
  pose proof (Z.mod_pos_bound midi 12 ltac:(lia)) as Hb.
  pose proof (pretty_Z_head (midi `quot` 12 - 1)) as Hp.
  set (o := pretty _) in *. clearbody o.
  assert (Z.to_nat (midi `mod` 12) < 12)%nat as Hk by lia.
  destruct (Z.to_nat (midi `mod` 12)) as [|[|[|[|[|[|[|[|[|[|[|[|k]]]]]]]]]]]];
    try lia; try (by apply ascii_sharp_letter); done.
Qed.

Lemma black_keys :
  List.filter ascii_sharp PIANO_NOTES =
    ["A#7"; "G#7"; "F#7"; "D#7"; "C#7"; "A#6"; "G#6"; "F#6"; "D#6"; "C#6";
     "A#5"; "G#5"; "F#5"; "D#5"; "C#5"; "A#4"; "G#4"; "F#4"; "D#4"; "C#4";
     "A#3"; "G#3"; "F#3"; "D#3"; "C#3"; "A#2"; "G#2"; "F#2"; "D#2"; "C#2";
     "A#1"; "G#1"; "F#1"; "D#1"; "C#1"; "A#0"].
Proof. reflexivity. Qed.

Lemma record_peak_bins (B : nat → Prop) step spec d bin d' :
  record_peak step spec d bin = Ok d' → B bin →
  from_bins B d → from_bins B d'.
Proof.
  intros (mag & _ & ->)%record_peak_inv Hb Hd k a. rewrite lookup_record.
  destruct (decide (bin_to_note bin = k)) as [<-|]; [|apply Hd].
  intros _. by exists bin.
Qed.

Lemma record_peaks_bins (B : nat → Prop) step spec peaks d d' :
  Py.for_each (record_peak step spec) peaks d = Ok d' → Forall B peaks →
  from_bins B d → from_bins B d'.
Proof.
  revert d. induction peaks as [|bin peaks IH]; intros d; simpl.
  - by intros [= <-].
  - intros H [Hb Hpk]%Forall_cons Hd.
    destruct (record_peak step spec d bin) as [d1|] eqn:E; [|done].
    eapply IH; [exact H | done |]. by eapply record_peak_bins.
Qed.

Lemma quantize_bins (B : nat → Prop) C thr fps steps d d' :
  quantize C thr fps steps d = Ok d' →
  (∀ a b spec bin, step_spectrum_of C a b = Ok spec →
                   bin ∈ find_peaks spec thr → B bin) →
  from_bins B d → from_bins B d'.
Proof.
  intros H HB. revert d H. induction steps as [|step rest IH]; intros d; simpl.
  - by intros [= <-].
  - destruct (_ <=? _); [by intros [= <-]|]. intros H Hd.
    apply result_bind_ok in H as (spec & Hspec & H).
    apply result_bind_ok in H as (d1 & Hrec & H).
    eapply IH; [exact H|]. eapply record_peaks_bins; [exact Hrec | | exact Hd].
    apply Forall_forall. intros bin Hbin. by eapply HB.
Qed.

(** *** Peaks are interior samples *)

Lemma local_maxima_from_interior i prev plateau xs p :
  (1 ≤ i)%nat → (∀ l, plateau = Some l → (1 ≤ l < i)%nat) →
  p ∈ local_maxima_from i prev plateau xs →
  (1 ≤ p ∧ p + 2 ≤ i + length xs)%nat.
Proof.
  revert i prev plateau p. induction xs as [|x rest IH];
    intros i prev plateau p Hi Hpl; cbn [local_maxima_from length];
    [by intros ?%elem_of_nil|].
  destruct plateau as [l|].
  - specialize (Hpl l eq_refl). destruct (Qeqb x prev).
    { intros Hp. apply IH in Hp; [lia | lia |].
      intros l' [= <-]. lia. }
    destruct (Qltb x prev).
    + intros [->|Hp]%elem_of_cons.
      * split.
        -- apply Nat.div_le_lower_bound; lia.
        -- assert ((l + (i - 1)) / 2 ≤ i - 1)%nat; [|lia].
           apply Nat.Div0.div_le_upper_bound. lia.
      * apply IH in Hp; [lia | lia | done].
    + intros Hp. apply IH in Hp; [lia | lia |].
      intros l' [= <-]. lia.
  - destruct (Qltb prev x); intros Hp; apply IH in Hp; try lia; try done.
    intros l' [= <-]. lia.
Qed.

Lemma find_peaks_interior x h p :
  p ∈ find_peaks x h → (1 ≤ p ∧ p + 2 ≤ length x)%nat.
Proof.
  unfold find_peaks. rewrite list_elem_of_In, filter_In.
  intros [Hp%list_elem_of_In _]. unfold local_maxima in Hp.
  destruct x as [|x0 rest]; [by apply elem_of_nil in Hp|].
  apply local_maxima_from_interior in Hp; [simpl; lia | lia | done].
Qed.

Lemma max_pool_length n f fs :
  length f = n → Forall (λ g, length g = n) fs →
  length (foldl (zip_with Qmax) f fs) = n.
Proof.
  intros Hf Hfs. revert f Hf. induction Hfs as [|g fs Hg _ IH]; intros f Hf;
    simpl; [done|].
  apply IH. rewrite length_zip_with. lia.
Qed.

Lemma step_spectrum_length n C a b spec :
  Forall (λ f, length f = n) C → step_spectrum_of C a b = Ok spec →
  length spec = n.
Proof.
  intros HC. unfold step_spectrum_of, column, max_pool.
  destruct (a =? b).
  - intros H%getitem_elem. rewrite Forall_forall in HC. by apply HC.
  - pose proof (Forall_slice _ C a (Z.min b (Z.of_nat (length C))) HC) as Hs.
    destruct (Py.slice C a _) as [|f fs]; [done|].
    apply Forall_cons in Hs as [Hf Hfs]. intros [= <-].
    by apply max_pool_length.
Qed.

Lemma add_notes_spelled sd tgt notes :
  Forall (λ n, ∃ midi, tn_name n = midi_to_note midi) notes →
  librosa_spelled (add_notes sd tgt notes ∅).
Proof.
  intros Hn k a Ha.
  destruct (add_notes_from_empty sd tgt notes k) as [Hdom _].
  destruct (proj1 Hdom (mk_is_Some _ _ Ha)) as (n & Hin & <-).
  rewrite Forall_forall in Hn. by apply Hn.
Qed.

(** A track whose name has no record, in a pattern the builder returns. *)
Lemma unrecorded_track cfg ar p t :
  build_track_data cfg ar = Ok p → t ∈ tracks p →
  active_notes_data ar !! name t = None →
  steps t = Py.repeat_list false (stepCount p) ∧ true_steps t = 0%nat ∧
  volume t = (-5)%Q.
Proof.
  intros (_ & -> & ts & Hts & ->)%build_track_data_inv Ht Hnone.
  pose proof (fallback_fields ts) as Hfb.
  apply list_elem_of_lookup in Ht as [i Hi].
  destruct (Forall2_lookup_r _ _ _ _ _ Hfb Hi) as (t0 & Ht0 & Hf).
  destruct (Forall2_lookup_r _ _ _ _ _ Hts Ht0) as (note & _ & Hb).
  destruct Hf as (_ & Hname & _ & Hsteps & _ & _ & Hvol & _).
  apply build_track_inv in Hb as (_ & Hn & _ & _ & _ & _ & _ & _ & Hd).
  rewrite Hname, Hn in Hnone. rewrite Hnone in Hd.
  destruct Hd as (Hs & Hv & _).
  assert (steps t = Py.repeat_list false (target_steps ar)) as Est
    by congruence.
  split; [done|]. split; [|by rewrite Hvol, Hv].
  unfold true_steps. rewrite Est.
  apply (true_steps_quiet (target_steps ar) note).
Qed.

Section Spelling.

Context `{Ext : Externals}.

Lemma librosa_bins (B : nat → Prop) self y sr t tr ar tr' :
  analyze_with_librosa self y sr t tr = (Ok ar, tr') →
  (∀ C a b spec thr bin,
     cqt_db y sr (hop_length (config self))
       (use_harmonic_enhancement (config self)) = Ok C →
     step_spectrum_of C a b = Ok spec → bin ∈ find_peaks spec thr → B bin) →
  from_bins B (active_notes_data ar).
Proof.
  intros (sd & C & thr & d & _ & HC & Hex & _ & ->)%librosa_inv HB.
  unfold extract in Hex.
  apply result_bind_ok in Hex as (max_db & _ & Hex).
  apply result_bind_ok in Hex as (fps & _ & Hex).
  apply result_bind_ok in Hex as (d0 & Hq & [= _ <-]).
  eapply quantize_bins; [exact Hq | | by intros k a ?].
  intros a b spec bin Hs Hb. by eapply HB.
Qed.

Lemma analysis_spelled self file_path y sr t tr ar tr' :
  analysis_of self file_path y sr t tr = (Ok ar, tr') →
  librosa_spelled (active_notes_data ar).
Proof.
  unfold analysis_of. destruct (String.eqb _ "basic_pitch").
  { intros (events & sd & _ & _ & _ & _ & _ & _ & _ & _ & _ & _ & -> & _)
      %basic_pitch_inv.
    apply add_notes_spelled, Forall_fmap, Forall_forall.
    intros ev _. by eexists. }
  destruct (String.eqb _ "pop2piano").
  { intros (outs & sd & _ & _ & _ & _ & _ & _ & _ & _ & _ & _ & _ & _ & _
            & _ & -> & _)%pop2piano_inv.
    apply add_notes_spelled, Forall_fmap, Forall_forall.
    intros n _. by eexists. }
  intros H k a Ha.
  destruct (librosa_bins (λ _, True) _ _ _ _ _ _ _ H) with (k := k) (a := a)
    as (bin & _ & ->); [done | done |].
  by eexists.
Qed.


End Spelling.

Lemma interior_bin_names bin :
  interior_bin bin → bin_to_note bin ≠ "A0" ∧ bin_to_note bin ≠ "C8".
Proof.
  intros [Hlo Hhi].
  assert (forallb (λ b, negb (String.eqb (bin_to_note b) "A0")
                        && negb (String.eqb (bin_to_note b) "C8"))
            (seq 1 86) = true) as Hall by (by vm_compute).
  rewrite forallb_forall in Hall.
  specialize (Hall bin). rewrite andb_true_iff, !negb_true_iff in Hall.
  destruct Hall as [H1 H2]; [apply in_seq; lia|].
  by apply String.eqb_neq in H1, H2.
Qed.

Section Edges.

Context `{Ext : Externals}.


End Edges.

(** ** Volume of the tracks built from note events *)

Lemma sum_nonneg xs : Forall (λ m, (0 <= m)%Q) xs → (0 <= Np.sum xs)%Q.
Proof.
  induction 1 as [|x xs Hx _ IH]; unfold Np.sum in *; simpl in *; lra.
Qed.

Lemma round_nonneg x : (0 <= x)%Q → 0 ≤ Py.round x.
Proof.
  intros Hx. destruct (round_near x) as [Hlo _].
  assert (-1 < Py.round x); [|lia].
  rewrite Zlt_Qlt. change (inject_Z (-1)) with (-1)%Q. lra.
Qed.

Lemma round1_nonneg x : (0 <= x)%Q → (0 <= Py.round1 x)%Q.
Proof.
  intros Hx. unfold Py.round1.
  assert (0 <= inject_Z (Py.round (x * 10)))%Q as H.
  { change 0%Q with (inject_Z 0). rewrite <- Zle_Qle.
    apply round_nonneg. lra. }
  apply Qle_shift_div_l; lra.
Qed.

(** Without a [threshold_db] entry in the analysis result the builder
    falls back on [-config.threshold_db]; with a positive margin this is a
    negative float, the dB normalisation is taken, and magnitudes that are
    not negative come out at or above 0 dB. *)
Lemma track_volume_of_amplitudes c mags :
  (0 < c)%Q → Forall (λ m, (0 <= m)%Q) mags →
  track_volume c (PyFloat (- c)) mags = 0%Q.
Proof.
  intros Hc Hm. unfold track_volume, raw_volume.
  assert (Qltb (- c) 0 = true) as -> by (apply Qltb_lt; lra).
  destruct mags as [|m mags]; [done|].
  unfold Np.mean. set (avg := (Np.sum (m :: mags) / _)%Q).
  assert (0 <= avg)%Q as Havg.
  { unfold avg. apply Qle_shift_div_l.
    - change 0%Q with (inject_Z 0). rewrite <- Zlt_Qlt. simpl length. lia.
    - rewrite Qmult_0_l. by apply sum_nonneg. }
  cbn [Np.sub_fin Np.div_fin].
  assert (Qeqb c 0 = false) as -> by (apply Qeqb_neq; lra).
  cbn [Np.mul_fin Np.add_fin Np.round1].
  set (v := Py.round1 _).
  assert (0 <= v)%Q as Hv.
  { apply round1_nonneg.
    assert ((avg - - c) / c == avg / c + 1)%Q as -> by (field; lra).
    assert (0 <= avg / c)%Q by (apply Qle_shift_div_l; lra). lra. }
  unfold Np.clamp. cbn [Np.lt_fin_r].
  assert (Qltb v 0 = false) as -> by (by apply Qltb_ge).
  done.
Qed.

(** A pattern built from an analysis result without [threshold_db] entry
    (what the two note-event methods return), for a positive margin and
    magnitudes that are not negative. *)
Lemma amplitude_tracks_volume cfg ar p t :
  (0 < threshold_db cfg)%Q → result_threshold_db ar = None →
  (∀ k a, active_notes_data ar !! k = Some a →
          Forall (λ m, (0 <= m)%Q) (magnitudes a)) →
  build_track_data cfg ar = Ok p → t ∈ tracks p →
  volume t = match active_notes_data ar !! name t with
             | Some _ => 0%Q
             | None => (-5)%Q
             end.
Proof.
  intros Hc Hnone Hmags (_ & _ & ts & Hts & ->)%build_track_data_inv Ht.
  pose proof (fallback_fields ts) as Hfb. rewrite Hnone in Hts. simpl in Hts.
  apply list_elem_of_lookup in Ht as [i Hi].
  destruct (Forall2_lookup_r _ _ _ _ _ Hfb Hi) as (t0 & Ht0 & Hf).
  destruct (Forall2_lookup_r _ _ _ _ _ Hts Ht0) as (note & _ & Hb).
  destruct Hf as (_ & -> & _ & _ & _ & _ & -> & _).
  apply build_track_inv in Hb as (_ & -> & _ & _ & _ & _ & _ & _ & Hd).
  destruct (active_notes_data ar !! note) as [a|] eqn:Ha.
  - destruct Hd as (_ & -> & _). apply track_volume_of_amplitudes; [done|].
    by eapply Hmags.
  - by destruct Hd as (_ & -> & _).
Qed.

Lemma appended_Forall (P : Q → Prop) sd tgt k notes :
  Forall (λ n, P (tn_mag n)) notes → Forall P (appended sd tgt k notes).
Proof.
  unfold appended. induction 1 as [|n notes Hn _ IH]; simpl; [done|].
  apply Forall_app. split; [|done].
  destruct (decide (tn_name n = k)); [|done].
  by apply Forall_replicate.
Qed.

Lemma add_notes_magnitudes (P : Q → Prop) sd tgt notes k a :
  Forall (λ n, P (tn_mag n)) notes →
  add_notes sd tgt notes ∅ !! k = Some a → Forall P (magnitudes a).
Proof.
  intros Hn Ha.
  destruct (add_notes_from_empty sd tgt notes k) as [_ Hval].
  destruct (Hval a Ha) as [_ ->]. by apply appended_Forall.
Qed.

Section NoteEventVolume.

Context `{Ext : Externals}.


End NoteEventVolume.

(** ** External calls *)

Section Calls.

Context `{Ext : Externals}.

Lemma detect_tempo_calls self y sr tr t tr' :
  detect_tempo self y sr tr = (Ok t, tr') → tr' = tr ++ tempo_calls self.
Proof.
  unfold tempo_calls. destruct (truthy _) eqn:Ht.
  - unfold detect_tempo. rewrite Ht. intros [= _ <-]. by rewrite app_nil_r.
  - rewrite detect_tempo_estimate by done. unfold estimated.
    by destruct (beat_track y sr); intros [= _ <-].
Qed.

Lemma librosa_calls self y sr t tr ar tr' :
  analyze_with_librosa self y sr t tr = (Ok ar, tr') →
  tr' = tr ++ [EvSpectrum].
Proof.
  unfold analyze_with_librosa. intros H. io_inv H.
  apply lift_ok in Hrun as [_ ->]. rewrite emit_run in Hrun0.
  injection Hrun0 as _ <-. apply lift_ok in Hrun1 as [_ ->].
  apply lift_ok in Hrun2 as [_ ->]. destruct a2. by injection H as _ <-.
Qed.


End Calls.

(** ** The note-event methods return a pattern *)

Lemma add_notes_nonneg sd tgt notes :
  (0 < sd)%Q → Forall (λ n, (0 <= tn_start n)%Q) notes →
  ∀ k a, add_notes sd tgt notes ∅ !! k = Some a →
         ∀ s, s ∈ act_steps a → 0 ≤ s.
Proof.
  intros Hsd Hn k a Ha s Hs.
  destruct (add_notes_from_empty sd tgt notes k) as [_ Hval].
  destruct (Hval a Ha) as [Hsteps _].
  apply Hsteps in Hs as (n & Hin & _ & [Hlo _]).
  rewrite Forall_forall in Hn. specialize (Hn n Hin). simpl in Hn.
  assert (0 ≤ first_step sd n); [|lia].
  apply int_nonneg, Qle_shift_div_l; lra.
Qed.

Section NoteEventProgress.

Context `{Ext : Externals}.

Lemma basic_pitch_run self file_path t tr events sd y sr :
  predict file_path (min_note_duration (config self) * 1000) = Ok events →
  step_duration_of t = Ok sd →
  path_exists file_path = true → librosa_load file_path = Ok (y, sr) →
  ∃ ar tr',
    analyze_with_basic_pitch self file_path t tr = (Ok ar, tr') ∧
    active_notes_data ar
    = add_notes sd (target_steps ar) (of_event <$> events) ∅.
Proof.
  intros Hp Hsd Hex Hload. unfold analyze_with_basic_pitch.
  erewrite io_bind_run; [|apply emit_run].
  erewrite io_bind_run; [|by unfold lift; rewrite Hp].
  erewrite io_bind_run; [|by unfold lift; rewrite Hsd].
  erewrite io_bind_run; [|by rewrite load_audio_run, Hex, Hload].
  cbv beta iota. eexists _, _. split; [done|].
  cbn [active_notes_data target_steps]. unfold add_notes.
  by rewrite foldl_fmap.
Qed.

Lemma pop2piano_run self file_path t tr outputs sd y0 sr0 :
  pop2piano_pretrained = Ok tt →
  path_exists file_path = true → librosa_load file_path = Ok (y0, sr0) →
  pop2piano (if sr0 =? 16000 then y0 else resample y0 sr0) 16000
    = Ok outputs →
  step_duration_of t = Ok sd →
  ∃ ar tr',
    analyze_with_pop2piano self file_path t tr = (Ok ar, tr') ∧
    active_notes_data ar
    = add_notes sd (target_steps ar) (of_midi_note <$> concat outputs) ∅.
Proof.
  intros Hpre Hex Hload Hout Hsd. unfold analyze_with_pop2piano.
  erewrite io_bind_run; [|apply emit_run].
  erewrite io_bind_run; [|by unfold lift; rewrite Hpre].
  erewrite io_bind_run; [|by rewrite load_audio_run, Hex, Hload].
  cbv beta iota.
  destruct (sr0 =? 16000) eqn:E; cbn [negb].
  - apply Z.eqb_eq in E. subst sr0.
    erewrite io_bind_run; [|by unfold lift; rewrite Hout].
    erewrite io_bind_run; [|by unfold lift; rewrite Hsd].
    eexists _, _. split; [done|].
    cbn [active_notes_data target_steps]. unfold add_notes.
    by rewrite foldl_concat, foldl_fmap.
  - erewrite io_bind_run; [|by unfold lift; rewrite Hout].
    erewrite io_bind_run; [|by unfold lift; rewrite Hsd].
    eexists _, _. split; [done|].
    cbn [active_notes_data target_steps]. unfold add_notes.
    by rewrite foldl_concat, foldl_fmap.
Qed.


End NoteEventProgress.

(** ** A negative override *)

Lemma step_duration_of_neg tempo sd :
  (tempo < 0)%Q → step_duration_of tempo = Ok sd → (sd < 0)%Q.
Proof.
  unfold step_duration_of. intros Hneg.
  destruct (Qeqb tempo 0); [done|]. intros [= <-].
  assert (60 / tempo / 4 == - (15 / - tempo))%Q as -> by (field; lra).
  assert (0 < 15 / - tempo)%Q; [|lra].
  apply Qlt_shift_div_l; lra.
Qed.

Lemma total_steps_of_nonpos dur sd :
  (0 <= dur)%Q → (sd < 0)%Q → total_steps_of dur sd ≤ 0.
Proof.
  intros Hd Hs. unfold total_steps_of, Py.ceil.
  change 0 with (Qceiling (inject_Z 0)). apply Qceiling_resp_le.
  change (inject_Z 0) with 0%Q.
  assert (dur / sd == - (dur / - sd))%Q as -> by (field; lra).
  assert (0 <= dur / - sd)%Q; [|lra].
  apply Qle_shift_div_l; lra.
Qed.

Lemma target_steps_of_nonpos m ts : ts ≤ 0 → target_steps_of m ts ≤ 0.
Proof.
  intros Hts. unfold target_steps_of.
  assert ((ts + 15) `div` 16 ≤ 0); [|lia].
  apply Z.lt_succ_r, Z.div_lt_upper_bound; lia.
Qed.

Lemma range_empty a b : b ≤ a → Py.range a b = [].
Proof. intros H. unfold Py.range. by replace (Z.to_nat (b - a)) with 0%nat by lia. Qed.

Section NegativeOverride.

Context `{Ext : Externals}.


End NegativeOverride.

(** ** Volume of the tracks of the spectral method *)

Lemma round_mono x y : (x <= y)%Q → Py.round x ≤ Py.round y.
Proof.
  intros Hle. apply Qle_lteq in Hle as [Hlt|Heq].
  - destruct (round_near x) as [_ Hx]. destruct (round_near y) as [Hy _].
    assert (Py.round x < Py.round y + 1); [|lia].
    rewrite Zlt_Qlt, inject_Z_plus. change (inject_Z 1) with 1%Q. lra.
  - by rewrite (round_comp _ _ Heq).
Qed.

Lemma round1_mono x y : (x <= y)%Q → (Py.round1 x <= Py.round1 y)%Q.
Proof.
  intros Hle. unfold Py.round1.
  assert (inject_Z (Py.round (x * 10)) <= inject_Z (Py.round (y * 10)))%Q as H.
  { rewrite <- Zle_Qle. apply round_mono. lra. }
  apply Qmult_le_r with (z := 10%Q); [lra|].
  assert (∀ a, a / 10 * 10 == a)%Q as E by (intros; field).
  by rewrite !E.
Qed.

Lemma sum_ge thr xs :
  Forall (λ m, (thr <= m)%Q) xs →
  (thr * inject_Z (Z.of_nat (length xs)) <= Np.sum xs)%Q.
Proof.
  unfold Np.sum. induction 1 as [|x xs Hx _ IH]; cbn [length foldr].
  - change (inject_Z (Z.of_nat 0)) with 0%Q. lra.
  - rewrite Nat2Z.inj_succ. unfold Z.succ. rewrite inject_Z_plus.
    change (inject_Z 1) with 1%Q. lra.
Qed.

Lemma mean_ge thr mags :
  mags ≠ [] → Forall (λ m, (thr <= m)%Q) mags →
  ∃ avg, Np.mean mags = Fin avg ∧ (thr <= avg)%Q.
Proof.
  intros Hne Hm. pose proof (sum_ge thr mags Hm) as Hsum.
  destruct mags as [|m mags]; [done|].
  eexists. split; [done|].
  apply Qle_shift_div_l; [|done].
  change 0%Q with (inject_Z 0). rewrite <- Zlt_Qlt. simpl. lia.
Qed.

(** On the dB path (a negative Python float as cutoff), magnitudes at or
    above the cutoff give a volume of -30 at least. *)
Lemma track_volume_db_range c thr mags :
  (0 < c)%Q → (thr < 0)%Q → mags ≠ [] →
  Forall (λ m, (thr <= m)%Q) mags →
  (-30 <= track_volume c (PyFloat thr) mags <= 0)%Q.
Proof.
  intros Hc Hthr Hne Hm. split; [|apply track_volume_bounds].
  unfold track_volume, raw_volume.
  rewrite (proj2 (Qltb_lt thr 0) Hthr).
  destruct (mean_ge thr mags Hne Hm) as (avg & -> & Havg).
  cbn [Np.sub_fin Np.div_fin].
  assert (Qeqb c 0 = false) as -> by (apply Qeqb_neq; lra).
  cbn [Np.mul_fin Np.add_fin Np.round1].
  set (v := Py.round1 _).
  assert (-30 <= v)%Q as Hv.
  { assert (Py.round1 (-30) == -30)%Q as <- by reflexivity.
    apply round1_mono.
    assert (0 <= (avg - thr) / c)%Q by (apply Qle_shift_div_l; lra). lra. }
  unfold Np.clamp. cbn [Np.lt_fin_r].
  destruct (Qltb v 0) eqn:E; cbn [Np.lt_fin_l].
  - destruct (Qltb (-40) v) eqn:E2; [done|]. apply Qltb_ge in E2. lra.
  - by vm_compute.
Qed.

Lemma record_peaks_nonempty step spec peaks d d' :
  Py.for_each (record_peak step spec) peaks d = Ok d' →
  (∀ k a, d !! k = Some a → magnitudes a ≠ []) →
  ∀ k a, d' !! k = Some a → magnitudes a ≠ [].
Proof.
  revert d. induction peaks as [|bin peaks IH]; intros d; simpl.
  - by intros [= <-].
  - destruct (record_peak step spec d bin) as [d1|] eqn:E; [|done]. simpl.
    intros H Hd. eapply IH; [exact H|].
    apply record_peak_inv in E as (mag & _ & ->).
    intros k a. rewrite lookup_record.
    destruct (decide (bin_to_note bin = k)); [|apply Hd].
    intros [= <-]. simpl. by intros [_ ?]%app_eq_nil.
Qed.

Lemma quantize_nonempty C thr fps steps d d' :
  quantize C thr fps steps d = Ok d' →
  (∀ k a, d !! k = Some a → magnitudes a ≠ []) →
  ∀ k a, d' !! k = Some a → magnitudes a ≠ [].
Proof.
  revert d. induction steps as [|step rest IH]; intros d; simpl.
  - by intros [= <-].
  - destruct (_ <=? _); [by intros [= <-]|]. intros H Hd.
    apply result_bind_ok in H as (spec & _ & H).
    apply result_bind_ok in H as (d1 & Hrec & H).
    eapply IH; [exact H|]. by eapply record_peaks_nonempty.
Qed.

Section SpectralVolume.

Context `{Ext : Externals}.

Lemma librosa_threshold self y sr t tr ar tr' :
  analyze_with_librosa self y sr t tr = (Ok ar, tr') →
  ∃ sd C thr,
    cqt_db y sr (hop_length (config self))
      (use_harmonic_enhancement (config self)) = Ok C ∧
    extract (threshold_db (config self)) C sd sr (hop_length (config self))
      (target_steps ar) = Ok (thr, active_notes_data ar) ∧
    result_threshold_db ar
    = Some (if db_is_pyfloat then PyFloat thr else NpScalar thr).
Proof.
  unfold analyze_with_librosa. intros H. io_inv H.
  apply lift_ok in Hrun1 as [HC _]. apply lift_ok in Hrun2 as [Hex _].
  destruct a2 as [thr d]. injection H as <- _. by exists a, a1, thr.
Qed.


End SpectralVolume.

(** ** The step quantizer: exactly the peaks *)

Lemma holds_record note step mag d k s :
  holds (add_activation note step mag (ensure_note note d)) k s ↔
  holds d k s ∨ (k = note ∧ s = step).
Proof.
  unfold holds. rewrite lookup_record.
  destruct (decide (note = k)) as [<-|Hne].
  - split.
    + intros (a & [= <-] & Hs). simpl in Hs.
      apply elem_of_union in Hs as [->%elem_of_singleton|Hs]; [by right|].
      left. destruct (d !! note) as [a0|]; [by exists a0|].
      by apply elem_of_empty in Hs.
    + intros [(a & Ha & Hs)|[_ ->]]; eexists; (split; [done|]); simpl.
      * rewrite Ha. apply elem_of_union. by right.
      * apply elem_of_union. left. by apply elem_of_singleton.
  - split; [by left|]. intros [?|[-> _]]; done.
Qed.

Lemma record_peaks_holds step spec peaks d d' k s :
  Py.for_each (record_peak step spec) peaks d = Ok d' →
  holds d' k s ↔
  holds d k s ∨ (s = step ∧ ∃ bin, bin ∈ peaks ∧ bin_to_note bin = k).
Proof.
  revert d. induction peaks as [|bin peaks IH]; intros d; simpl.
  - intros [= <-]. split; [by left|].
    intros [?|(_ & bin & ?%elem_of_nil & _)]; done.
  - destruct (record_peak step spec d bin) as [d1|] eqn:E; [|done]. simpl.
    intros H. rewrite (IH _ H).
    apply record_peak_inv in E as (mag & _ & ->). rewrite holds_record.
    split.
    + intros [[?|[-> ->]]|(-> & b & ? & ?)]; [by left | ..].
      * right. split; [done|]. exists bin. split; [left | done].
      * right. split; [done|]. exists b. split; [by right | done].
    + intros [?|(-> & b & [->|?]%elem_of_cons & Hb)]; [by left; left | ..].
      * left. right. done.
      * right. split; [done|]. by exists b.
Qed.

Lemma quantize_holds C thr fps steps d d' k s :
  quantize C thr fps steps d = Ok d' →
  holds d' k s ↔
  holds d k s ∨ (s ∈ processed C fps steps ∧ peak_at C thr fps k s).
Proof.
  revert d. induction steps as [|step rest IH]; intros d;
    cbn [quantize processed].
  - intros [= <-]. split; [by left|]. intros [?|[?%elem_of_nil _]]; done.
  - fold (start_frame_of fps step). fold (end_frame_of fps step).
    destruct (_ <=? _).
    { intros [= <-]. split; [by left|]. intros [?|[?%elem_of_nil _]]; done. }
    intros H. apply result_bind_ok in H as (spec & Hspec & H).
    apply result_bind_ok in H as (d1 & Hrec & H).
    rewrite (IH _ H), (record_peaks_holds _ _ _ _ _ _ _ Hrec). split.
    + intros [[?|(-> & bin & Hb & Hn)]|[Hin Hpk]]; [by left | ..].
      * right. split; [left|]. by exists spec, bin.
      * right. split; [by right | done].
    + intros [?|[[->|Hin]%elem_of_cons Hpk]]; [by left; left | ..].
      * left. right. split; [done|].
        destruct Hpk as (spec' & bin & Hs' & Hb & Hn).
        rewrite Hspec in Hs'. injection Hs' as <-. by exists bin.
      * right. done.
Qed.

Lemma processed_range C fps a b s :
  s ∈ processed C fps (Py.range a b) ↔
  a ≤ s < b ∧ ∀ s', a ≤ s' ≤ s → start_frame_of fps s' < Z.of_nat (length C).
Proof.
  destruct (decide (a < b)) as [Hab|Hab].
  2: { unfold Py.range. replace (Z.to_nat (b - a)) with 0%nat by lia.
       simpl. split; [by intros ?%elem_of_nil | lia]. }
  remember (Z.to_nat (b - a)) as n eqn:Hn.
  revert a b Hab Hn s. induction n as [|n IH]; intros a b Hab Hn s; [lia|].
  rewrite (range_split a b a) by lia.
  replace (Py.range a a) with (@nil Z)
    by (unfold Py.range; by rewrite Z.sub_diag).
  cbn [app processed].
  destruct (Z.of_nat (length C) <=? start_frame_of fps a) eqn:Hbrk.
  - apply Z.leb_le in Hbrk. split; [by intros ?%elem_of_nil|].
    intros [Hs Hall]. specialize (Hall a ltac:(lia)). lia.
  - apply Z.leb_gt in Hbrk. rewrite elem_of_cons.
    destruct (decide (a + 1 < b)) as [Hlt|Hge].
    + rewrite (IH (a + 1) b Hlt ltac:(lia) s). split.
      * intros [->|[Hs Hall]].
        -- split; [lia|]. intros s' Hs'. by replace s' with a by lia.
        -- split; [lia|]. intros s' Hs'.
           destruct (decide (s' = a)) as [->|]; [done | apply Hall; lia].
      * intros [Hs Hall]. destruct (decide (s = a)) as [|Hne]; [by left|].
        right. split; [lia|]. intros s' Hs'. apply Hall. lia.
    + unfold Py.range at 1. replace (Z.to_nat (b - (a + 1))) with 0%nat by lia.
      cbn [seq fmap list_fmap processed]. split.
      * intros [->|?%elem_of_nil]; [|done]. split; [lia|].
        intros s' Hs'. by replace s' with a by lia.
      * intros [Hs _]. left. lia.
Qed.


(** ** The command line *)

Section MainProperties.

Context `{Ext : Externals}.

Lemma run_rejects av cfg file_path tr :
  ¬ valid_config av cfg →
  ∃ e, run av cfg file_path tr = (Raise e, tr).
Proof.
  intros Hv. unfold run, new_converter.
  destruct (validate av cfg) as [[]|e] eqn:E.
  - destruct Hv. by apply validate_ok_iff.
  - by exists e.
Qed.


End MainProperties.

(** ** The session recorder *)

Lemma add_chunks_snoc r chunks data :
  Recorder.add_chunks r (chunks ++ [data]) =
    let '(r', out) := Recorder.add_chunks r chunks in
    let '(r'', o) := Recorder.add_data r' data in (r'', out ++ o).
Proof.
  unfold Recorder.add_chunks. rewrite foldl_app. simpl.
  by destruct (foldl _ _ chunks).
Qed.

Lemma add_chunks_state r chunks :
  let r' := (Recorder.add_chunks r chunks).1 in
  Recorder.filename r' = Recorder.filename r ∧
  Recorder.audio_data r' = Recorder.audio_data r ++ concat chunks ∧
  Recorder.chunk_count r' = Recorder.chunk_count r + Z.of_nat (length chunks).
Proof.
  induction chunks as [|data chunks IH] using rev_ind.
  - simpl. rewrite app_nil_r. repeat split; lia.
  - rewrite add_chunks_snoc.
    destruct (Recorder.add_chunks r chunks) as [r1 out]. simpl in IH |- *.
    destruct IH as (-> & -> & ->).
    rewrite concat_app, length_app, app_assoc. simpl. rewrite app_nil_r.
    repeat split; lia.
Qed.

Lemma add_chunks_app r chunks1 chunks2 :
  Recorder.add_chunks r (chunks1 ++ chunks2) =
    let '(r1, out1) := Recorder.add_chunks r chunks1 in
    let '(r2, out2) := Recorder.add_chunks r1 chunks2 in
    (r2, out1 ++ out2).
Proof.
  induction chunks2 as [|data chunks2 IH] using rev_ind.
  - rewrite app_nil_r. destruct (Recorder.add_chunks r chunks1) as [r1 out1].
    simpl. by rewrite app_nil_r.
  - rewrite app_assoc, add_chunks_snoc, IH.
    destruct (Recorder.add_chunks r chunks1) as [r1 out1].
    rewrite add_chunks_snoc.
    destruct (Recorder.add_chunks r1 chunks2) as [r2 out2].
    destruct (Recorder.add_data r2 data) as [r3 o]. by rewrite app_assoc.
Qed.


Lemma receive_state stream fin r :
  (Recorder.receive stream fin r).1
  = (Recorder.add_chunks r (heard stream)).1.
Proof.
  revert r. induction stream as [|m rest IH]; intros r; simpl; [done|].
  destruct (Recorder.stop_is_set m); [done|].
  rewrite add_chunks_app.
  destruct (Recorder.content m) as [chunks|]; simpl.
  - destruct (Recorder.add_chunks r chunks) as [r1 out1].
    specialize (IH r1).
    destruct (Recorder.receive rest fin r1) as [r2 out2].
    destruct (Recorder.add_chunks r1 (heard rest)) as [r3 out3]. done.
  - specialize (IH r).
    destruct (Recorder.receive rest fin r) as [r2 out2].
    destruct (Recorder.add_chunks r (heard rest)) as [r3 out3]. done.
Qed.


(** * Worked inputs

    A small world in which the definitions above run: three files, with
    their durations, what the tempo estimation answers for them and their
    dB spectrograms. *)

Module Demo.

Record recording := {
  seconds : nat;
  estimate : option nat;
  spectrogram : matrix
}.

(** An 88-bin frame at [floor] dB except for the listed bins. *)
Definition frame (peaks : list (nat * Q)) (floor : Q) : list Q :=
  foldr (λ p f, <[p.1 := p.2]> f) (replicate 88 floor) peaks.

(** C4 (bin 39) at 0 dB and E4 (bin 43) at -20 dB over a -80 dB floor. *)
Definition chord : matrix :=
  [frame [(39%nat, 0%Q); (43%nat, (-20)%Q)] (-80)%Q].

(** Two seconds of digital silence: a flat spectrogram, and a tempo
    estimation that raises. *)
Definition silence : recording :=
  {| seconds := 2; estimate := None; spectrogram := [replicate 88 0%Q] |}.

Definition files : list (string * recording) :=
  [("tone.wav",
    {| seconds := 2; estimate := Some 120%nat; spectrogram := chord |});
   ("long.wav",
    {| seconds := 60; estimate := Some 120%nat; spectrogram := chord |});
   ("silence.wav", silence)].

Definition find_file (p : string) : option recording :=
  snd <$> List.find (λ f, String.eqb f.1 p) files.

Definition duration_of (y : recording) (sr : Z) : Q :=
  inject_Z (Z.of_nat (seconds y)).

Definition beat_track_of (y : recording) (sr : Z) : result Q :=
  match estimate y with
  | Some t => Ok (inject_Z (Z.of_nat t))
  | None => Raise (LibraryError "beat tracking failed")
  end.

Lemma duration_nonneg y sr : (0 <= duration_of y sr)%Q.
Proof.
  unfold duration_of. change 0%Q with (inject_Z 0). rewrite <- Zle_Qle. lia.
Qed.

Lemma beat_track_of_nonneg y sr t : beat_track_of y sr = Ok t → (0 <= t)%Q.
Proof.
  unfold beat_track_of. destruct (estimate y); [|done]. intros [= <-].
  change 0%Q with (inject_Z 0). rewrite <- Zle_Qle. lia.
Qed.

Definition world : Externals :=
  {| waveform := recording;
     path_exists p := bool_decide (is_Some (find_file p));
     librosa_load p :=
       match find_file p with
       | Some y => Ok (y, 22050)
       | None => Raise (LibraryError "cannot decode")
       end;
     get_duration := duration_of;
     get_duration_nonneg := duration_nonneg;
     beat_track := beat_track_of;
     beat_track_nonneg := beat_track_of_nonneg;
     cqt_db y sr hop harm := Ok (spectrogram y);
     db_is_pyfloat := true;
     predict p m := Raise (LibraryError "Basic Pitch is not installed");
     resample y sr := y;
     pop2piano_pretrained :=
       Raise (LibraryError "Pop2Piano is not installed");
     pop2piano y sr := Raise (LibraryError "Pop2Piano is not installed") |}.

Definition librosa_only : Availability :=
  {| BASIC_PITCH_AVAILABLE := false; POP2PIANO_AVAILABLE := false |}.

Definition with_max_steps (n : Z) (cfg : AudioAnalysisConfig)
  : AudioAnalysisConfig :=
  {| method := method cfg; bpm_override := bpm_override cfg;
     max_steps := n; threshold_db := threshold_db cfg;
     min_note_duration := min_note_duration cfg;
     use_harmonic_enhancement := use_harmonic_enhancement cfg;
     hop_length := hop_length cfg |}.

(** [run] in this world, from an empty trace. *)
Definition run_file (cfg : AudioAnalysisConfig) (file_path : string)
  : result Pattern * list event :=
  run (Ext := world) librosa_only cfg file_path [].

(** What a run shows of its pattern, if it returns one. *)
Definition outcome {A} (f : Pattern → A) (r : result Pattern * list event)
  : option A :=
  match r.1 with
  | Ok p => Some (f p)
  | Raise _ => None
  end.

Definition at_140 : AudioToBeatsConverter :=
  {| config := with_bpm_override (Some 140%Q) default_config |}.

Definition at_0 : AudioToBeatsConverter :=
  {| config := with_bpm_override (Some 0%Q) default_config |}.

(** Activations keyed by a name [hz_to_note] produces for a black key. *)
Definition sharp_only : AnalysisResult :=
  {| tempo := 120; target_steps := 16;
     active_notes_data :=
       {[ bin_to_note 40 :=
            {| act_steps := {[0]}; magnitudes := [(-10)%Q] |} ]};
     step_duration := 1 # 8;
     result_threshold_db := Some (PyFloat (-40)) |}.

(** Magnitudes far outside the nominal range, and an empty list. *)
Definition extreme : AnalysisResult :=
  {| tempo := 120; target_steps := 16;
     active_notes_data :=
       {[ "C4" := {| act_steps := {[0]}; magnitudes := [1000000000%Q] |};
          "D4" := {| act_steps := {[1]}; magnitudes := [(-1000000000)%Q] |};
          "E4" := {| act_steps := ∅; magnitudes := [] |} ]};
     step_duration := 1 # 8;
     result_threshold_db := None |}.

End Demo.

(** C1, counterexample. [max_steps = 100] passes validation; on a
    60-second file at 120 BPM (480 steps) the pattern has
    [stepCount = 100], which is 4 modulo 16. *)
Lemma capped_step_count_is_not_a_multiple_of_16 :
  valid_config Demo.librosa_only (Demo.with_max_steps 100 default_config) ∧
  Demo.outcome (λ p, (stepCount p, (stepCount p) `mod` 16))
    (Demo.run_file (Demo.with_max_steps 100 default_config) "long.wav")
  = Some (100, 4).
Proof. split; [by apply validate_ok_iff | by vm_compute]. Qed.

(** C1, witness: the default configuration on a two-second file. *)
Lemma pattern_shape_witness :
  ∃ p tr',
    Demo.run_file default_config "tone.wav" = (Ok p, tr') ∧
    length (tracks p) = 88%nat ∧
    name <$> tracks p = PIANO_NOTES ∧
    Forall (λ t, Z.of_nat (length (steps t)) = stepCount p) (tracks p) ∧
    0 ≤ stepCount p ≤ max_steps default_config ∧
    ((stepCount p) `mod` 16 = 0 ∨ stepCount p = max_steps default_config) ∧
    ((max_steps default_config) `mod` 16 = 0 → (stepCount p) `mod` 16 = 0).
Proof.
  destruct (Demo.run_file default_config "tone.wav") as [[p|e] tr'] eqn:E;
    [|by vm_compute in E].
  exists p, tr'. split; [reflexivity|].
  apply (pattern_shape (Ext := Demo.world) Demo.librosa_only default_config
           "tone.wav" [] p tr');
    [by apply validate_ok_iff | intros q [=] | exact E].
Defined.

(** C2, counterexample. On the same file, raising [threshold_db] from 10 to
    40 raises the number of true steps from 1 (C4 alone) to 2 (C4 and the
    E4 that lies 20 dB below it). *)
Lemma larger_threshold_db_adds_a_step :
  (10 < 40)%Q ∧
  Demo.outcome total_true_steps
    (Demo.run_file (with_threshold_db 10 default_config) "tone.wav")
  = Some 1%nat ∧
  Demo.outcome total_true_steps
    (Demo.run_file (with_threshold_db 40 default_config) "tone.wav")
  = Some 2%nat.
Proof. split; [done|]. split; by vm_compute. Qed.

(** C2, witness: the same two runs. *)
Lemma larger_margin_witness :
  ∃ p1 tr1 p2 tr2,
    Demo.run_file (with_threshold_db 10 default_config) "tone.wav"
    = (Ok p1, tr1) ∧
    Demo.run_file (with_threshold_db 40 (with_threshold_db 10 default_config))
      "tone.wav" = (Ok p2, tr2) ∧
    (total_true_steps p1 ≤ total_true_steps p2)%nat.
Proof.
  destruct (Demo.run_file (with_threshold_db 10 default_config) "tone.wav")
    as [[p1|e] tr1] eqn:E1; [|by vm_compute in E1].
  destruct (Demo.run_file (with_threshold_db 40
                             (with_threshold_db 10 default_config)) "tone.wav")
    as [[p2|e] tr2] eqn:E2; [|by vm_compute in E2].
  exists p1, tr1, p2, tr2. split; [reflexivity|]. split; [reflexivity|].
  apply (larger_margin_keeps_every_step (Ext := Demo.world) Demo.librosa_only
           (with_threshold_db 10 default_config) 40 "tone.wav" [] p1 tr1 p2 tr2);
    [by vm_compute | exact E1 | exact E2].
Defined.

(** C3, witness: magnitudes of plus and minus a billion and an empty
    magnitude list, on the dB-relative path. *)
Lemma volume_clamped_witness :
  ∃ p, build_track_data default_config Demo.extreme = Ok p ∧
       Forall (λ t, (-40 <= volume t <= 0)%Q) (tracks p).
Proof.
  destruct (build_track_data default_config Demo.extreme) as [p|e] eqn:E;
    [|by vm_compute in E].
  exists p. split; [reflexivity|].
  exact (volume_always_clamped default_config Demo.extreme p E).
Defined.

(** The volumes of that pattern's visible tracks: the empty list gives 0. *)
Example extreme_volumes :
  Demo.outcome
    (λ p, (λ t, (name t, volume t))
            <$> List.filter (λ t, negb (hidden t)) (tracks p))
    (build_track_data default_config Demo.extreme, [])
  = Some [("E4", 0%Q); ("D4", (-40)%Q); ("C4", 0%Q)].
Proof. by vm_compute. Qed.

(** C4, on a run: silence yields no true step and shows the band. *)
Example silent_input_shows_the_band :
  Demo.outcome
    (λ p, (total_true_steps p,
           name <$> List.filter (λ t, negb (hidden t)) (tracks p)))
    (Demo.run_file default_config "silence.wav")
  = Some (0%nat, band_notes).
Proof. by vm_compute. Qed.

(** C5, witness: an override of 140 gives [bpm = 140], here on the file
    whose tempo estimation would raise. *)
Lemma override_140_witness :
  (∀ y sr tr,
     detect_tempo (Ext := Demo.world) Demo.at_140 y sr tr = (Ok 140%Q, tr)) ∧
  ∃ p tr',
    convert (Ext := Demo.world) Demo.at_140 "silence.wav" [] = (Ok p, tr') ∧
    bpm p = 140.
Proof.
  destruct (override_fixes_bpm (Ext := Demo.world) Demo.at_140 140%Q eq_refl
              ltac:(by vm_compute)) as [Hd Hc].
  split; [exact Hd|].
  destruct (convert (Ext := Demo.world) Demo.at_140 "silence.wav" [])
    as [[p|e] tr'] eqn:E; [|by vm_compute in E].
  exists p, tr'. split; [reflexivity|]. exact (Hc _ _ _ _ E).
Defined.

(** An estimation that raises: the tempo is 120 and the run goes through. *)
Lemma tempo_failure_witness :
  detect_tempo (Ext := Demo.world) {| config := default_config |}
    Demo.silence 22050 []
  = (Ok 120%Q, [EvTempoAnalysis]) ∧
  Demo.outcome bpm (Demo.run_file default_config "silence.wav") = Some 120.
Proof.
  destruct (tempo_failure_defaults_to_120 (Ext := Demo.world)
              {| config := default_config |}) as [_ H].
  destruct (H eq_refl Demo.silence 22050
              (LibraryError "beat tracking failed") eq_refl) as [Hd _].
  split; [exact (Hd []) | by vm_compute].
Defined.

(** C7, witness: [max_steps = 8] is refused with an empty trace; the default
    configuration goes on to probe and decode the file. *)
Lemma validation_witness :
  Demo.run_file (Demo.with_max_steps 8 default_config) "tone.wav"
  = (Raise (ValueError "max_steps must be between 16 and 1024"), []) ∧
  ∃ r tr', Demo.run_file default_config "tone.wav"
           = (r, [] ++ EvExists "tone.wav" :: EvLoad "tone.wav" :: tr').
Proof.
  destruct (validation_precedes_loading (Ext := Demo.world) Demo.librosa_only
              (Demo.with_max_steps 8 default_config) "tone.wav" [])
    as (_ & Hbad & _).
  destruct (Hbad _ eq_refl) as [_ Hrun]. split; [exact Hrun|].
  destruct (validation_precedes_loading (Ext := Demo.world) Demo.librosa_only
              default_config "tone.wav" []) as (Hiff & _ & Hgood).
  destruct (Hgood (proj1 Hiff eq_refl)) as (_ & r & tr' & Hr & Hex & _).
  destruct (Hex eq_refl) as [tr'' ->]. by exists r, tr''.
Defined.

(** C8, witness: the quantizer on the one-frame chord, 16 steps. *)
Lemma quantizer_witness :
  ∃ thr d,
    extract 40 Demo.chord (1 # 8) 22050 512 16 = Ok (thr, d) ∧
    ∃ max_db fps,
      Np.max_list (concat Demo.chord) = Ok max_db ∧ thr = (max_db - 40)%Q ∧
      frames_per_step_of (1 # 8) 22050 512 = Ok fps ∧
      (∀ note a, d !! note = Some a →
         Forall (λ mag, (thr <= mag)%Q) (magnitudes a) ∧
         ∀ s, s ∈ act_steps a →
              0 ≤ s < 16 ∧
              start_frame_of fps s < Z.of_nat (length Demo.chord) ∧
              ((0 <= fps)%Q → 0 ≤ start_frame_of fps s)) ∧
      (∀ s0, 0 ≤ s0 < 16 →
         Z.of_nat (length Demo.chord) ≤ start_frame_of fps s0 →
         quantize Demo.chord thr fps (Py.range 0 16) ∅
         = quantize Demo.chord thr fps (Py.range 0 s0) ∅ ∧
         ∀ note a s, d !! note = Some a → s ∈ act_steps a → s < s0) ∧
      ((1 <= fps)%Q →
       ∀ s0, 0 ≤ s0 < 16 →
         Z.of_nat (length Demo.chord) - 1 ≤ start_frame_of fps s0 →
         ∀ note a s, d !! note = Some a → s ∈ act_steps a → s ≤ s0).
Proof.
  destruct (extract 40 Demo.chord (1 # 8) 22050 512 16) as [[thr d]|e] eqn:E;
    [|by vm_compute in E].
  exists thr, d. split; [reflexivity|].
  exact (quantizer_records_within_signal 40 Demo.chord (1 # 8) 22050 512 16
           thr d E).
Defined.

(** C9, counterexample. Bin 40 is named ["C♯4"], which is none of the 88
    canonical names; with that record alone, the canonical track ["C#4"]
    (row 47) has no record, no true step and volume -5, and yet it is not
    hidden: every track was hidden, so the fallback shows C3 to C5. *)
Lemma unicode_sharp_track_is_shown :
  bin_to_note 40 = "C♯4" ∧
  bool_decide (bin_to_note 40 ∈ PIANO_NOTES) = false ∧
  PIANO_NOTES !! 47%nat = Some "C#4" ∧
  active_notes_data Demo.sharp_only !! "C#4" = None ∧
  Demo.outcome
    (λ p, (λ t, (name t, hidden t, true_steps t, volume t))
            <$> tracks p !! 47%nat)
    (build_track_data default_config Demo.sharp_only, [])
  = Some (Some ("C#4", false, 0%nat, (-5)%Q)).
Proof. repeat split; by vm_compute. Qed.

(** C10, witness: an override of 0 on the silent file. *)
Lemma zero_override_witness :
  detect_tempo (Ext := Demo.world) Demo.at_0 Demo.silence 22050 []
  = detect_tempo (Ext := Demo.world) {| config := default_config |}
      Demo.silence 22050 [] ∧
  detect_tempo (Ext := Demo.world) Demo.at_0 Demo.silence 22050 []
  = (Ok 120%Q, [EvTempoAnalysis]).
Proof.
  destruct (zero_override_is_ignored (Ext := Demo.world) Demo.at_0
              Demo.silence 22050 [] 0%Q eq_refl) as [H _].
  destruct (H (Qeq_refl 0)) as [H1 H2]. split; [exact H1 | exact H2].
Defined.


(** A world in which beat tracking answers as it does on digital silence:
    it finds no onset and returns the tempo 0, without raising. *)
Module Silent.

Lemma estimate_nonneg (y : Demo.recording) (sr : Z) (t : Q) :
  Ok 0%Q = Ok t → (0 <= t)%Q.
Proof. by intros [= <-]. Qed.

Definition world : Externals :=
  {| waveform := Demo.recording;
     path_exists p := String.eqb p "silence.wav";
     librosa_load p :=
       if String.eqb p "silence.wav" then Ok (Demo.silence, 22050)
       else Raise (LibraryError "cannot decode");
     get_duration := Demo.duration_of;
     get_duration_nonneg := Demo.duration_nonneg;
     beat_track y sr := Ok 0%Q;
     beat_track_nonneg := estimate_nonneg;
     cqt_db y sr hop harm := Ok (Demo.spectrogram y);
     db_is_pyfloat := true;
     predict p m := Raise (LibraryError "Basic Pitch is not installed");
     resample y sr := y;
     pop2piano_pretrained :=
       Raise (LibraryError "Pop2Piano is not installed");
     pop2piano y sr := Raise (LibraryError "Pop2Piano is not installed") |}.

End Silent.

(** C6, witness: the silent file with the default configuration.  Tempo
    detection returns 0, and the run ends with [ZeroDivisionError] after
    the tempo analysis. *)
Lemma silent_file_witness :
  detect_tempo (Ext := Silent.world) {| config := default_config |}
    Demo.silence 22050 []
  = (Ok 0%Q, [EvTempoAnalysis]) ∧
  run (Ext := Silent.world) Demo.librosa_only default_config "silence.wav" []
  = (Raise ZeroDivisionError,
     [EvExists "silence.wav"; EvLoad "silence.wav"; EvTempoAnalysis]).
Proof.
  destruct (zero_estimate_aborts_conversion (Ext := Silent.world)
              {| config := default_config |} "silence.wav" [] Demo.silence
              22050 0%Q eq_refl eq_refl eq_refl eq_refl (Qeq_refl 0))
    as (Hd & _ & _ & Hc & _).
  split; [exact (Hd []) | exact (Hc ltac:(done) ltac:(done))].
Defined.

(** C8, counterexample.  A 1000 BPM grid (steps of 0.015 s, about 0.65
    frame at 22050 Hz and a hop of 512) on the one-frame chord: the last
    available frame is frame 0, steps 0 and 1 both start on it and step 2
    starts at frame 1.  Step 0 starts on the last available frame, and yet
    step 1 is processed: C4 is recorded at steps 0 and 1. *)
Lemma step_after_one_on_the_last_frame_is_recorded :
  match frames_per_step_of (3 # 200) 22050 512,
        extract 40 Demo.chord (3 # 200) 22050 512 16 with
  | Ok fps, Ok (thr, d) =>
      Some (Z.of_nat (length Demo.chord) - 1,
            start_frame_of fps <$> [0; 1; 2],
            (λ a, bool_decide (0 ∈ act_steps a) && bool_decide (1 ∈ act_steps a))
              <$> d !! "C4")
  | _, _ => None
  end = Some (0, [0; 0; 1], Some true).
Proof. by vm_compute. Qed.

(** Steps narrower than a frame (the loop's [start_frame == end_frame]
    case): at 1000 BPM a step is about 0.65 frame, steps 0 and 1 both start
    on the only frame of the chord and both are recorded; step 2 starts at
    frame 1 and ends the loop. *)
Example sub_frame_steps_share_a_frame :
  Demo.outcome
    (λ p, (stepCount p,
           (λ t, (name t, Py.slice (steps t) 0 4))
             <$> List.filter (λ t, negb (hidden t)) (tracks p)))
    (Demo.run_file (with_bpm_override (Some 1000%Q) default_config)
       "tone.wav")
  = Some (144, [("E4", [true; true; false; false]);
                ("C4", [true; true; false; false])]).
Proof. by vm_compute. Qed.

(** [validate] does not look at [bpm_override]: a negative override passes,
    the step duration is negative, and the pattern comes out with a
    negative [stepCount] and empty step sequences. *)
Example negative_override_pattern :
  valid_config Demo.librosa_only
    (with_bpm_override (Some (-120)%Q) default_config) ∧
  Demo.outcome
    (λ p, (stepCount p, length (tracks p), length <$> (steps <$> tracks p) !! 0%nat))
    (Demo.run_file (with_bpm_override (Some (-120)%Q) default_config)
       "tone.wav")
  = Some (-16, 88%nat, Some 0%nat).
Proof. split; [by apply validate_ok_iff | by vm_compute]. Qed.

(** ** A studio with the two models installed *)

Module Studio.

Record take := {
  seconds : nat;
  rate : Z;
  estimate : option nat;
  events : list note_event;
  midi : list (list midi_note)
}.

(** Two seconds at 120 BPM (16 steps of 1/8 s): C4 on steps 0 to 2, C♯4 on
    steps 4 to 6, and an E4 that starts after the last step. *)
Definition riff : take :=
  {| seconds := 2; rate := 22050; estimate := Some 120%nat;
     events :=
       [ {| start_time := 0; end_time := 1 # 4; pitch_midi := 60;
            amplitude := 1 # 2 |};
         {| start_time := 1 # 2; end_time := 3 # 4; pitch_midi := 61;
            amplitude := 4 # 5 |};
         {| start_time := 5; end_time := 6; pitch_midi := 64;
            amplitude := 1 # 2 |} ];
     midi :=
       [ [ {| note_pitch := 60; note_start := 0; note_end := 1 # 4;
              note_velocity := 100 |};
           {| note_pitch := 67; note_start := 1; note_end := 5 # 4;
              note_velocity := 64 |} ] ] |}.

(** A recording in which beat tracking finds no onset. *)
Definition still : take :=
  {| seconds := 2; rate := 22050; estimate := Some 0%nat; events := [];
     midi := [] |}.

Definition files : list (string * take) :=
  [("riff.wav", riff); ("still.wav", still)].

Definition find_file (p : string) : option take :=
  snd <$> List.find (λ f, String.eqb f.1 p) files.

Definition duration_of (y : take) (sr : Z) : Q :=
  inject_Z (Z.of_nat (seconds y)).

Definition beat_track_of (y : take) (sr : Z) : result Q :=
  match estimate y with
  | Some t => Ok (inject_Z (Z.of_nat t))
  | None => Raise (LibraryError "beat tracking failed")
  end.

Lemma take_duration_nonneg y sr : (0 <= duration_of y sr)%Q.
Proof.
  unfold duration_of. change 0%Q with (inject_Z 0). rewrite <- Zle_Qle. lia.
Qed.

Lemma take_estimate_nonneg y sr t : beat_track_of y sr = Ok t → (0 <= t)%Q.
Proof.
  unfold beat_track_of. destruct (estimate y); [|done]. intros [= <-].
  change 0%Q with (inject_Z 0). rewrite <- Zle_Qle. lia.
Qed.

Definition world : Externals :=
  {| waveform := take;
     path_exists p := bool_decide (is_Some (find_file p));
     librosa_load p :=
       match find_file p with
       | Some y => Ok (y, rate y)
       | None => Raise (LibraryError "cannot decode")
       end;
     get_duration := duration_of;
     get_duration_nonneg := take_duration_nonneg;
     beat_track := beat_track_of;
     beat_track_nonneg := take_estimate_nonneg;
     cqt_db y sr hop harm := Ok Demo.chord;
     db_is_pyfloat := true;
     predict p m :=
       match find_file p with
       | Some y => Ok (events y)
       | None => Raise (LibraryError "cannot decode")
       end;
     resample y sr := y;
     pop2piano_pretrained := Ok tt;
     pop2piano y sr := Ok (midi y) |}.

Definition all_installed : Availability :=
  {| BASIC_PITCH_AVAILABLE := true; POP2PIANO_AVAILABLE := true |}.

Definition with_method (m : string) (cfg : AudioAnalysisConfig)
  : AudioAnalysisConfig :=
  {| method := m; bpm_override := bpm_override cfg;
     max_steps := max_steps cfg; threshold_db := threshold_db cfg;
     min_note_duration := min_note_duration cfg;
     use_harmonic_enhancement := use_harmonic_enhancement cfg;
     hop_length := hop_length cfg |}.

Definition basic_pitch : AudioAnalysisConfig :=
  with_method "basic_pitch" default_config.

Definition pop2piano_cfg : AudioAnalysisConfig :=
  with_method "pop2piano" default_config.

(** [run] in this world, from an empty trace. *)
Definition run_file (cfg : AudioAnalysisConfig) (file_path : string)
  : result Pattern * list event :=
  run (Ext := world) all_installed cfg file_path [].

End Studio.
















